(** * IP allowlists of cfssl: host and network access lists

    A shallow embedding of package [allowlist] (allowlist.go,
    allowlist_net.go, lookup.go, http.go), of the handlers of its example
    server and of the parts of the Go standard library they call
    ([strings], [sort], [net]), followed by the properties of the lists,
    of their two serialised forms and of the HTTP gating handlers. *)

From Stdlib Require Import ZArith NArith List Strings.String Strings.Ascii Strings.Byte Bool Lia.
From stdpp Require Import base option list strings gmap sorting.

#[global] Instance byte_eq_dec : EqDecision byte := Byte.byte_eq_dec.

(** ** Go strings and byte slices

    A Go [string] is a sequence of bytes: [String.string].  A [[]byte] is
    [list byte]; the conversions [string(b)] and [[]byte(s)] keep the
    bytes. *)

Definition string_of_bytes (b : list byte) : string := string_of_list_byte b.
Definition bytes_of_string (s : string) : list byte := list_byte_of_string s.

Definition chr (n : N) : ascii := ascii_of_N n.
Definition ord (c : ascii) : N := N_of_ascii c.

(** Package [strings]. *)
Module GoStrings.

(** The string of the bytes [l]. *)
Definition utf8 (l : list N) : string := string_of_list_ascii (map chr l).

(** The UTF-8 encodings of the code points for which [unicode.IsSpace]
    holds: the six ASCII ones, U+0085, U+00A0, U+1680, U+2000..U+200A,
    U+2028, U+2029, U+202F, U+205F and U+3000. *)
Definition spaces : list string :=
  map utf8
    [ [9]; [10]; [11]; [12]; [13]; [32];
      [194; 133]; [194; 160]; [225; 154; 128];
      [226; 128; 128]; [226; 128; 129]; [226; 128; 130]; [226; 128; 131];
      [226; 128; 132]; [226; 128; 133]; [226; 128; 134]; [226; 128; 135];
      [226; 128; 136]; [226; 128; 137]; [226; 128; 138];
      [226; 128; 168]; [226; 128; 169]; [226; 128; 175];
      [226; 129; 159]; [227; 128; 128] ]%N.

(** [strip p s]: [s] without its prefix [p], when it has it. *)
Fixpoint strip (p s : string) : option string :=
  match p, s with
  | EmptyString, _ => Some s
  | String a p', String b s' => if Ascii.eqb a b then strip p' s' else None
  | String _ _, EmptyString => None
  end.

(** The rest of [s] after one leading white-space character, one of
    [ps]. *)
Fixpoint strip_any (ps : list string) (s : string) : option string :=
  match ps with
  | [] => None
  | p :: ps' => match strip p s with Some r => Some r | None => strip_any ps' s end
  end.

(** [s] without its leading white space; [fuel] bounds the number of
    characters removed, the length of [s] is enough. *)
Fixpoint trim_left (fuel : nat) (ps : list string) (s : string) : string :=
  match fuel with
  | O => s
  | S fuel' =>
      match strip_any ps s with
      | Some r => trim_left fuel' ps r
      | None => s
      end
  end.

Definition TrimLeftSpace (s : string) : string :=
  trim_left (String.length s) spaces s.

(** The same from the end: the reversed encodings are removed from the
    reversed string. *)
Definition TrimRightSpace (s : string) : string :=
  String.rev (trim_left (String.length s) (map String.rev spaces) (String.rev s)).

(** [strings.TrimSpace]: all leading and trailing white space removed. *)
Definition TrimSpace (s : string) : string := TrimRightSpace (TrimLeftSpace s).

(** [strings.Split(s, sep)] for a separator [sep] of one byte, the only
    kind the package passes ([","] and the newline). *)
Fixpoint Split (s : string) (sep : ascii) : list string :=
  match s with
  | EmptyString => [EmptyString]
  | String c s' =>
      if Ascii.eqb c sep then EmptyString :: Split s' sep
      else match Split s' sep with
           | [] => [String c EmptyString]
           | t :: ts => String c t :: ts
           end
  end.

(** [strings.Join]. *)
Fixpoint Join (ss : list string) (sep : string) : string :=
  match ss with
  | [] => EmptyString
  | [s] => s
  | s :: ss' => s +:+ sep +:+ Join ss' sep
  end.

End GoStrings.

(** Package [sort]: [sort.Strings] orders by bytes, ascending. *)
Module GoSort.

Fixpoint insert (s : string) (l : list string) : list string :=
  match l with
  | [] => [s]
  | t :: l' => if String.leb s t then s :: l else t :: insert s l'
  end.

Definition Strings (l : list string) : list string := foldr insert [] l.

End GoSort.

(** ** Package [net] of the Go standard library

    The functions the allowlists call, as of Go 1.22: [IP.String],
    [ParseIP], [IPNet.Contains], [IPNet.String] and [ParseCIDR], with the
    helpers they are made of ([ParseIP] and [ParseCIDR] go through
    [netip.ParseAddr]).  A nil slice and an empty one are both [[]]; a
    function that can return a nil [IP] returns an [option]. *)
Module net.

Definition IP := list byte.
Definition IPMask := list byte.

(** [type IPNet struct { IP IP; Mask IPMask }] *)
Record IPNet := { IPNet_IP : IP; IPNet_Mask : IPMask }.

(** [&ParseError{Type: typ, Text: text}] *)
Record ParseError := { Type_ : string; Text : string }.

Definition IPv4len : nat := 4.
Definition IPv6len : nat := 16.

(** [byte(n)]: the low eight bits. *)
Definition byte_of (n : N) : byte := default x00 (Byte.of_N (n mod 256)).

Definition band (a b : byte) : byte := byte_of (N.land (Byte.to_N a) (Byte.to_N b)).

Definition v4InV6Prefix : list byte :=
  [x00; x00; x00; x00; x00; x00; x00; x00; x00; x00; xff; xff].

Definition isZeros (p : list byte) : bool := forallb (Byte.eqb x00) p.
Definition allFF (p : list byte) : bool := forallb (Byte.eqb xff) p.

(** [ip.To4()]; [None] is the nil result. *)
Definition To4 (ip : IP) : option IP :=
  if Nat.eqb (length ip) IPv4len then Some ip
  else if Nat.eqb (length ip) IPv6len && isZeros (take 10 ip)
          && Byte.eqb (nth 10 ip x00) xff && Byte.eqb (nth 11 ip x00) xff
  then Some (drop 12 ip)
  else None.

(** *** Printing *)

Definition digit (d : N) : ascii :=
  if (d <? 10)%N then chr (48 + d) else chr (87 + d).

Fixpoint uitoa_aux (fuel : nat) (n : N) (acc : string) : string :=
  match fuel with
  | O => acc
  | S fuel' =>
      let acc' := String (digit (n mod 10)) acc in
      if (n / 10 =? 0)%N then acc' else uitoa_aux fuel' (n / 10) acc'
  end.

(** [uitoa]: decimal, no leading zero. *)
Definition uitoa (n : N) : string := uitoa_aux (S (N.to_nat (N.log2 n))) n "".

Fixpoint appendHex_aux (fuel : nat) (n : N) (acc : string) : string :=
  match fuel with
  | O => acc
  | S fuel' =>
      let acc' := String (digit (n mod 16)) acc in
      if (n / 16 =? 0)%N then acc' else appendHex_aux fuel' (n / 16) acc'
  end.

(** [appendHex]: lower-case hexadecimal of a 16-bit group, no leading
    zero. *)
Definition appendHex (x : N) : string := appendHex_aux 4 x "".

(** [hexString]: two lower-case hexadecimal digits a byte. *)
Fixpoint hexString (b : list byte) : string :=
  match b with
  | [] => ""
  | x :: b' =>
      String (digit (Byte.to_N x / 16)) (String (digit (Byte.to_N x mod 16)) (hexString b'))
  end.

(** The dotted form of four bytes. *)
Definition string4 (p : list byte) : string :=
  GoStrings.Join (map (fun b => uitoa (Byte.to_N b)) p) ".".

(** [v6u16]: the eight 16-bit groups of sixteen bytes. *)
Fixpoint groups (p : list byte) : list N :=
  match p with
  | hi :: lo :: p' => (Byte.to_N hi * 256 + Byte.to_N lo)%N :: groups p'
  | _ => []
  end.

Fixpoint zero_run (gs : list N) : nat :=
  match gs with
  | 0%N :: gs' => S (zero_run gs')
  | _ => 0
  end.

(** The first loop of [appendTo6]: the first longest run of two or more
    zero groups, as [(zeroStart, zeroEnd)]; [(255, 255)] when there is
    none. *)
Definition zero_span (gs : list N) : nat * nat :=
  fold_left
    (fun '(zeroStart, zeroEnd) i =>
       let l := zero_run (drop i gs) in
       if ((2 <=? l) && (zeroEnd - zeroStart <? l))%nat then (i, (i + l)%nat)
       else (zeroStart, zeroEnd))
    (seq 0 8) (255, 255).

(** The second loop of [appendTo6]. *)
Fixpoint appendTo6 (fuel i : nat) (span : nat * nat) (gs : list N) : string :=
  match fuel with
  | O => ""
  | S fuel' =>
      if (8 <=? i)%nat then ""
      else if (i =? span.1)%nat then
        "::" +:+ (if (8 <=? span.2)%nat then ""
                  else appendHex (nth span.2 gs 0%N) +:+ appendTo6 fuel' (S span.2) span gs)
      else
        (if (0 <? i)%nat then ":" else "") +:+ appendHex (nth i gs 0%N)
          +:+ appendTo6 fuel' (S i) span gs
  end.

Definition string6 (p : list byte) : string :=
  let gs := groups p in appendTo6 8 0 (zero_span gs) gs.

(** [ip.String()] *)
Definition IP_String (ip : IP) : string :=
  if Nat.eqb (length ip) 0 then "<nil>"
  else if negb (Nat.eqb (length ip) IPv4len) && negb (Nat.eqb (length ip) IPv6len)
  then "?" +:+ hexString ip
  else match To4 ip with
       | Some p4 => string4 p4
       | None => string6 ip
       end.

(** [m.String()] of an [IPMask]. *)
Definition IPMask_String (m : IPMask) : string :=
  if Nat.eqb (length m) 0 then "<nil>" else hexString m.

(** *** Parsing *)

Definition isDigit (c : ascii) : bool := ((48 <=? ord c) && (ord c <=? 57))%N.

(** The value of a hexadecimal digit, of either case. *)
Definition hexval (c : ascii) : option N :=
  let n := ord c in
  if ((48 <=? n) && (n <=? 57))%N then Some (n - 48)%N
  else if ((97 <=? n) && (n <=? 102))%N then Some (n - 97 + 10)%N
  else if ((65 <=? n) && (n <=? 70))%N then Some (n - 65 + 10)%N
  else None.

(** [dtoi]: the decimal number at the start of [s], how many bytes it
    takes, and whether there is one below [big = 0xFFFFFF]. *)
Definition big : N := 16777215.

Fixpoint dtoi_loop (s : string) (n : N) (i : nat) : N * nat * bool :=
  match s with
  | String c s' =>
      if isDigit c then
        let n' := (n * 10 + (ord c - 48))%N in
        if (big <=? n')%N then (big, i, false) else dtoi_loop s' n' (S i)
      else if (i =? 0)%nat then (0%N, 0%nat, false) else (n, i, true)
  | EmptyString => if (i =? 0)%nat then (0%N, 0%nat, false) else (n, i, true)
  end.

Definition dtoi (s : string) : N * nat * bool := dtoi_loop s 0 0.

(** [netip.Addr], as far as parsing makes one: four bytes, or sixteen
    with a zone. *)
Inductive Addr :=
| Addr4 (b : list byte)
| Addr6 (b : list byte) (zone : string).

Definition Zone (a : Addr) : string :=
  match a with Addr4 _ => "" | Addr6 _ z => z end.

Definition BitLen (a : Addr) : N :=
  match a with Addr4 _ => 32 | Addr6 _ _ => 128 end.

Definition As16 (a : Addr) : list byte :=
  match a with Addr4 b => v4InV6Prefix ++ b | Addr6 b _ => b end.

(** [parseIPv4Fields]: [start] stands for [i == 0 || s[i-1] == '.'];
    [fields] are the octets stored so far, [pos] their number. *)
Fixpoint parseIPv4Fields_loop (s : string) (start : bool) (val : N) (pos digLen : nat)
    (fields : list byte) : option (list byte) :=
  match s with
  | EmptyString =>
      if (pos <? 3)%nat then None else Some (fields ++ [byte_of val])
  | String c s' =>
      if isDigit c then
        if (digLen =? 1)%nat && (val =? 0)%N then None
        else
          let val' := (val * 10 + (ord c - 48))%N in
          if (255 <? val')%N then None
          else parseIPv4Fields_loop s' false val' pos (S digLen) fields
      else if Ascii.eqb c "." then
        if start || String.eqb s' "" then None
        else if (pos =? 3)%nat then None
        else parseIPv4Fields_loop s' true 0%N (S pos) 0%nat (fields ++ [byte_of val])
      else None
  end.

Definition parseIPv4Fields (s : string) : option (list byte) :=
  parseIPv4Fields_loop s true 0%N 0%nat 0%nat [].

Definition parseIPv4 (s : string) : option Addr :=
  Addr4 <$> parseIPv4Fields s.

(** The inner loop of [parseIPv6]: one group of hexadecimal digits.
    [None] is a failure (more than four digits); otherwise the value, the
    number of digits and what follows them. *)
Fixpoint hexGroup (s : string) (off : nat) (acc : N) : option (N * nat * string) :=
  match s with
  | EmptyString => Some (acc, off, s)
  | String c s' =>
      match hexval c with
      | None => Some (acc, off, s)
      | Some d =>
          let acc' := (acc * 16 + d)%N in
          if (3 <? off)%nat then None
          else if (65535 <? acc')%N then None
          else hexGroup s' (S off) acc'
      end
  end.

(** The outer loop of [parseIPv6]; [ip] holds the [i = length ip] bytes
    stored so far.  The result is the state when the loop is left. *)
Fixpoint parseIPv6_loop (fuel : nat) (s : string) (ip : list byte) (ellipsis : option nat)
    : option (string * list byte * option nat) :=
  match fuel with
  | O => Some (s, ip, ellipsis)
  | S fuel' =>
      let i := length ip in
      if (16 <=? i)%nat then Some (s, ip, ellipsis)
      else
        match hexGroup s 0 0 with
        | None => None
        | Some (acc, off, rest) =>
            if (off =? 0)%nat then None
            else
              match rest with
              | String "." _ =>
                  if (if ellipsis is None then true else false) && negb (i =? 12)%nat then None
                  else if (16 <? i + 4)%nat then None
                  else
                    match parseIPv4Fields s with
                    | None => None
                    | Some f => Some ("", ip ++ f, ellipsis)
                    end
              | _ =>
                  let ip' := ip ++ [byte_of (acc / 256); byte_of acc] in
                  match rest with
                  | EmptyString => Some ("", ip', ellipsis)
                  | String c r1 =>
                      if negb (Ascii.eqb c ":") then None
                      else
                        match r1 with
                        | EmptyString => None
                        | String ":" r2 =>
                            match ellipsis with
                            | Some _ => None
                            | None =>
                                if String.eqb r2 "" then Some ("", ip', Some (length ip'))
                                else parseIPv6_loop fuel' r2 ip' (Some (length ip'))
                            end
                        | String _ _ => parseIPv6_loop fuel' r1 ip' ellipsis
                        end
                  end
              end
        end
  end.

(** [s] split at its first ['%']: the address and, when there is a
    ['%'], the zone after it. *)
Fixpoint cutZone (s : string) : string * option string :=
  match s with
  | EmptyString => ("", None)
  | String c s' =>
      if Ascii.eqb c "%" then ("", Some s')
      else let '(a, z) := cutZone s' in (String c a, z)
  end.

(** The end of [parseIPv6], after the loop: the string is used up, and
    the ellipsis stands for the groups that are missing. *)
Definition parseIPv6_end (st : string * list byte * option nat) (zone : string)
    : option Addr :=
  let '(rest, ip, ellipsis) := st in
  if negb (String.eqb rest "") then None
  else
    let i := length ip in
    if (i <? 16)%nat then
      match ellipsis with
      | None => None
      | Some e => Some (Addr6 (take e ip ++ replicate (16 - i) x00 ++ drop e ip) zone)
      end
    else if (if ellipsis is Some _ then true else false) then None
    else Some (Addr6 ip zone).

(** [parseIPv6] once the zone is cut off. *)
Definition parseIPv6_addr (s zone : string) : option Addr :=
  match s with
  | String ":" (String ":" EmptyString) => Some (Addr6 (replicate 16 x00) zone)
  | String ":" (String ":" s') =>
      st ← parseIPv6_loop 8 s' [] (Some 0%nat); parseIPv6_end st zone
  | _ =>
      st ← parseIPv6_loop 8 s [] None; parseIPv6_end st zone
  end.

Definition parseIPv6 (input : string) : option Addr :=
  let '(s, z) := cutZone input in
  if (if z is Some "" then true else false) then None
  else parseIPv6_addr s (default "" z).

(** [netip.ParseAddr] *)
Fixpoint ParseAddr_scan (whole s : string) : option Addr :=
  match s with
  | EmptyString => None
  | String c s' =>
      if Ascii.eqb c "." then parseIPv4 whole
      else if Ascii.eqb c ":" then parseIPv6 whole
      else if Ascii.eqb c "%" then None
      else ParseAddr_scan whole s'
  end.

Definition ParseAddr (s : string) : option Addr := ParseAddr_scan s s.

(** [net.ParseIP]: sixteen bytes, or nil. *)
Definition ParseIP (s : string) : option IP :=
  match ParseAddr s with
  | Some a => if String.eqb (Zone a) "" then Some (As16 a) else None
  | None => None
  end.

(** *** Networks *)

(** [CIDRMask(ones, bits)]: [ones] one bits, then zeros, in [bits/8]
    bytes; nil for other sizes.  [^byte(0xff >> n)] is [255 - 255/2^n]. *)
Fixpoint CIDRMask_fill (l : nat) (n : N) : IPMask :=
  match l with
  | O => []
  | S l' =>
      if (8 <=? n)%N then xff :: CIDRMask_fill l' (n - 8)%N
      else byte_of (255 - N.shiftr 255 n) :: CIDRMask_fill l' 0%N
  end.

Definition CIDRMask (ones bits : N) : option IPMask :=
  if negb (bits =? 32)%N && negb (bits =? 128)%N then None
  else if (bits <? ones)%N then None
  else Some (CIDRMask_fill (N.to_nat (bits / 8)) ones).

(** [ip.Mask(mask)] *)
Definition IP_Mask (ip : IP) (mask : IPMask) : option IP :=
  let mask :=
    if Nat.eqb (length mask) IPv6len && Nat.eqb (length ip) IPv4len && allFF (take 12 mask)
    then drop 12 mask else mask in
  let ip :=
    if Nat.eqb (length mask) IPv4len && Nat.eqb (length ip) IPv6len
       && bool_decide (take 12 ip = v4InV6Prefix)
    then drop 12 ip else ip in
  if negb (Nat.eqb (length ip) (length mask)) then None
  else Some (zip_with band ip mask).

(** [networkNumberAndMask]; [None] is the pair of nils. *)
Definition networkNumberAndMask (n : IPNet) : option (IP * IPMask) :=
  let ip := if To4 (IPNet_IP n) is Some p then Some p
            else if Nat.eqb (length (IPNet_IP n)) IPv6len then Some (IPNet_IP n) else None in
  match ip with
  | None => None
  | Some ip =>
      let m := IPNet_Mask n in
      if Nat.eqb (length m) IPv4len then
        if negb (Nat.eqb (length ip) IPv4len) then None else Some (ip, m)
      else if Nat.eqb (length m) IPv6len then
        if Nat.eqb (length ip) IPv4len then Some (ip, drop 12 m) else Some (ip, m)
      else None
  end.

(** [n.Contains(ip)] for a non-nil [n].  After a failed
    [networkNumberAndMask] the network number has length 0; after a
    successful one the mask is as long as the network number. *)
Definition Contains (n : IPNet) (ip : IP) : bool :=
  let '(nn, m) := default ([], []) (networkNumberAndMask n) in
  let ip := if To4 ip is Some x then x else ip in
  if negb (Nat.eqb (length ip) (length nn)) then false
  else forallb (fun '(a, b, k) => Byte.eqb (band a k) (band b k)) (zip (zip nn ip) m).

(** [simpleMaskLength]: the number of leading ones when the mask is
    ones followed by zeros; [None] is -1. *)
Fixpoint leading_ones (fuel : nat) (v : N) : nat * N :=
  match fuel with
  | O => (0%nat, v)
  | S fuel' =>
      if negb (N.land v 128 =? 0)%N then
        let '(k, v') := leading_ones fuel' (N.shiftl v 1 mod 256)%N in (S k, v')
      else (0%nat, v)
  end.

Fixpoint simpleMaskLength (mask : IPMask) : option nat :=
  match mask with
  | [] => Some 0%nat
  | v :: mask' =>
      if Byte.eqb v xff then (fun n => 8 + n)%nat <$> simpleMaskLength mask'
      else
        let '(k, rest) := leading_ones 8 (Byte.to_N v) in
        if negb (rest =? 0)%N then None
        else if isZeros mask' then Some k else None
  end.

(** [n.String()] for a possibly nil [n]. *)
Definition IPNet_String (n : option IPNet) : string :=
  match n with
  | None => "<nil>"
  | Some n =>
      match networkNumberAndMask n with
      | None => "<nil>"
      | Some (nn, m) =>
          match simpleMaskLength m with
          | None => IP_String nn +:+ "/" +:+ IPMask_String m
          | Some l => IP_String nn +:+ "/" +:+ uitoa (N.of_nat l)
          end
      end
  end.

(** [s] split at its first ['/']. *)
Fixpoint cutSlash (s : string) : option (string * string) :=
  match s with
  | EmptyString => None
  | String c s' =>
      if Ascii.eqb c "/" then Some ("", s')
      else '(a, m) ← cutSlash s'; Some (String c a, m)
  end.

(** [net.ParseCIDR]: the address, the network, or an error. *)
Definition ParseCIDR (s : string) : (IP * IPNet) + ParseError :=
  let fail := inr {| Type_ := "CIDR address"; Text := s |} in
  match cutSlash s with
  | None => fail
  | Some (addr, mask) =>
      match ParseAddr addr with
      | None => fail
      | Some ipAddr =>
          if negb (String.eqb (Zone ipAddr) "") then fail
          else
            let '(n, i, ok) := dtoi mask in
            if negb ok || negb (Nat.eqb i (String.length mask)) || (BitLen ipAddr <? n)%N
            then fail
            else
              let m := default [] (CIDRMask n (BitLen ipAddr)) in
              let addr16 := As16 ipAddr in
              inl (addr16, {| IPNet_IP := default [] (IP_Mask addr16 m); IPNet_Mask := m |})
      end
  end.

End net.

(** ** Running Go code

    A method is a function of the receiver's state.  It returns or
    panics, leaves a state, and leaves the trace of what it did to the
    receiver's mutex and entry collection. *)

Inductive event :=
| EvLock      (* lock.Lock() *)
| EvUnlock    (* lock.Unlock() *)
| EvRead      (* the entry collection is read *)
| EvWrite.    (* the entry collection is written *)

Inductive panic :=
| NilDereference
| IndexOutOfRange
| SliceBoundsOutOfRange
| NilMapAssignment.

Inductive outcome (A : Type) :=
| Returns (a : A)
| Panics (p : panic).
Arguments Returns {A} a.
Arguments Panics {A} p.

#[global] Instance event_eq_dec : EqDecision event.
Proof. solve_decision. Defined.
#[global] Instance panic_eq_dec : EqDecision panic.
Proof. solve_decision. Defined.

(** A run from a state: how it ends, the state it leaves and its
    trace. *)
Definition Go (S A : Type) : Type := S -> outcome A * S * list event.

(** Sequencing: a panic ends the run. *)

#[global] Instance Go_ret {S} : MRet (Go S) := fun A a s => (Returns a, s, []).
#[global] Instance Go_bind {S} : MBind (Go S) := fun A B f m s =>
  match m s with
  | (Returns a, s', tr) => let '(r, s'', tr') := f a s' in (r, s'', tr ++ tr')
  | (Panics p, s', tr) => (Panics p, s', tr)
  end.

(** The steps of a run: an event, a panic, the state read and written,
    a computation without effect. *)
Definition emit {S} (e : event) : Go S unit := fun s => (Returns tt, s, [e]).
Definition throw {S A} (p : panic) : Go S A := fun s => (Panics p, s, []).
Definition get {S} : Go S S := fun s => (Returns s, s, []).
Definition put {S} (s : S) : Go S unit := fun _ => (Returns tt, s, []).
Definition lift {S A} (r : outcome A) : Go S A := fun s => (r, s, []).

(** [defer d; body]: [d] runs when [body] returns and when it panics. *)
Definition defer {S A} (d : Go S unit) (body : Go S A) : Go S A := fun s =>
  match body s with
  | (r, s', tr) =>
      match d s' with
      | (Returns _, s'', tr') => (r, s'', tr ++ tr')
      | (Panics p, s'', tr') => (Panics p, s'', tr ++ tr')
      end
  end.

(** The three parts of what a run yields. *)
Definition result {S A} (x : outcome A * S * list event) : outcome A := x.1.1.
Definition state {S A} (x : outcome A * S * list event) : S := x.1.2.
Definition trace {S A} (x : outcome A * S * list event) : list event := x.2.

(** The collection is only touched while the lock is held, and the lock
    is free at the end. *)
Fixpoint disciplined_from (held : bool) (tr : list event) : bool :=
  match tr with
  | [] => negb held
  | EvLock :: tr' => negb held && disciplined_from true tr'
  | EvUnlock :: tr' => held && disciplined_from false tr'
  | (EvRead | EvWrite) :: tr' => held && disciplined_from held tr'
  end.

Definition disciplined (tr : list event) : bool := disciplined_from false tr.

(** [*sync.Mutex]: the mutex a non-nil pointer refers to. *)
Inductive Mutex := mutex.

(** [error] values of the package. *)
Inductive error :=
| errorString (s : string)            (* errors.New(s) *)
| errParse (e : net.ParseError).

(** The byte of the double quote. *)
Definition quote : byte := x22.

(** The string of one double quote. *)
Definition dquote : string := String (chr 34) EmptyString.

(** ** allowlist.go *)

(** [validIP]: a length check. *)
Definition validIP (ip : net.IP) : bool :=
  if Nat.eqb (length ip) 4 then true
  else if Nat.eqb (length ip) 16 then true
  else false.

(** The order in which [range] visits the keys of a map is chosen by the
    runtime.  A run is given that choice as a function [shuffle] that
    reorders the keys; it is a [range_order] when it only reorders. *)
Definition range_order (shuffle : list string -> list string) : Prop :=
  ∀ l, shuffle l ≡ₚ l.

Module Basic.

(** [type Basic struct]: a nil [lock] or a nil [allowlist] is [None]. *)
Record t := { lock : option Mutex; allowlist : option (gmap string bool) }.

(** [wl.lock.Lock()] and [wl.lock.Unlock()]: a nil lock is
    dereferenced. *)
Definition Lock : Go t unit :=
  wl ← get; if lock wl is Some _ then emit EvLock else throw NilDereference.
Definition Unlock : Go t unit :=
  wl ← get; if lock wl is Some _ then emit EvUnlock else throw NilDereference.

(** [wl.allowlist[k]]: false for an absent key and for a nil map. *)
Definition index (k : string) : Go t bool :=
  emit EvRead;; wl ← get; mret (default false (default ∅ (allowlist wl) !! k)).

(** [wl.allowlist[k] = v]: a nil map panics. *)
Definition assign (k : string) (v : bool) : Go t unit :=
  emit EvWrite;; wl ← get;
  match allowlist wl with
  | Some m => put {| lock := lock wl; allowlist := Some (<[k := v]> m) |}
  | None => throw NilMapAssignment
  end.

(** [delete(wl.allowlist, k)]: nothing for a nil map. *)
Definition delete_key (k : string) : Go t unit :=
  emit EvWrite;; wl ← get;
  put {| lock := lock wl; allowlist := delete k <$> allowlist wl |}.

(** [wl.allowlist = m] *)
Definition set_allowlist (m : option (gmap string bool)) : Go t unit :=
  emit EvWrite;; wl ← get; put {| lock := lock wl; allowlist := m |}.

(** [for ip := range wl.allowlist { ss = append(ss, ip) }] *)
Definition range_keys (shuffle : list string -> list string) : Go t (list string) :=
  emit EvRead;; wl ← get; mret (shuffle (map_to_list (default ∅ (allowlist wl))).*1).

Definition Permitted (ip : net.IP) : Go t bool :=
  if negb (validIP ip) then mret false
  else
    Lock;;
    permitted ← index (net.IP_String ip);
    Unlock;;
    mret permitted.

Definition Add (ip : net.IP) : Go t unit :=
  if negb (validIP ip) then mret tt
  else Lock;; defer Unlock (assign (net.IP_String ip) true).

Definition Remove (ip : net.IP) : Go t unit :=
  if negb (validIP ip) then mret tt
  else Lock;; defer Unlock (delete_key (net.IP_String ip)).

Definition MarshalJSON (shuffle : list string -> list string)
    : Go t (list byte * option error) :=
  Lock;;
  defer Unlock (
    ss ← range_keys shuffle;
    mret (bytes_of_string (dquote +:+ GoStrings.Join ss "," +:+ dquote), None)).

Fixpoint UnmarshalJSON_loop (nets : list string) : Go t (option error) :=
  match nets with
  | [] => mret None
  | n :: nets' =>
      let addr := GoStrings.TrimSpace n in
      if String.eqb addr "" then UnmarshalJSON_loop nets'
      else
        match net.ParseIP addr with
        | None =>
            set_allowlist None;;
            mret (Some (errorString ("allowlist: invalid IP address " +:+ addr)))
        | Some _ => assign addr true;; UnmarshalJSON_loop nets'
        end
  end.

Definition UnmarshalJSON (input : list byte) : Go t (option error) :=
  match input with
  | [] => throw IndexOutOfRange
  | first :: _ =>
      if negb (Byte.eqb first quote) || negb (Byte.eqb (List.last input x00) quote)
      then mret (Some (errorString "allowlist: invalid allowlist"))
      else
        wl ← get;
        (if lock wl is None then put {| lock := Some mutex; allowlist := allowlist wl |}
         else mret tt);;
        Lock;;
        defer Unlock (
          if (length input - 1 <? 1)%nat then throw SliceBoundsOutOfRange
          else
            let netString :=
              GoStrings.TrimSpace
                (string_of_bytes (take (length input - 1 - 1) (drop 1 input))) in
            let nets := GoStrings.Split netString "," in
            set_allowlist (Some ∅);;
            UnmarshalJSON_loop nets)
  end.

End Basic.

Definition NewBasic : Basic.t :=
  {| Basic.lock := Some mutex; Basic.allowlist := Some ∅ |}.

Definition DumpBasic (shuffle : list string -> list string) : Go Basic.t (list byte) :=
  Basic.Lock;;
  defer Basic.Unlock (
    addrs ← Basic.range_keys shuffle;
    let addrs := GoSort.Strings addrs in
    let addrList := GoStrings.Join addrs (String (chr 10) "") in
    mret (bytes_of_string addrList)).

Fixpoint LoadBasic_loop (addrs : list string) : Go Basic.t (option error) :=
  match addrs with
  | [] => mret None
  | addr :: addrs' =>
      match net.ParseIP addr with
      | None => mret (Some (errorString "allowlist: invalid address"))
      | Some ip => Basic.Add ip;; LoadBasic_loop addrs'
      end
  end.

(** [LoadBasic]: the new list, or the error (with a nil list). *)
Definition LoadBasic (input : list byte) : outcome (Basic.t + error) * list event :=
  let addrs := GoStrings.Split (string_of_bytes input) (chr 10) in
  match LoadBasic_loop addrs NewBasic with
  | (Returns None, wl, tr) => (Returns (inl wl), tr)
  | (Returns (Some e), _, tr) => (Returns (inr e), tr)
  | (Panics p, _, tr) => (Panics p, tr)
  end.

(** ** allowlist_net.go *)

Module BasicNet.

(** [type BasicNet struct]: [allowlist] is a slice of pointers, a nil
    pointer is [None]; the nil slice is [[]]. *)
Record t := { lock : option Mutex; allowlist : list (option net.IPNet) }.

Definition Lock : Go t unit :=
  wl ← get; if lock wl is Some _ then emit EvLock else throw NilDereference.
Definition Unlock : Go t unit :=
  wl ← get; if lock wl is Some _ then emit EvUnlock else throw NilDereference.

Definition read_allowlist : Go t (list (option net.IPNet)) :=
  emit EvRead;; wl ← get; mret (allowlist wl).

Definition set_allowlist (l : list (option net.IPNet)) : Go t unit :=
  emit EvWrite;; wl ← get; put {| lock := lock wl; allowlist := l |}.

(** [wl.allowlist[i] = n], for an [i] below the length. *)
Definition set_index (i : nat) (n : option net.IPNet) : Go t unit :=
  emit EvWrite;; wl ← get; put {| lock := lock wl; allowlist := <[i := n]> (allowlist wl) |}.

(** The loop of [Permitted]; [Contains] on a nil pointer dereferences
    it. *)
Fixpoint Permitted_loop (l : list (option net.IPNet)) (ip : net.IP) : outcome bool :=
  match l with
  | [] => Returns false
  | None :: _ => Panics NilDereference
  | Some n :: l' => if net.Contains n ip then Returns true else Permitted_loop l' ip
  end.

Definition Permitted (ip : net.IP) : Go t bool :=
  if negb (validIP ip) then mret false
  else
    Lock;;
    defer Unlock (l ← read_allowlist; lift (Permitted_loop l ip)).

Definition Add (n : option net.IPNet) : Go t unit :=
  match n with
  | None => mret tt
  | Some _ =>
      Lock;;
      defer Unlock (l ← read_allowlist; set_allowlist (l ++ [n]))
  end.

(** The loop of [Remove]: the index of the first entry that prints as
    [s]; [None] is -1. *)
Fixpoint Remove_loop (l : list (option net.IPNet)) (s : string) (i : nat) : option nat :=
  match l with
  | [] => None
  | e :: l' =>
      if String.eqb (net.IPNet_String e) s then Some i else Remove_loop l' s (S i)
  end.

Definition Remove (n : option net.IPNet) : Go t unit :=
  match n with
  | None => mret tt
  | Some _ =>
      Lock;;
      defer Unlock (
        l ← read_allowlist;
        match Remove_loop l (net.IPNet_String n) 0 with
        | None => mret tt
        | Some index => set_allowlist (take index l ++ drop (index + 1) l)
        end)
  end.

Definition MarshalJSON : Go t (list byte * option error) :=
  l ← read_allowlist;
  let ss := map net.IPNet_String l in
  mret (bytes_of_string (dquote +:+ GoStrings.Join ss "," +:+ dquote), None).

Fixpoint UnmarshalJSON_loop (nets : list string) (i : nat) : Go t (option error) :=
  match nets with
  | [] => mret None
  | n :: nets' =>
      let addr := GoStrings.TrimSpace n in
      if String.eqb addr "" then UnmarshalJSON_loop nets' (S i)
      else
        match net.ParseCIDR addr with
        | inr e =>
            set_index i None;;
            set_allowlist [];;
            mret (Some (errParse e))
        | inl (_, ipnet) =>
            set_index i (Some ipnet);;
            UnmarshalJSON_loop nets' (S i)
        end
  end.

Definition UnmarshalJSON (input : list byte) : Go t (option error) :=
  match input with
  | [] => throw IndexOutOfRange
  | first :: _ =>
      if negb (Byte.eqb first quote) || negb (Byte.eqb (List.last input x00) quote)
      then mret (Some (errorString "allowlist: invalid allowlist"))
      else
        wl ← get;
        (if lock wl is None then put {| lock := Some mutex; allowlist := allowlist wl |}
         else mret tt);;
        Lock;;
        defer Unlock (
          if (length input - 1 <? 1)%nat then throw SliceBoundsOutOfRange
          else
            let netString :=
              GoStrings.TrimSpace
                (string_of_bytes (take (length input - 1 - 1) (drop 1 input))) in
            let nets := GoStrings.Split netString "," in
            set_allowlist (replicate (length nets) None);;
            UnmarshalJSON_loop nets 0)
  end.

End BasicNet.

Definition NewBasicNet : BasicNet.t :=
  {| BasicNet.lock := Some mutex; BasicNet.allowlist := [] |}.

(** ** lookup.go and http.go

    [net.SplitHostPort] and the delegates are not the package's: the
    first is a parameter, the second are values of a type [handler] whose
    invocation is recorded. *)

(** The [ACL] interface: a value with a [Permitted] method.  A call of
    the method returns a bool or panics, as the methods of the lists
    do. *)
Record ACL := { Permitted : net.IP -> outcome bool }.

(** [*http.Request], as far as the package reads it. *)
Record Request := { RemoteAddr : string }.

(** The field of the wrapper a delegate is called through. *)
Inductive delegate := permitted | denied.

Definition StatusInternalServerError : Z := 500.
Definition StatusUnauthorized : Z := 401.

(** What serving a request does; [H] is the type of the delegates.
    [ServeHTTP] yields how it ends and what it did until then: a panic of
    [Permitted] is not recovered, and precedes every response. *)
Inductive action (H : Type) :=
| LogPrintf (e : error)            (* log.Printf("failed to lookup request address: %v", err) *)
| HttpError (status : Z)           (* http.Error(w, http.StatusText(status), status) *)
| Serve (d : delegate) (h : H).    (* the delegate is called with (w, req) *)
Arguments LogPrintf {H} e.
Arguments HttpError {H} status.
Arguments Serve {H} d h.

Section Http.

(** [http.Handler] values, and functions
    [func(http.ResponseWriter, *http.Request)]. *)
Context {handler func : Type}.
Variable SplitHostPort : string -> (string * string) + error.

(** [HTTPRequestLookup]: the address, nil when [ParseIP] fails, or an
    error. *)
Definition HTTPRequestLookup (req : option Request) : net.IP + error :=
  match req with
  | None => inr (errorString "allowlist: no request")
  | Some req =>
      match SplitHostPort (RemoteAddr req) with
      | inr err => inr err
      | inl (addr, _) => inl (default [] (net.ParseIP addr))
      end
  end.

(** [type Handler struct], as [NewHandler] makes it. *)
Record Handler := {
  allowHandler : handler;
  denyHandler : option handler;
  Handler_allowlist : ACL
}.

Definition NewHandler (allow deny : option handler) (acl : option ACL) : Handler + error :=
  match allow with
  | None => inr (errorString "allowlist: allow cannot be nil")
  | Some a =>
      match acl with
      | None => inr (errorString "allowlist: ACL cannot be nil")
      | Some l => inl {| allowHandler := a; denyHandler := deny; Handler_allowlist := l |}
      end
  end.

Definition Handler_ServeHTTP (h : Handler) (req : option Request)
    : outcome unit * list (action handler) :=
  match HTTPRequestLookup req with
  | inr err => (Returns tt, [LogPrintf err; HttpError StatusInternalServerError])
  | inl ip =>
      match Permitted (Handler_allowlist h) ip with
      | Panics p => (Panics p, [])
      | Returns true => (Returns tt, [Serve permitted (allowHandler h)])
      | Returns false =>
          match denyHandler h with
          | None => (Returns tt, [HttpError StatusUnauthorized])
          | Some d => (Returns tt, [Serve denied d])
          end
      end
  end.

(** [type HandlerFunc struct], as [NewHandlerFunc] makes it. *)
Record HandlerFunc := {
  allow : func;
  deny : option func;
  HandlerFunc_allowlist : ACL
}.

Definition NewHandlerFunc (allow deny : option func) (acl : option ACL)
    : HandlerFunc + error :=
  match allow with
  | None => inr (errorString "allowlist: allow cannot be nil")
  | Some a =>
      match acl with
      | None => inr (errorString "allowlist: ACL cannot be nil")
      | Some l => inl {| allow := a; deny := deny; HandlerFunc_allowlist := l |}
      end
  end.

Definition HandlerFunc_ServeHTTP (h : HandlerFunc) (req : option Request)
    : outcome unit * list (action func) :=
  match HTTPRequestLookup req with
  | inr err => (Returns tt, [LogPrintf err; HttpError StatusInternalServerError])
  | inl ip =>
      match Permitted (HandlerFunc_allowlist h) ip with
      | Panics p => (Panics p, [])
      | Returns true => (Returns tt, [Serve permitted (allow h)])
      | Returns false =>
          match deny h with
          | None => (Returns tt, [HttpError StatusUnauthorized])
          | Some d => (Returns tt, [Serve denied d])
          end
      end
  end.

End Http.

(** [NetConnLookup]: a [net.Conn] is read through its remote address
    only, nil or the string [RemoteAddr().String()] gives. *)
Record Conn := { Conn_RemoteAddr : option string }.

Section NetConn.

Variable SplitHostPort : string -> (string * string) + error.

Definition NetConnLookup (conn : option Conn) : net.IP + error :=
  match conn with
  | None => inr (errorString "allowlist: no connection")
  | Some conn =>
      match Conn_RemoteAddr conn with
      | None => inr (errorString "allowlist: no address returned")
      | Some netAddr =>
          match SplitHostPort netAddr with
          | inr err => inr err
          | inl (addr, _) => inl (default [] (net.ParseIP addr))
          end
      end
  end.

End NetConn.

(** ** The stubs

    [HostStub] and [NetStub] hold nothing.  A method of theirs yields the
    messages it gives to [log.Printf] (the verb [%s] prints an address
    or a network with its [String] method) and what it returns. *)
Module HostStub.

Definition Permitted (ip : net.IP) : list string * bool :=
  (["WARNING: allowlist check for " +:+ net.IP_String ip
      +:+ " but allowlisting is stubbed"], true).

Definition Add (ip : net.IP) : list string :=
  ["WARNING: IP " +:+ net.IP_String ip +:+ " added to allowlist but allowlisting is stubbed"].

Definition Remove (ip : net.IP) : list string :=
  ["WARNING: IP " +:+ net.IP_String ip
     +:+ " removed from allowlist but allowlisting is stubbed"].

End HostStub.

(** [NewHostStub] and [NewNetStub]: the message of [log.Println]. *)
Definition NewHostStub : list string := ["WARNING: allowlisting is being stubbed"].

Module NetStub.

Definition Permitted (ip : net.IP) : list string * bool :=
  (["WARNING: allowlist check for " +:+ net.IP_String ip
      +:+ " but allowlisting is stubbed"], true).

Definition Add (n : option net.IPNet) : list string :=
  ["WARNING: IP network " +:+ net.IPNet_String n
     +:+ " added to allowlist but allowlisting is stubbed"].

Definition Remove (n : option net.IPNet) : list string :=
  ["WARNING: IP network " +:+ net.IPNet_String n
     +:+ " removed from allowlist but allowlisting is stubbed"].

End NetStub.

Definition NewNetStub : list string := ["WARNING: allowlisting is being stubbed"].

(** ** example/example_allowlist.go

    The handlers of the example server work on the package variable
    [wl], a host list; [addr] is [r.FormValue("ip")].  A handler yields
    what it logs and what it writes to the response. *)
Inductive output :=
| Printf (msg : string)        (* log.Printf *)
| Write (body : string).       (* w.Write([]byte(body)) *)

Definition newline : string := String (chr 10) EmptyString.

Definition addIP (addr : string) : Go Basic.t (list output) :=
  let ip := default [] (net.ParseIP addr) in
  Basic.Add ip;;
  mret [Printf ("request to add " +:+ addr +:+ " to the allowlist");
        Write ("Added " +:+ addr +:+ " to allowlist." +:+ newline)].

Definition delIP (addr : string) : Go Basic.t (list output) :=
  let ip := default [] (net.ParseIP addr) in
  Basic.Remove ip;;
  mret [Printf ("request to remove " +:+ addr +:+ " from the allowlist");
        Write ("Removed " +:+ net.IP_String ip +:+ " from allowlist." +:+ newline)].

(** * Vocabulary of the properties *)

(** ** Addresses and networks of the examples *)

Definition ip_127_0_0_1 : net.IP := [x7f; x00; x00; x01].

Definition ip_10_1_2_3 : net.IP := [x0a; x01; x02; x03].

Definition ip_8_8_8_8 : net.IP := [x08; x08; x08; x08].

Definition net_10_0_0_0_8 : net.IPNet :=
  {| net.IPNet_IP := [x0a; x00; x00; x00]; net.IPNet_Mask := [xff; x00; x00; x00] |}.

Definition net_10_1_0_0_16 : net.IPNet :=
  {| net.IPNet_IP := [x0a; x01; x00; x00]; net.IPNet_Mask := [xff; xff; x00; x00] |}.

(** ** States of the lists *)

(** A host list that can be used: its lock and its map are there, as
    after [NewBasic], [LoadBasic] or an [UnmarshalJSON] that succeeded. *)
Definition usable (wl : Basic.t) : Prop :=
  Basic.lock wl ≠ None ∧ Basic.allowlist wl ≠ None.

(** [Add] called for each address of a sequence. *)
Fixpoint Adds (l : list net.IP) : Go Basic.t unit :=
  match l with
  | [] => mret tt
  | a :: l' => Basic.Add a;; Adds l'
  end.

(** The maps [Add] makes: every key is the canonical string of a valid
    address and stands for [true]. *)
Definition canonical (m : gmap string bool) : Prop :=
  ∀ k v, m !! k = Some v → v = true ∧ ∃ ip, validIP ip = true ∧ k = net.IP_String ip.

(** The map after the keys [ks] are set to [true] one by one. *)
Definition set_all (m : gmap string bool) (ks : list string) : gmap string bool :=
  foldl (λ m k, <[k := true]> m) m ks.

(** The keys of a map, in the order [map_to_list] has them. *)
Definition keys (m : gmap string bool) : list string := (map_to_list m).*1.

(** [prints_as s e]: the entry [e] has the canonical form [s]. *)
Definition prints_as (s : string) (e : option net.IPNet) : bool :=
  String.eqb (net.IPNet_String e) s.

(** The number of entries that print as [s]. *)
Definition occurrences (s : string) (l : list (option net.IPNet)) : nat :=
  length (filter (λ e, prints_as s e = true) l).

(** The events that touch the entry collection. *)
Definition access (e : event) : Prop := e = EvRead ∨ e = EvWrite.

(** ** Inputs of [UnmarshalJSON] *)

(** [input] starts and ends with a quote (one quote alone does both). *)
Definition quoted (input : list byte) : bool :=
  match input with
  | [] => false
  | first :: _ => Byte.eqb first quote && Byte.eqb (List.last input x00) quote
  end.

(** The text between the quotes, [in[1 : len(in)-1]]. *)
Definition between_quotes (input : list byte) : string :=
  string_of_bytes (take (length input - 1 - 1) (drop 1 input)).

(** The tokens [UnmarshalJSON] loops over. *)
Definition tokens (input : list byte) : list string :=
  GoStrings.Split (GoStrings.TrimSpace (between_quotes input)) ",".

(** The compact form of the empty list: an opening and a closing quote. *)
Definition empty_compact : list byte := [quote; quote].

(** ** Requests *)

(** The four ways a request is answered: an error response or a
    delegate. *)
Definition ends {H} (a : action H) : bool :=
  match a with
  | LogPrintf _ => false
  | HttpError _ | Serve _ _ => true
  end.

(** How many answers serving a request gave. *)
Definition answers {H} (x : outcome unit * list (action H)) : nat :=
  length (filter (λ a, ends a = true) x.2).

(** A lookup for the examples: the address is what precedes the last
    colon; without a colon the lookup fails, as [net.SplitHostPort] does. *)
Fixpoint cut_last_colon (s : string) : option (string * string) :=
  match s with
  | EmptyString => None
  | String c s' =>
      match cut_last_colon s' with
      | Some (host, port) => Some (String c host, port)
      | None => if Ascii.eqb c ":" then Some ("", s') else None
      end
  end.

(** The lookup of the examples, in the place of [net.SplitHostPort]. *)
Definition split_host_port (s : string) : (string * string) + error :=
  match cut_last_colon s with
  | Some hp => inl hp
  | None => inr (errorString "missing port in address")
  end.

(** An ACL for the examples: only 127.0.0.1 is permitted. *)
Definition only_localhost : ACL :=
  {| Permitted := λ ip, Returns (bool_decide (net.IP_String ip = "127.0.0.1")) |}.

(** ** Printed addresses *)

(** [ip.To16()] of a valid address. *)
Definition To16 (ip : net.IP) : net.IP :=
  if Nat.eqb (length ip) 4 then net.v4InV6Prefix ++ ip else ip.

(** The two bytes of a group. *)
Definition hi (g : N) : byte := net.byte_of (g / 256).

Definition lo (g : N) : byte := net.byte_of g.

(** Every character of [s] satisfies [P]. *)
Fixpoint all_chars (P : ascii → bool) (s : string) : bool :=
  match s with
  | EmptyString => true
  | String c s' => P c && all_chars P s'
  end.

(** The characters of a printed group: digits and [a] to [f]. *)
Definition lowerhex (c : ascii) : bool :=
  ((48 <=? ord c) && (ord c <=? 57) || (97 <=? ord c) && (ord c <=? 102))%N.

(** The characters of a printed address. *)
Definition addr_char (c : ascii) : bool :=
  lowerhex c || Ascii.eqb c ":" || Ascii.eqb c ".".

(** What the parser has to find in a printed group. *)
Definition hex_ok (g : N) : bool :=
  match net.hexGroup (net.appendHex g) 0 0 with
  | Some (acc, off, rest) =>
      (acc =? g)%N && (off =? String.length (net.appendHex g))%nat && String.eqb rest ""
  | None => false
  end
  && all_chars lowerhex (net.appendHex g)
  && negb (String.eqb (net.appendHex g) "").

(** The [n] numbers from [start] on. *)
Fixpoint N_range (n : nat) (start : N) : list N :=
  match n with
  | O => []
  | S n' => start :: N_range n' (N.succ start)
  end.

(** [s] does not start with white space: it is empty or starts with a
    character of an address. *)
Definition head_ok (s : string) : bool :=
  match s with EmptyString => true | String c _ => addr_char c end.

(** A token: not empty, made of the characters of an address. *)
Definition token (k : string) : Prop := k ≠ "" ∧ all_chars addr_char k = true.

(** [s] has no [sep] in it. *)
Definition lacks (sep : ascii) (s : string) : bool :=
  all_chars (λ c, negb (Ascii.eqb c sep)) s.

(** A token that parses to a valid address that prints as the token. *)
Definition parses_back (k : string) : Prop :=
  token k ∧ ∃ ip, net.ParseIP k = Some ip ∧ validIP ip = true ∧ net.IP_String ip = k.

(** ** Loaded and parsed lists *)

(** The entries [UnmarshalJSON] keeps of its tokens: trimmed, the empty
    ones left out. *)
Definition kept (nets : list string) : list string :=
  filter (λ addr, addr ≠ "") (GoStrings.TrimSpace <$> nets).

(** The first of the strings [ks] that [ParseIP] refuses. *)
Definition first_refused (ks : list string) : option string :=
  List.find (λ k, if net.ParseIP k is None then true else false) ks.

(** The key [Add] gives the address a string parses to. *)
Definition key_of (k : string) : string :=
  net.IP_String (default [] (net.ParseIP k)).

(** ** Calls on a network list *)

(** A call of [Add] or [Remove], with its argument. *)
Inductive net_op :=
| OpAdd (n : option net.IPNet)
| OpRemove (n : option net.IPNet).

Definition run_op (op : net_op) : Go BasicNet.t unit :=
  match op with
  | OpAdd n => BasicNet.Add n
  | OpRemove n => BasicNet.Remove n
  end.

Fixpoint run_ops (ops : list net_op) : Go BasicNet.t unit :=
  match ops with
  | [] => mret tt
  | op :: ops' => run_op op;; run_ops ops'
  end.

(** Some network of [ns] contains [ip]. *)
Definition contained (ns : list net.IPNet) (ip : net.IP) : bool :=
  existsb (λ n, net.Contains n ip) ns.

(** The entry [BasicNet.UnmarshalJSON] stores for a token: nil for a
    blank token, the network [ParseCIDR] makes of the trimmed token
    otherwise. *)
Definition net_entry (tok : string) : option net.IPNet :=
  let addr := GoStrings.TrimSpace tok in
  if String.eqb addr "" then None
  else match net.ParseCIDR addr with
       | inl (_, ipnet) => Some ipnet
       | inr _ => None
       end.

(** The error of the first token [ParseCIDR] refuses, blank tokens
    apart. *)
Fixpoint first_cidr_error (toks : list string) : option net.ParseError :=
  match toks with
  | [] => None
  | tok :: toks' =>
      let addr := GoStrings.TrimSpace tok in
      if String.eqb addr "" then first_cidr_error toks'
      else match net.ParseCIDR addr with
           | inl _ => first_cidr_error toks'
           | inr e => Some e
           end
  end.

(** ** Lists behind the wrappers *)

(** A host list in the state [wl], as the [ACL] of a wrapper: a call of
    its [Permitted] ends as the method of the list does, with its answer
    or its panic. *)
Definition Basic_ACL (wl : Basic.t) : ACL :=
  {| Permitted ip := result (Basic.Permitted ip wl) |}.

Definition BasicNet_ACL (wl : BasicNet.t) : ACL :=
  {| Permitted ip := result (BasicNet.Permitted ip wl) |}.

Definition HostStub_ACL : ACL := {| Permitted ip := Returns (HostStub.Permitted ip).2 |}.

Definition NetStub_ACL : ACL := {| Permitted ip := Returns (NetStub.Permitted ip).2 |}.

(** What a wrapper does with a request that is not permitted. *)
Definition refusal {H} (deny : option H) : list (action H) :=
  match deny with
  | None => [HttpError StatusUnauthorized]
  | Some d => [Serve denied d]
  end.

(** Some valid address of [l] has the canonical string of [ip]. *)
Definition added (l : list net.IP) (ip : net.IP) : bool :=
  existsb (λ b, validIP b && String.eqb (net.IP_String ip) (net.IP_String b)) l.

(** ** Order of the dump *)

(** The order of Go strings, byte by byte. *)
Definition le_string : relation string := λ a b, String.leb a b = true.

(** ** Networks of a list *)

(** A network [net.ParseCIDR] returns for some string. *)
Definition parsed_network (n : net.IPNet) : Prop :=
  ∃ s ip, net.ParseCIDR s = inl (ip, n).

(** The network [ParseCIDR] makes of the address bytes [b] and the
    prefix length [k]. *)
Definition masked (b : list byte) (k : N) : net.IPNet :=
  {| net.IPNet_IP := zip_with net.band b (net.CIDRMask_fill (length b) k);
     net.IPNet_Mask := net.CIDRMask_fill (length b) k |}.

(** A string that starts and ends with a character of an address. *)
Definition framed (k : string) : Prop :=
  k ≠ "" ∧ head_ok k = true ∧ head_ok (String.rev k) = true.

(** The characters of a printed network. *)
Definition net_char (c : ascii) : bool := addr_char c || Ascii.eqb c "/".

(** Checks over all bytes and all prefix lengths. *)
Definition band_ok (x y : N) : bool :=
  let a := net.byte_of x in
  let k := net.byte_of y in
  Byte.eqb (net.band (net.band a k) k) (net.band a k)
  && implb (Byte.eqb (net.band a k) xff) (Byte.eqb k xff).

Definition mask_ok (l : nat) (k : N) : bool :=
  match net.simpleMaskLength (net.CIDRMask_fill l k) with
  | Some n => (N.of_nat n =? k)%N
  | None => false
  end.

Definition dtoi_ok (k : N) : bool :=
  match net.dtoi (net.uitoa k) with
  | (n, i, ok) => (n =? k)%N && (i =? String.length (net.uitoa k))%nat && ok
  end
  && all_chars lowerhex (net.uitoa k)
  && negb (String.eqb (net.uitoa k) "").

Definition mapped_ok (k : N) : bool :=
  if (96 <=? k)%N
  then bool_decide (drop 12 (net.CIDRMask_fill 16 k) = net.CIDRMask_fill 4 (k - 96))
       && net.allFF (take 12 (net.CIDRMask_fill 16 k))
  else negb (Byte.eqb (nth 11 (net.CIDRMask_fill 16 k) x00) xff).

(** * Properties *)

Create HintDb go discriminated.

#[global] Hint Unfold Go_bind Go_ret emit throw get put lift defer result state trace : go.
#[global] Hint Unfold Basic.Lock Basic.Unlock Basic.index Basic.assign Basic.delete_key
  Basic.set_allowlist Basic.range_keys : go.
#[global] Hint Unfold BasicNet.Lock BasicNet.Unlock BasicNet.read_allowlist
  BasicNet.set_allowlist BasicNet.set_index : go.

(** The library functions stay folded under [simpl]. *)
Arguments net.IP_String : simpl never.
Arguments net.IPNet_String : simpl never.
Arguments net.ParseIP : simpl never.
Arguments net.ParseCIDR : simpl never.
Arguments net.Contains : simpl never.
Arguments GoStrings.TrimSpace : simpl never.
Arguments GoStrings.Split : simpl never.
Arguments GoStrings.Join : simpl never.
Arguments GoSort.Strings : simpl never.

(** Unfolds the monad down to the triple a run yields. *)
Ltac run := unfold mbind, mret; autounfold with go; simpl.

Lemma Basic_Permitted_invalid a wl :
  validIP a = false → Basic.Permitted a wl = (Returns false, wl, []).
Proof. intros H. unfold Basic.Permitted. now rewrite H. Qed.

Lemma Basic_Add_invalid a wl :
  validIP a = false → Basic.Add a wl = (Returns tt, wl, []).
Proof. intros H. unfold Basic.Add. now rewrite H. Qed.

Lemma Basic_Remove_invalid a wl :
  validIP a = false → Basic.Remove a wl = (Returns tt, wl, []).
Proof. intros H. unfold Basic.Remove. now rewrite H. Qed.

Lemma BasicNet_Permitted_invalid a wl :
  validIP a = false → BasicNet.Permitted a wl = (Returns false, wl, []).
Proof. intros H. unfold BasicNet.Permitted. now rewrite H. Qed.

(** What the methods of a host list do to a list with a lock. *)
Lemma Basic_Permitted_run a l m :
  validIP a = true →
  Basic.Permitted a {| Basic.lock := Some l; Basic.allowlist := m |}
  = (Returns (default false (default ∅ m !! net.IP_String a)),
     {| Basic.lock := Some l; Basic.allowlist := m |}, [EvLock; EvRead; EvUnlock]).
Proof. intros H. unfold Basic.Permitted. rewrite H. reflexivity. Qed.

Lemma Basic_Add_run a l m :
  validIP a = true →
  Basic.Add a {| Basic.lock := Some l; Basic.allowlist := Some m |}
  = (Returns tt, {| Basic.lock := Some l; Basic.allowlist := Some (<[net.IP_String a := true]> m) |},
     [EvLock; EvWrite; EvUnlock]).
Proof. intros H. unfold Basic.Add. rewrite H. reflexivity. Qed.

Lemma Basic_Add_nil_map a l :
  validIP a = true →
  Basic.Add a {| Basic.lock := Some l; Basic.allowlist := None |}
  = (Panics NilMapAssignment, {| Basic.lock := Some l; Basic.allowlist := None |},
     [EvLock; EvWrite; EvUnlock]).
Proof. intros H. unfold Basic.Add. rewrite H. reflexivity. Qed.

Lemma Basic_Remove_run a l m :
  validIP a = true →
  Basic.Remove a {| Basic.lock := Some l; Basic.allowlist := m |}
  = (Returns tt, {| Basic.lock := Some l; Basic.allowlist := delete (net.IP_String a) <$> m |},
     [EvLock; EvWrite; EvUnlock]).
Proof. intros H. unfold Basic.Remove. rewrite H. reflexivity. Qed.

Lemma Basic_no_lock a m :
  validIP a = true →
  let wl := {| Basic.lock := None; Basic.allowlist := m |} in
  Basic.Permitted a wl = (Panics NilDereference, wl, [])
  ∧ Basic.Add a wl = (Panics NilDereference, wl, [])
  ∧ Basic.Remove a wl = (Panics NilDereference, wl, []).
Proof.
  intros H wl. unfold Basic.Permitted, Basic.Add, Basic.Remove. rewrite H. done.
Qed.

(** The first step of a sequence decides where the second starts. *)
Lemma bind_run {S A B} (m : Go S A) (f : A → Go S B) s a s' tr :
  m s = (Returns a, s', tr) →
  (m ≫= f) s = (result (f a s'), state (f a s'), tr ++ trace (f a s')).
Proof.
  intros H. unfold mbind, Go_bind, result, state, trace. rewrite H.
  now destruct (f a s') as [[? ?] ?].
Qed.

Lemma bind_panics {S A B} (m : Go S A) (f : A → Go S B) s p s' tr :
  m s = (Panics p, s', tr) → (m ≫= f) s = (Panics p, s', tr).
Proof. intros H. unfold mbind, Go_bind. now rewrite H. Qed.

(** ** C3: add, test, remove, test *)

(** C3, on every usable list: for a valid address [a], [Add(a)] returns
    and [Permitted(a)] then returns true; the [Remove(a)] that follows
    returns and [Permitted(a)] then returns false. *)
Theorem C3_add_permitted_remove (wl : Basic.t) (a : net.IP) :
  validIP a = true → usable wl →
  ∃ wl1 wl2 : Basic.t,
    result (Basic.Add a wl) = Returns tt ∧ state (Basic.Add a wl) = wl1
    ∧ result (Basic.Permitted a wl1) = Returns true
    ∧ state (Basic.Permitted a wl1) = wl1
    ∧ result (Basic.Remove a wl1) = Returns tt ∧ state (Basic.Remove a wl1) = wl2
    ∧ result (Basic.Permitted a wl2) = Returns false.
Proof.
  intros Ha [Hl Hm]. destruct wl as [[l|] [m|]]; try done.
  set (k := net.IP_String a).
  exists {| Basic.lock := Some l; Basic.allowlist := Some (<[k := true]> m) |},
    {| Basic.lock := Some l; Basic.allowlist := Some (delete k (<[k := true]> m)) |}.
  rewrite Basic_Add_run, !Basic_Permitted_run, Basic_Remove_run by done.
  unfold result, state; simpl. fold k.
  rewrite lookup_insert_eq, lookup_delete_eq. done.
Qed.

Lemma C3_add_permitted_remove_witness :
  ∃ wl1 wl2 : Basic.t,
    result (Basic.Add ip_127_0_0_1 NewBasic) = Returns tt
    ∧ state (Basic.Add ip_127_0_0_1 NewBasic) = wl1
    ∧ result (Basic.Permitted ip_127_0_0_1 wl1) = Returns true
    ∧ state (Basic.Permitted ip_127_0_0_1 wl1) = wl1
    ∧ result (Basic.Remove ip_127_0_0_1 wl1) = Returns tt
    ∧ state (Basic.Remove ip_127_0_0_1 wl1) = wl2
    ∧ result (Basic.Permitted ip_127_0_0_1 wl2) = Returns false.
Proof.
  apply (C3_add_permitted_remove NewBasic ip_127_0_0_1).
  - reflexivity.
  - split; discriminate.
Defined.

(** C3 fails on the list a failed [UnmarshalJSON] leaves: its map is nil
    and [Add] of a valid address panics. *)
Lemma C3_counterexample :
  let wl := state (Basic.UnmarshalJSON (quote :: bytes_of_string "x" ++ [quote]) NewBasic) in
  validIP ip_127_0_0_1 = true
  ∧ wl = {| Basic.lock := Some mutex; Basic.allowlist := None |}
  ∧ result (Basic.Add ip_127_0_0_1 wl) = Panics NilMapAssignment
  ∧ result ((Basic.Add ip_127_0_0_1;; Basic.Permitted ip_127_0_0_1) wl) ≠ Returns true.
Proof. vm_compute. repeat split; discriminate. Qed.

(** ** Addresses of invalid length *)

(** A network whose address has an invalid length has no network number,
    prints as nil and contains no valid address. *)
Lemma malformed_networkNumberAndMask (n : net.IPNet) :
  validIP (net.IPNet_IP n) = false → net.networkNumberAndMask n = None.
Proof.
  unfold validIP, net.networkNumberAndMask, net.To4, net.IPv4len, net.IPv6len.
  destruct (length (net.IPNet_IP n) =? 4)%nat; [done|].
  destruct (length (net.IPNet_IP n) =? 16)%nat; done.
Qed.

Lemma malformed_String (n : net.IPNet) :
  validIP (net.IPNet_IP n) = false → net.IPNet_String (Some n) = "<nil>".
Proof. intros H. unfold net.IPNet_String. by rewrite malformed_networkNumberAndMask. Qed.

Lemma To4_length (ip p : net.IP) : net.To4 ip = Some p → length p = 4%nat.
Proof.
  unfold net.To4, net.IPv4len, net.IPv6len.
  destruct (length ip =? 4)%nat eqn:E4.
  - intros [= <-]. by apply Nat.eqb_eq.
  - destruct (length ip =? 16)%nat eqn:E16; [|done]. apply Nat.eqb_eq in E16.
    destruct (_ && _); [|done]. intros [= <-]. rewrite length_drop. lia.
Qed.

Lemma malformed_Contains (n : net.IPNet) (ip : net.IP) :
  validIP (net.IPNet_IP n) = false → validIP ip = true → net.Contains n ip = false.
Proof.
  intros Hn Hip. unfold net.Contains. rewrite malformed_networkNumberAndMask by done. simpl.
  destruct (net.To4 ip) as [x|] eqn:E.
  - apply To4_length in E. by rewrite E.
  - unfold validIP in Hip.
    destruct (length ip) as [|k]; [done|]. done.
Qed.

Lemma Permitted_loop_app_malformed l n ip :
  validIP (net.IPNet_IP n) = false → validIP ip = true →
  BasicNet.Permitted_loop (l ++ [Some n]) ip = BasicNet.Permitted_loop l ip.
Proof.
  intros Hn Hip. induction l as [|[e|] l IH]; simpl.
  - by rewrite malformed_Contains.
  - by rewrite IH.
  - done.
Qed.

(** What the methods of a network list do to a list with a lock. *)
Lemma BasicNet_Permitted_run ip mu l :
  validIP ip = true →
  BasicNet.Permitted ip {| BasicNet.lock := Some mu; BasicNet.allowlist := l |}
  = (BasicNet.Permitted_loop l ip, {| BasicNet.lock := Some mu; BasicNet.allowlist := l |},
     [EvLock; EvRead; EvUnlock]).
Proof.
  intros H. unfold BasicNet.Permitted. rewrite H. run.
  by destruct (BasicNet.Permitted_loop l ip).
Qed.

Lemma BasicNet_Add_run n mu l :
  BasicNet.Add (Some n) {| BasicNet.lock := Some mu; BasicNet.allowlist := l |}
  = (Returns tt, {| BasicNet.lock := Some mu; BasicNet.allowlist := l ++ [Some n] |},
     [EvLock; EvRead; EvWrite; EvUnlock]).
Proof. reflexivity. Qed.

Lemma BasicNet_Remove_run n mu l :
  BasicNet.Remove (Some n) {| BasicNet.lock := Some mu; BasicNet.allowlist := l |}
  = match BasicNet.Remove_loop l (net.IPNet_String (Some n)) 0 with
    | None => (Returns tt, {| BasicNet.lock := Some mu; BasicNet.allowlist := l |},
               [EvLock; EvRead; EvUnlock])
    | Some i => (Returns tt,
                 {| BasicNet.lock := Some mu; BasicNet.allowlist := take i l ++ drop (i + 1) l |},
                 [EvLock; EvRead; EvWrite; EvUnlock])
    end.
Proof.
  unfold BasicNet.Remove. run.
  by destruct (BasicNet.Remove_loop l (net.IPNet_String (Some n)) 0).
Qed.

Lemma BasicNet_nil_range wl :
  BasicNet.Add None wl = (Returns tt, wl, []) ∧ BasicNet.Remove None wl = (Returns tt, wl, []).
Proof. done. Qed.

(** ** Removal from the network list *)

Lemma Remove_loop_None l s i :
  Forall (λ e, prints_as s e = false) l → BasicNet.Remove_loop l s i = None.
Proof.
  intros H. revert i. induction H as [|e l He _ IH]; intros i; simpl; [done|].
  unfold prints_as in He. rewrite He. apply IH.
Qed.

Lemma Remove_loop_first l1 e l2 s i :
  Forall (λ e, prints_as s e = false) l1 → prints_as s e = true →
  BasicNet.Remove_loop (l1 ++ e :: l2) s i = Some (i + length l1)%nat.
Proof.
  intros H He. revert i. induction H as [|e' l1 He' _ IH]; intros i; simpl.
  - unfold prints_as in He. rewrite He. f_equal. lia.
  - unfold prints_as in He'. rewrite He', IH. f_equal. lia.
Qed.

(** Every list splits at its first entry that prints as [s], if any. *)
Lemma split_at_first s (l : list (option net.IPNet)) :
  Forall (λ e, prints_as s e = false) l
  ∨ ∃ l1 e l2, l = l1 ++ e :: l2
      ∧ Forall (λ e, prints_as s e = false) l1 ∧ prints_as s e = true.
Proof.
  induction l as [|e l IH]; [by left|].
  destruct (prints_as s e) eqn:He.
  - right. exists [], e, l. by repeat split.
  - destruct IH as [IH|(l1 & e' & l2 & -> & H1 & H2)].
    + left. by constructor.
    + right. exists (e :: l1), e', l2. repeat split; [|done]. by constructor.
Qed.

Lemma take_drop_middle_cut {A} (l1 l2 : list A) e :
  take (0 + length l1) (l1 ++ e :: l2) ++ drop (0 + length l1 + 1) (l1 ++ e :: l2) = l1 ++ l2.
Proof.
  simpl. rewrite take_app_length.
  replace (length l1 + 1)%nat with (length l1 + 1 + 0)%nat by lia.
  rewrite <- Nat.add_assoc, drop_app_add. done.
Qed.

(** [Remove] of a range from a list with a lock: nothing when no entry
    prints as the range does, otherwise the first such entry goes. *)
Lemma BasicNet_Remove_none n mu l :
  Forall (λ e, prints_as (net.IPNet_String (Some n)) e = false) l →
  BasicNet.Remove (Some n) {| BasicNet.lock := Some mu; BasicNet.allowlist := l |}
  = (Returns tt, {| BasicNet.lock := Some mu; BasicNet.allowlist := l |},
     [EvLock; EvRead; EvUnlock]).
Proof. intros H. rewrite BasicNet_Remove_run. by rewrite Remove_loop_None. Qed.

Lemma BasicNet_Remove_first n mu l1 e l2 :
  Forall (λ e, prints_as (net.IPNet_String (Some n)) e = false) l1 →
  prints_as (net.IPNet_String (Some n)) e = true →
  BasicNet.Remove (Some n) {| BasicNet.lock := Some mu; BasicNet.allowlist := l1 ++ e :: l2 |}
  = (Returns tt, {| BasicNet.lock := Some mu; BasicNet.allowlist := l1 ++ l2 |},
     [EvLock; EvRead; EvWrite; EvUnlock]).
Proof.
  intros H He. rewrite BasicNet_Remove_run.
  rewrite (Remove_loop_first l1 e l2 _ 0) by done.
  by rewrite take_drop_middle_cut.
Qed.

(** ** C2: addresses and ranges of invalid length *)

(** A network that prints is not printed as nil: its form has a
    slash. *)
Lemma printed_has_slash s t : s +:+ String "/" t ≠ "<nil>".
Proof.
  intros E.
  assert (H : lacks "/" (s +:+ String "/" t) = true) by (by rewrite E).
  clear E. unfold lacks in H. induction s as [|c s IH].
  - change ("" +:+ String "/" t) with (String "/" t) in H. done.
  - change (String c s +:+ String "/" t) with (String c (s +:+ String "/" t)) in H.
    cbn [all_chars] in H. apply andb_true_iff in H as [_ H]. by apply IH.
Qed.

(** An entry that prints as nil, and is not nil, has no network number
    and contains no valid address. *)
Lemma nil_print_no_number (n : net.IPNet) :
  prints_as "<nil>" (Some n) = true → net.networkNumberAndMask n = None.
Proof.
  unfold prints_as, net.IPNet_String.
  destruct (net.networkNumberAndMask n) as [[nn m]|]; [|done].
  destruct (net.simpleMaskLength m); intros H%String.eqb_eq;
    by apply printed_has_slash in H.
Qed.

Lemma no_number_Contains (n : net.IPNet) (ip : net.IP) :
  net.networkNumberAndMask n = None → validIP ip = true → net.Contains n ip = false.
Proof.
  intros Hn Hip. unfold net.Contains. rewrite Hn. simpl.
  destruct (net.To4 ip) as [x|] eqn:E.
  - apply To4_length in E. by rewrite E.
  - unfold validIP in Hip.
    destruct (length ip) as [|k]; [done|]. done.
Qed.

Lemma Permitted_loop_without l1 n l2 ip :
  net.Contains n ip = false →
  BasicNet.Permitted_loop (l1 ++ Some n :: l2) ip = BasicNet.Permitted_loop (l1 ++ l2) ip.
Proof.
  intros Hn. induction l1 as [|[e|] l1 IH]; simpl.
  - by rewrite Hn.
  - by rewrite IH.
  - done.
Qed.

(** [Remove] of a range whose address has an invalid length, on a list
    with a lock and without nil entries: the entry it takes away, if any,
    contains no valid address, so [Permitted] answers as before. *)
Lemma BasicNet_Remove_malformed (n : net.IPNet) mu (ns : list net.IPNet) ip :
  validIP (net.IPNet_IP n) = false →
  let wl := {| BasicNet.lock := Some mu; BasicNet.allowlist := Some <$> ns |} in
  result (BasicNet.Permitted ip (state (BasicNet.Remove (Some n) wl)))
  = result (BasicNet.Permitted ip wl).
Proof.
  intros Hn wl. unfold wl.
  destruct (validIP ip) eqn:Hip.
  2:{ by rewrite !BasicNet_Permitted_invalid. }
  destruct (split_at_first (net.IPNet_String (Some n)) (Some <$> ns))
    as [H|(l1 & e & l2 & E & H1 & He)].
  - by rewrite BasicNet_Remove_none.
  - rewrite E, BasicNet_Remove_first by done. unfold state; simpl.
    rewrite !BasicNet_Permitted_run by done. unfold result; simpl.
    assert (He' : e ∈ Some <$> ns) by (rewrite E; set_solver).
    apply list_elem_of_fmap in He' as (n' & -> & _).
    symmetry. apply Permitted_loop_without, no_number_Contains; [|done].
    apply nil_print_no_number. by rewrite <- (malformed_String n).
Qed.

(** C2, as the code has it.  For an address [a] of invalid length,
    whatever the list: [Permitted(a)] returns false on both lists, and
    [Add(a)] and [Remove(a)] return and leave a host list as it was.  The
    network list takes ranges and checks only that they are not nil: the
    nil range changes nothing.  On a network list with a lock, a range
    whose address has an invalid length is appended by [Add], after which
    [Permitted] answers as before for every address; [Remove] of such a
    range returns, leaves the list as it was when no entry prints as nil,
    and takes away the first entry that does otherwise; on a list without
    nil entries [Permitted] then answers as before for every address. *)
Theorem C2_invalid_address (a : net.IP) :
  validIP a = false →
  (∀ wl, Basic.Permitted a wl = (Returns false, wl, []))
  ∧ (∀ wl, Basic.Add a wl = (Returns tt, wl, []))
  ∧ (∀ wl, Basic.Remove a wl = (Returns tt, wl, []))
  ∧ (∀ wl, BasicNet.Permitted a wl = (Returns false, wl, []))
  ∧ (∀ wl, BasicNet.Add None wl = (Returns tt, wl, [])
           ∧ BasicNet.Remove None wl = (Returns tt, wl, []))
  ∧ (∀ mask mu l,
       let n := {| net.IPNet_IP := a; net.IPNet_Mask := mask |} in
       let wl := {| BasicNet.lock := Some mu; BasicNet.allowlist := l |} in
       result (BasicNet.Add (Some n) wl) = Returns tt
       ∧ BasicNet.allowlist (state (BasicNet.Add (Some n) wl)) = l ++ [Some n]
       ∧ ∀ ip, result (BasicNet.Permitted ip (state (BasicNet.Add (Some n) wl)))
               = result (BasicNet.Permitted ip wl))
  ∧ (∀ mask mu l,
       let n := {| net.IPNet_IP := a; net.IPNet_Mask := mask |} in
       let wl := {| BasicNet.lock := Some mu; BasicNet.allowlist := l |} in
       result (BasicNet.Remove (Some n) wl) = Returns tt
       ∧ (Forall (λ e, prints_as "<nil>" e = false) l →
          state (BasicNet.Remove (Some n) wl) = wl)
       ∧ (∀ l1 e l2, l = l1 ++ e :: l2 →
            Forall (λ e, prints_as "<nil>" e = false) l1 → prints_as "<nil>" e = true →
            BasicNet.allowlist (state (BasicNet.Remove (Some n) wl)) = l1 ++ l2))
  ∧ (∀ mask mu (ns : list net.IPNet),
       let n := {| net.IPNet_IP := a; net.IPNet_Mask := mask |} in
       let wl := {| BasicNet.lock := Some mu; BasicNet.allowlist := Some <$> ns |} in
       ∀ ip, result (BasicNet.Permitted ip (state (BasicNet.Remove (Some n) wl)))
             = result (BasicNet.Permitted ip wl)).
Proof.
  intros Ha. split_and!.
  - intros wl. by apply Basic_Permitted_invalid.
  - intros wl. by apply Basic_Add_invalid.
  - intros wl. by apply Basic_Remove_invalid.
  - intros wl. by apply BasicNet_Permitted_invalid.
  - intros wl. apply BasicNet_nil_range.
  - intros mask mu l n wl. split_and!; [done|done|].
    intros ip. unfold wl. rewrite BasicNet_Add_run. unfold state; simpl.
    destruct (validIP ip) eqn:Hip.
    + rewrite !BasicNet_Permitted_run by done. unfold result; simpl.
      by apply Permitted_loop_app_malformed.
    + by rewrite !BasicNet_Permitted_invalid.
  - intros mask mu l n wl. split_and!.
    + unfold wl. rewrite BasicNet_Remove_run. by destruct (BasicNet.Remove_loop _ _ _).
    + intros H. unfold wl. rewrite BasicNet_Remove_none; [done|].
      by rewrite (malformed_String n).
    + intros l1 e l2 -> H1 He. unfold wl.
      rewrite BasicNet_Remove_first; [done| |]; by rewrite (malformed_String n).
  - intros mask mu ns n wl ip. by apply BasicNet_Remove_malformed.
Qed.

Lemma C2_invalid_address_witness :
  let a := [x01; x02; x03] in
  (∀ wl, Basic.Permitted a wl = (Returns false, wl, []))
  ∧ (∀ wl, Basic.Add a wl = (Returns tt, wl, []))
  ∧ (∀ wl, Basic.Remove a wl = (Returns tt, wl, []))
  ∧ (∀ wl, BasicNet.Permitted a wl = (Returns false, wl, []))
  ∧ (∀ wl, BasicNet.Add None wl = (Returns tt, wl, [])
           ∧ BasicNet.Remove None wl = (Returns tt, wl, []))
  ∧ (∀ mask mu l,
       let n := {| net.IPNet_IP := a; net.IPNet_Mask := mask |} in
       let wl := {| BasicNet.lock := Some mu; BasicNet.allowlist := l |} in
       result (BasicNet.Add (Some n) wl) = Returns tt
       ∧ BasicNet.allowlist (state (BasicNet.Add (Some n) wl)) = l ++ [Some n]
       ∧ ∀ ip, result (BasicNet.Permitted ip (state (BasicNet.Add (Some n) wl)))
               = result (BasicNet.Permitted ip wl))
  ∧ (∀ mask mu l,
       let n := {| net.IPNet_IP := a; net.IPNet_Mask := mask |} in
       let wl := {| BasicNet.lock := Some mu; BasicNet.allowlist := l |} in
       result (BasicNet.Remove (Some n) wl) = Returns tt
       ∧ (Forall (λ e, prints_as "<nil>" e = false) l →
          state (BasicNet.Remove (Some n) wl) = wl)
       ∧ (∀ l1 e l2, l = l1 ++ e :: l2 →
            Forall (λ e, prints_as "<nil>" e = false) l1 → prints_as "<nil>" e = true →
            BasicNet.allowlist (state (BasicNet.Remove (Some n) wl)) = l1 ++ l2))
  ∧ (∀ mask mu (ns : list net.IPNet),
       let n := {| net.IPNet_IP := a; net.IPNet_Mask := mask |} in
       let wl := {| BasicNet.lock := Some mu; BasicNet.allowlist := Some <$> ns |} in
       ∀ ip, result (BasicNet.Permitted ip (state (BasicNet.Remove (Some n) wl)))
             = result (BasicNet.Permitted ip wl)).
Proof. apply (C2_invalid_address [x01; x02; x03]). reflexivity. Defined.

(** C2 fails on the network list, in the entry count: [Add] appends a
    range whose address has three bytes, and [Remove] of that range then
    takes an entry away. *)
Lemma C2_counterexample :
  let n := Some {| net.IPNet_IP := [x01; x02; x03]; net.IPNet_Mask := [xff; xff; xff] |} in
  let wl := state (BasicNet.Add n NewBasicNet) in
  validIP [x01; x02; x03] = false
  ∧ length (BasicNet.allowlist NewBasicNet) = 0%nat
  ∧ length (BasicNet.allowlist wl) = 1%nat
  ∧ length (BasicNet.allowlist (state (BasicNet.Remove n wl))) = 0%nat.
Proof. vm_compute. done. Qed.

(** ** C4 and C7: removal *)

(** C4: on a list made by a constructor, [Remove] compares the canonical
    forms as strings; it takes away the first entry equal to the range and
    no other, and does nothing, without an error, when there is none.
    With 10.0.0.0/8 and 10.1.0.0/16 added, removing the second leaves
    10.1.2.3 permitted, through the first; removing the first leaves the
    entry of the second. *)
Theorem C4_network_remove (mu : Mutex) (l : list (option net.IPNet)) (n : net.IPNet) :
  let wl := {| BasicNet.lock := Some mu; BasicNet.allowlist := l |} in
  let s := net.IPNet_String (Some n) in
  result (BasicNet.Remove (Some n) wl) = Returns tt
  ∧ (Forall (λ e, net.IPNet_String e ≠ s) l → state (BasicNet.Remove (Some n) wl) = wl)
  ∧ (∀ l1 e l2,
       l = l1 ++ e :: l2 → Forall (λ e', net.IPNet_String e' ≠ s) l1 → net.IPNet_String e = s →
       state (BasicNet.Remove (Some n) wl)
       = {| BasicNet.lock := Some mu; BasicNet.allowlist := l1 ++ l2 |})
  ∧ (let R1 := Some net_10_0_0_0_8 in
     let R2 := Some net_10_1_0_0_16 in
     let both := state ((BasicNet.Add R1;; BasicNet.Add R2) NewBasicNet) in
     net.IPNet_String R1 = "10.0.0.0/8" ∧ net.IPNet_String R2 = "10.1.0.0/16"
     ∧ BasicNet.allowlist both = [R1; R2]
     ∧ result ((BasicNet.Remove R2;; BasicNet.Permitted ip_10_1_2_3) both) = Returns true
     ∧ BasicNet.allowlist (state (BasicNet.Remove R2 both)) = [R1]
     ∧ BasicNet.allowlist (state (BasicNet.Remove R1 both)) = [R2]).
Proof.
  intros wl s.
  assert (Hne : ∀ l', Forall (λ e, net.IPNet_String e ≠ s) l' →
                      Forall (λ e, prints_as s e = false) l').
  { intros l' H. eapply Forall_impl; [exact H|]. intros e He. by apply String.eqb_neq. }
  repeat split.
  - unfold wl. rewrite BasicNet_Remove_run. by destruct (BasicNet.Remove_loop _ _ _).
  - intros H. unfold wl. rewrite BasicNet_Remove_none; [done|]. by apply Hne.
  - intros l1 e l2 -> H1 He. unfold wl. rewrite BasicNet_Remove_first; [done| |].
    + by apply Hne.
    + by apply String.eqb_eq.
Qed.

Lemma C4_network_remove_witness :
  state (BasicNet.Remove (Some net_10_1_0_0_16)
           {| BasicNet.lock := Some mutex; BasicNet.allowlist :=
                [Some net_10_0_0_0_8; Some net_10_1_0_0_16; Some net_10_1_0_0_16] |})
  = {| BasicNet.lock := Some mutex; BasicNet.allowlist :=
         [Some net_10_0_0_0_8; Some net_10_1_0_0_16] |}
  ∧ state (BasicNet.Remove (Some net_10_1_0_0_16)
           {| BasicNet.lock := Some mutex; BasicNet.allowlist := [Some net_10_0_0_0_8] |})
  = {| BasicNet.lock := Some mutex; BasicNet.allowlist := [Some net_10_0_0_0_8] |}.
Proof.
  split.
  - destruct (C4_network_remove mutex
                [Some net_10_0_0_0_8; Some net_10_1_0_0_16; Some net_10_1_0_0_16]
                net_10_1_0_0_16) as (_ & _ & H & _).
    apply (H [Some net_10_0_0_0_8] (Some net_10_1_0_0_16) [Some net_10_1_0_0_16]).
    + reflexivity.
    + repeat constructor. vm_compute. discriminate.
    + reflexivity.
  - destruct (C4_network_remove mutex [Some net_10_0_0_0_8] net_10_1_0_0_16) as (_ & H & _).
    apply H. repeat constructor. vm_compute. discriminate.
Defined.

Lemma occurrences_0 s l :
  occurrences s l = 0%nat → Forall (λ e, prints_as s e = false) l.
Proof.
  unfold occurrences. induction l as [|e l IH]; [done|].
  rewrite filter_cons. destruct (decide (prints_as s e = true)) as [He|He]; simpl; [done|].
  intros H. constructor; [by destruct (prints_as s e)|by apply IH].
Qed.

Lemma occurrences_app s l1 l2 :
  occurrences s (l1 ++ l2) = (occurrences s l1 + occurrences s l2)%nat.
Proof. unfold occurrences. by rewrite filter_app, length_app. Qed.

Lemma occurrences_cons_true s e l :
  prints_as s e = true → occurrences s (e :: l) = S (occurrences s l).
Proof. intros H. unfold occurrences. rewrite filter_cons. by destruct (decide _). Qed.

Lemma Basic_Remove_twice a wl :
  (Basic.Remove a;; Basic.Remove a) wl
  = (result (Basic.Remove a wl), state (Basic.Remove a wl),
     if result (Basic.Remove a wl) is Returns _
     then trace (Basic.Remove a wl) ++ trace (Basic.Remove a wl)
     else trace (Basic.Remove a wl)).
Proof.
  destruct (validIP a) eqn:Ha.
  - destruct wl as [[mu|] m].
    + erewrite bind_run by by apply Basic_Remove_run.
      rewrite !Basic_Remove_run by done. unfold result, state, trace; simpl.
      do 2 f_equal. f_equal. destruct m as [m|]; simpl; [|done].
      f_equal. apply delete_delete_eq.
    + destruct (Basic_no_lock a m Ha) as (_ & _ & H).
      erewrite bind_panics by apply H. by rewrite H.
  - erewrite bind_run by by apply Basic_Remove_invalid.
    by rewrite !Basic_Remove_invalid.
Qed.




(** ** C5, C6 and C9: the compact form read back *)

Lemma defer_run {S A} (d : Go S unit) (body : Go S A) s tr' :
  d (state (body s)) = (Returns tt, state (body s), tr') →
  defer d body s = (result (body s), state (body s), trace (body s) ++ tr').
Proof.
  intros H. unfold defer. destruct (body s) as [[r s'] tr]. unfold state in H; simpl in H.
  by rewrite H.
Qed.

Lemma Basic_assign_run k v mu m :
  Basic.assign k v {| Basic.lock := mu; Basic.allowlist := Some m |}
  = (Returns tt, {| Basic.lock := mu; Basic.allowlist := Some (<[k := v]> m) |}, [EvWrite]).
Proof. reflexivity. Qed.

(** The loop of [UnmarshalJSON] keeps the lock, and leaves a nil map when
    it returns an error. *)
Lemma Basic_UnmarshalJSON_loop_lock nets wl :
  Basic.lock (state (Basic.UnmarshalJSON_loop nets wl)) = Basic.lock wl.
Proof.
  revert wl. induction nets as [|n nets IH]; intros wl; simpl; [done|].
  destruct (String.eqb _ _); [apply IH|].
  destruct (net.ParseIP _); [|done].
  destruct wl as [mu [m|]]; [|done].
  erewrite bind_run by apply Basic_assign_run. unfold state at 1; simpl.
  by rewrite IH.
Qed.

Lemma Basic_UnmarshalJSON_loop_error nets wl e :
  result (Basic.UnmarshalJSON_loop nets wl) = Returns (Some e) →
  Basic.allowlist (state (Basic.UnmarshalJSON_loop nets wl)) = None.
Proof.
  revert wl. induction nets as [|n nets IH]; intros wl; simpl; [done|].
  destruct (String.eqb _ _); [apply IH|].
  destruct (net.ParseIP _); [|done].
  destruct wl as [mu [m|]]; [|done].
  erewrite bind_run by apply Basic_assign_run. unfold result at 1, state at 1; simpl.
  apply IH.
Qed.

(** [UnmarshalJSON] on a quoted input of two bytes or more: the map is
    replaced by an empty one and the loop runs under the lock. *)
Lemma Basic_UnmarshalJSON_run input wl :
  quoted input = true → (2 ≤ length input)%nat →
  let start := {| Basic.lock := Some (default mutex (Basic.lock wl));
                  Basic.allowlist := Some ∅ |} in
  let x := Basic.UnmarshalJSON_loop (tokens input) start in
  Basic.UnmarshalJSON input wl
  = (result x, state x, [EvLock; EvWrite] ++ trace x ++ [EvUnlock]).
Proof.
  intros Hq Hlen start x. unfold Basic.UnmarshalJSON.
  destruct input as [|first rest]; [done|].
  unfold quoted in Hq. apply andb_true_iff in Hq as [-> ->]. cbn [negb orb].
  assert (Hb : (length (first :: rest) - 1 <? 1)%nat = false) by (apply Nat.ltb_ge; lia).
  rewrite Hb. fold (between_quotes (first :: rest)). fold (tokens (first :: rest)).
  assert (Hin : ∀ mu m,
    (Basic.Lock;; defer Basic.Unlock
       (Basic.set_allowlist (Some ∅);; Basic.UnmarshalJSON_loop (tokens (first :: rest))))
      {| Basic.lock := Some mu; Basic.allowlist := m |}
    = (let y := Basic.UnmarshalJSON_loop (tokens (first :: rest))
                  {| Basic.lock := Some mu; Basic.allowlist := Some ∅ |} in
       (result y, state y, [EvLock; EvWrite] ++ trace y ++ [EvUnlock]))).
  { intros mu m. cbv zeta.
    erewrite bind_run by reflexivity.
    pose proof (Basic_UnmarshalJSON_loop_lock (tokens (first :: rest))
                  {| Basic.lock := Some mu; Basic.allowlist := Some ∅ |}) as Hl.
    rewrite (defer_run _ _ _ [EvUnlock]).
    - erewrite bind_run by reflexivity. unfold result, state, trace; simpl. done.
    - erewrite bind_run by reflexivity. unfold state at 1 2; simpl.
      unfold Basic.Unlock. run. unfold state in Hl. simpl in Hl. by rewrite Hl. }
  destruct wl as [[mu|] m].
  - erewrite bind_run by reflexivity. simpl. erewrite bind_run by reflexivity.
    rewrite Hin. done.
  - erewrite bind_run by reflexivity. simpl. erewrite bind_run by reflexivity.
    rewrite Hin. done.
Qed.

Lemma Basic_UnmarshalJSON_unquoted input wl :
  input ≠ [] → quoted input = false →
  Basic.UnmarshalJSON input wl
  = (Returns (Some (errorString "allowlist: invalid allowlist")), wl, []).
Proof.
  intros Hne Hq. destruct input as [|first rest]; [done|].
  unfold Basic.UnmarshalJSON. unfold quoted in Hq.
  destruct (Byte.eqb first quote); simpl in *; [|done]. by rewrite Hq.
Qed.

Lemma Basic_UnmarshalJSON_one_quote wl :
  result (Basic.UnmarshalJSON [quote] wl) = Panics SliceBoundsOutOfRange.
Proof. by destruct wl as [[mu|] m]. Qed.

(** C9: when [UnmarshalJSON] of a host list gets past the check of the
    quotes and fails on a token that is no address, the list it leaves has
    a nil map, whatever it held: [Permitted] returns false for every
    address. *)
Theorem C9_failed_unmarshal_empties (wl : Basic.t) (input : list byte) (addr : string) :
  result (Basic.UnmarshalJSON input wl)
  = Returns (Some (errorString ("allowlist: invalid IP address " +:+ addr))) →
  Basic.allowlist (state (Basic.UnmarshalJSON input wl)) = None
  ∧ ∀ a, result (Basic.Permitted a (state (Basic.UnmarshalJSON input wl))) = Returns false.
Proof.
  intros H.
  destruct input as [|first rest] eqn:Ei; [done|]. rewrite <- Ei in *.
  assert (Hne : input ≠ []) by (by rewrite Ei).
  destruct (quoted input) eqn:Hq.
  2:{ rewrite Basic_UnmarshalJSON_unquoted in H by done. unfold result in H; simpl in H. done. }
  destruct (decide (2 ≤ length input)%nat) as [Hlen|Hlen].
  2:{ destruct rest; [|rewrite Ei in Hlen; simpl in Hlen; lia].
      rewrite Ei in Hq. unfold quoted in Hq. simpl in Hq.
      apply andb_true_iff in Hq as [Hq _]. apply Byte.byte_dec_bl in Hq. subst.
      by rewrite Basic_UnmarshalJSON_one_quote in H. }
  rewrite Basic_UnmarshalJSON_run in * by done. unfold result, state in *; simpl in *.
  pose proof (Basic_UnmarshalJSON_loop_error _ _ _ H) as Hm.
  pose proof (Basic_UnmarshalJSON_loop_lock (tokens input)
    {| Basic.lock := Some (default mutex (Basic.lock wl)); Basic.allowlist := Some ∅ |}) as Hl.
  unfold state in *; simpl in *.
  destruct (Basic.UnmarshalJSON_loop _ _) as [[r [l m]] tr]; simpl in *. subst.
  split; [done|]. intros a. destruct (validIP a) eqn:Ha.
  - by rewrite Basic_Permitted_run.
  - by rewrite Basic_Permitted_invalid.
Qed.

Lemma C9_failed_unmarshal_empties_witness :
  let wl := state (Basic.Add ip_127_0_0_1 NewBasic) in
  let input := quote :: bytes_of_string "10.0.0.1,bogus" ++ [quote] in
  Basic.allowlist (state (Basic.UnmarshalJSON input wl)) = None
  ∧ ∀ a, result (Basic.Permitted a (state (Basic.UnmarshalJSON input wl))) = Returns false.
Proof.
  apply (C9_failed_unmarshal_empties (state (Basic.Add ip_127_0_0_1 NewBasic))
           (quote :: bytes_of_string "10.0.0.1,bogus" ++ [quote]) "bogus").
  vm_compute. reflexivity.
Defined.

Lemma BasicNet_UnmarshalJSON_unquoted input wl :
  input ≠ [] → quoted input = false →
  BasicNet.UnmarshalJSON input wl
  = (Returns (Some (errorString "allowlist: invalid allowlist")), wl, []).
Proof.
  intros Hne Hq. destruct input as [|first rest]; [done|].
  unfold BasicNet.UnmarshalJSON. unfold quoted in Hq.
  destruct (Byte.eqb first quote); simpl in *; [|done]. by rewrite Hq.
Qed.

(** An input that is not empty and lacks a quote at either end is
    refused with the format error by both lists, which stay as they
    were. *)
Lemma UnmarshalJSON_unquoted_nonempty (input : list byte) :
  input ≠ [] → quoted input = false →
  (∀ wl, Basic.UnmarshalJSON input wl
         = (Returns (Some (errorString "allowlist: invalid allowlist")), wl, []))
  ∧ (∀ wl, BasicNet.UnmarshalJSON input wl
           = (Returns (Some (errorString "allowlist: invalid allowlist")), wl, [])).
Proof.
  intros Hne Hq. split; intros wl.
  - by apply Basic_UnmarshalJSON_unquoted.
  - by apply BasicNet_UnmarshalJSON_unquoted.
Qed.

Example UnmarshalJSON_abc :
  let wl := state (Basic.Add ip_127_0_0_1 NewBasic) in
  Basic.UnmarshalJSON (bytes_of_string "abc") wl
  = (Returns (Some (errorString "allowlist: invalid allowlist")), wl, [])
  ∧ result (Basic.Permitted ip_127_0_0_1 wl) = Returns true.
Proof. split; [by apply Basic_UnmarshalJSON_unquoted|]. by vm_compute. Qed.

(** C6, at the empty input: [in[0]] is out of range, and [UnmarshalJSON]
    of either list panics where the claim has it return the format
    error.  The list is left as it was. *)
Theorem C6_unmarshal_empty_input_panics :
  quoted [] = false
  ∧ (∀ wl, Basic.UnmarshalJSON [] wl = (Panics IndexOutOfRange, wl, []))
  ∧ (∀ wl, BasicNet.UnmarshalJSON [] wl = (Panics IndexOutOfRange, wl, [])).
Proof. done. Qed.

(** On the host list the compact form of the empty list loads, whatever
    the list held, and no address is permitted afterwards. *)
Lemma Basic_UnmarshalJSON_empty_compact wl :
  let x := Basic.UnmarshalJSON empty_compact wl in
  result x = Returns None
  ∧ Basic.allowlist (state x) = Some ∅
  ∧ ∀ a, result (Basic.Permitted a (state x)) = Returns false.
Proof.
  destruct wl as [mu m].
  assert (H : Basic.UnmarshalJSON empty_compact {| Basic.lock := mu; Basic.allowlist := m |}
              = (Returns None, {| Basic.lock := Some (default mutex mu);
                                  Basic.allowlist := Some ∅ |},
                 [EvLock; EvWrite; EvUnlock])) by (by destruct mu).
  cbv zeta. rewrite H. unfold result, state; simpl. repeat split.
  intros a. destruct (validIP a) eqn:Ha.
  - by rewrite Basic_Permitted_run.
  - by rewrite Basic_Permitted_invalid.
Qed.

(** C5, on the network list: the compact form of the empty list loads
    without an error, but the list it leaves holds one nil entry, not
    none, and [Permitted] of a valid address dereferences it. *)
Theorem C5_network_empty_compact_panics (wl : BasicNet.t) :
  let x := BasicNet.UnmarshalJSON empty_compact wl in
  result x = Returns None
  ∧ BasicNet.allowlist (state x) = [None]
  ∧ result (BasicNet.Permitted ip_127_0_0_1 (state x)) = Panics NilDereference.
Proof. by destruct wl as [[mu|] l]. Qed.

(** ** C8: the gating handlers *)

Section Gating.

Context {handler func : Type}.
Variable SplitHostPort : string → (string * string) + error.


End Gating.



(** ** C10: the lock around the entry collection *)

Lemma access_read : access EvRead.
Proof. by left. Qed.

Lemma access_write : access EvWrite.
Proof. by right. Qed.

Lemma disciplined_under_lock tr :
  Forall access tr → disciplined ([EvLock] ++ tr ++ [EvUnlock]) = true.
Proof.
  intros H. unfold disciplined. simpl.
  induction H as [|e tr [-> | ->] _ IH]; done.
Qed.

Lemma disciplined_app tr1 tr2 :
  disciplined tr1 = true → disciplined tr2 = true → disciplined (tr1 ++ tr2) = true.
Proof.
  unfold disciplined. generalize false at 1 3 as held.
  induction tr1 as [|e tr1 IH]; intros held H1 H2; simpl in *.
  - destruct held; [done|]. done.
  - destruct e, held; simpl in *; try done; by apply IH.
Qed.

Lemma Basic_UnmarshalJSON_loop_trace nets wl :
  Forall access (trace (Basic.UnmarshalJSON_loop nets wl)).
Proof.
  revert wl. induction nets as [|n nets IH]; intros wl; simpl; [by constructor|].
  destruct (String.eqb _ _); [apply IH|].
  destruct (net.ParseIP _).
  - destruct wl as [mu [m|]].
    + erewrite bind_run by apply Basic_assign_run. unfold trace at 1; simpl.
      constructor; [apply access_write|apply IH].
    + repeat constructor; apply access_write.
  - repeat constructor; apply access_write.
Qed.

Lemma BasicNet_set_index_run i n mu l :
  BasicNet.set_index i n {| BasicNet.lock := mu; BasicNet.allowlist := l |}
  = (Returns tt, {| BasicNet.lock := mu; BasicNet.allowlist := <[i := n]> l |}, [EvWrite]).
Proof. reflexivity. Qed.

Lemma BasicNet_UnmarshalJSON_loop_lock nets i wl :
  BasicNet.lock (state (BasicNet.UnmarshalJSON_loop nets i wl)) = BasicNet.lock wl.
Proof.
  revert i wl. induction nets as [|n nets IH]; intros i wl; simpl; [done|].
  destruct (String.eqb _ _); [apply IH|].
  destruct wl as [mu l]. destruct (net.ParseCIDR _) as [[? ipnet]|e]; [|done].
  erewrite bind_run by apply BasicNet_set_index_run. unfold state at 1; simpl.
  by rewrite IH.
Qed.

Lemma BasicNet_UnmarshalJSON_loop_trace nets i wl :
  Forall access (trace (BasicNet.UnmarshalJSON_loop nets i wl)).
Proof.
  revert i wl. induction nets as [|n nets IH]; intros i wl; simpl; [by constructor|].
  destruct (String.eqb _ _); [apply IH|].
  destruct wl as [mu l]. destruct (net.ParseCIDR _) as [[? ipnet]|e].
  - erewrite bind_run by apply BasicNet_set_index_run. unfold trace at 1; simpl.
    constructor; [apply access_write|apply IH].
  - repeat constructor; apply access_write.
Qed.

Lemma BasicNet_UnmarshalJSON_run input wl :
  quoted input = true → (2 ≤ length input)%nat →
  let start := {| BasicNet.lock := Some (default mutex (BasicNet.lock wl));
                  BasicNet.allowlist := replicate (length (tokens input)) None |} in
  let x := BasicNet.UnmarshalJSON_loop (tokens input) 0 start in
  BasicNet.UnmarshalJSON input wl
  = (result x, state x, [EvLock; EvWrite] ++ trace x ++ [EvUnlock]).
Proof.
  intros Hq Hlen start x. unfold BasicNet.UnmarshalJSON.
  destruct input as [|first rest]; [done|].
  unfold quoted in Hq. apply andb_true_iff in Hq as [-> ->]. cbn [negb orb].
  assert (Hb : (length (first :: rest) - 1 <? 1)%nat = false) by (apply Nat.ltb_ge; lia).
  rewrite Hb. fold (between_quotes (first :: rest)). fold (tokens (first :: rest)).
  set (nets := tokens (first :: rest)) in *.
  assert (Hin : ∀ mu l,
    (BasicNet.Lock;; defer BasicNet.Unlock
       (BasicNet.set_allowlist (replicate (length nets) None);;
        BasicNet.UnmarshalJSON_loop nets 0))
      {| BasicNet.lock := Some mu; BasicNet.allowlist := l |}
    = (let y := BasicNet.UnmarshalJSON_loop nets 0
                  {| BasicNet.lock := Some mu;
                     BasicNet.allowlist := replicate (length nets) None |} in
       (result y, state y, [EvLock; EvWrite] ++ trace y ++ [EvUnlock]))).
  { intros mu l. cbv zeta.
    erewrite bind_run by reflexivity.
    pose proof (BasicNet_UnmarshalJSON_loop_lock nets 0
                  {| BasicNet.lock := Some mu;
                     BasicNet.allowlist := replicate (length nets) None |}) as Hl.
    rewrite (defer_run _ _ _ [EvUnlock]).
    - erewrite bind_run by reflexivity. unfold result, state, trace; simpl. done.
    - erewrite bind_run by reflexivity. unfold state at 1 2; simpl.
      unfold BasicNet.Unlock. run. unfold state in Hl. simpl in Hl. by rewrite Hl. }
  destruct wl as [[mu|] m].
  - erewrite bind_run by reflexivity. simpl. erewrite bind_run by reflexivity.
    rewrite Hin. done.
  - erewrite bind_run by reflexivity. simpl. erewrite bind_run by reflexivity.
    rewrite Hin. done.
Qed.

(** Either an input is empty, or lacks a quote, or is one quote, or is
    quoted and has two bytes or more. *)
Lemma input_cases (input : list byte) :
  input = [] ∨ (input ≠ [] ∧ quoted input = false) ∨ input = [quote]
  ∨ (quoted input = true ∧ (2 ≤ length input)%nat).
Proof.
  destruct input as [|first rest]; [by left|]. right.
  destruct (quoted (first :: rest)) eqn:Hq; [|by left]. right.
  destruct rest as [|second rest]; [|right; split; [done|simpl; lia]].
  left. unfold quoted in Hq. simpl in Hq. apply andb_true_iff in Hq as [Hq _].
  apply Byte.byte_dec_bl in Hq. by subst.
Qed.

Lemma LoadBasic_loop_trace addrs wl :
  disciplined (trace (LoadBasic_loop addrs wl)) = true.
Proof.
  revert wl. induction addrs as [|addr addrs IH]; intros wl; simpl; [done|].
  destruct (net.ParseIP addr) as [ip|]; [|done].
  destruct (validIP ip) eqn:Hip.
  - destruct wl as [[mu|] [m|]].
    + erewrite bind_run by by apply Basic_Add_run. unfold trace at 1; simpl.
      apply (disciplined_app [EvLock; EvWrite; EvUnlock]); [done|apply IH].
    + erewrite bind_panics by by apply Basic_Add_nil_map. done.
    + erewrite bind_panics by by apply Basic_no_lock. done.
    + erewrite bind_panics by by apply Basic_no_lock. done.
  - erewrite bind_run by by apply Basic_Add_invalid. unfold trace at 1; simpl. apply IH.
Qed.

(** X16: every other operation of the two lists holds the lock whenever it
    reads or writes the entry collection, and has released it when it
    ends. *)
Lemma lock_discipline_elsewhere :
  (∀ ip wl, disciplined (trace (Basic.Permitted ip wl)) = true)
  ∧ (∀ ip wl, disciplined (trace (Basic.Add ip wl)) = true)
  ∧ (∀ ip wl, disciplined (trace (Basic.Remove ip wl)) = true)
  ∧ (∀ shuffle wl, disciplined (trace (Basic.MarshalJSON shuffle wl)) = true)
  ∧ (∀ input wl, disciplined (trace (Basic.UnmarshalJSON input wl)) = true)
  ∧ (∀ shuffle wl, disciplined (trace (DumpBasic shuffle wl)) = true)
  ∧ (∀ input, disciplined (LoadBasic input).2 = true)
  ∧ (∀ ip wl, disciplined (trace (BasicNet.Permitted ip wl)) = true)
  ∧ (∀ n wl, disciplined (trace (BasicNet.Add n wl)) = true)
  ∧ (∀ n wl, disciplined (trace (BasicNet.Remove n wl)) = true)
  ∧ (∀ input wl, disciplined (trace (BasicNet.UnmarshalJSON input wl)) = true).
Proof.
  repeat apply conj.
  - intros ip [[mu|] m]; unfold Basic.Permitted; by destruct (validIP ip).
  - intros ip [[mu|] [m|]]; unfold Basic.Add; by destruct (validIP ip).
  - intros ip [[mu|] m]; unfold Basic.Remove; by destruct (validIP ip).
  - by intros shuffle [[mu|] m].
  - intros input wl.
    destruct (input_cases input) as [->|[[Hne Hq]|[->|[Hq Hlen]]]].
    + done.
    + by rewrite Basic_UnmarshalJSON_unquoted.
    + by destruct wl as [[mu|] m].
    + rewrite Basic_UnmarshalJSON_run by done. unfold trace at 1; simpl.
      apply (disciplined_under_lock (EvWrite :: _)). constructor; [apply access_write|].
      apply Basic_UnmarshalJSON_loop_trace.
  - by intros shuffle [[mu|] m].
  - intros input. unfold LoadBasic.
    pose proof (LoadBasic_loop_trace
                  (GoStrings.Split (string_of_bytes input) (chr 10)) NewBasic) as H.
    destruct (LoadBasic_loop _ _) as [[[[e|]|p] wl] tr]; apply H.
  - intros ip [[mu|] l]; unfold BasicNet.Permitted; destruct (validIP ip); try done;
      run; by destruct (BasicNet.Permitted_loop l ip).
  - by intros [n|] [[mu|] l].
  - intros [n|] [[mu|] l]; try done.
    rewrite BasicNet_Remove_run. by destruct (BasicNet.Remove_loop _ _ _).
  - intros input wl.
    destruct (input_cases input) as [->|[[Hne Hq]|[->|[Hq Hlen]]]].
    + done.
    + by rewrite BasicNet_UnmarshalJSON_unquoted.
    + by destruct wl as [[mu|] m].
    + rewrite BasicNet_UnmarshalJSON_run by done. unfold trace at 1; simpl.
      apply (disciplined_under_lock (EvWrite :: _)). constructor; [apply access_write|].
      apply BasicNet_UnmarshalJSON_loop_trace.
Qed.

(** C10, at [BasicNet.MarshalJSON]: it reads the entry collection
    without taking the lock, on every list, where [Basic.MarshalJSON]
    takes it. *)
Theorem C10_network_marshal_unlocked (wl : BasicNet.t) :
  trace (BasicNet.MarshalJSON wl) = [EvRead]
  ∧ disciplined (trace (BasicNet.MarshalJSON wl)) = false
  ∧ trace (BasicNet.MarshalJSON
             (state ((BasicNet.Add (Some net_10_0_0_0_8)) NewBasicNet))) = [EvRead]
  ∧ ∀ shuffle, trace (Basic.MarshalJSON shuffle NewBasic) = [EvLock; EvRead; EvUnlock].
Proof. done. Qed.

(** ** Addresses printed and parsed back *)

Lemma append_cons c s t : String c s +:+ t = String c (s +:+ t).
Proof. reflexivity. Qed.

Lemma append_nil t : "" +:+ t = t.
Proof. reflexivity. Qed.

Section Dotted.

Import net.

Local Arguments uitoa : simpl never.

Lemma octet_scan (b : byte) whole rest :
  ParseAddr_scan whole (uitoa (Byte.to_N b) +:+ String "." rest) = parseIPv4 whole.
Proof. destruct b; reflexivity. Qed.

Lemma octet_cons (b : byte) :
  ∃ c s, uitoa (Byte.to_N b) = String c s.
Proof. destruct b; eexists _, _; reflexivity. Qed.

Lemma octet_dot (b : byte) c rest start pos fields :
  (pos < 3)%nat →
  parseIPv4Fields_loop (uitoa (Byte.to_N b) +:+ String "." (String c rest))
    start 0 pos 0 fields
  = parseIPv4Fields_loop (String c rest) true 0 (S pos) 0 (fields ++ [b]).
Proof.
  intros H. destruct pos as [|[|[|pos]]]; [| | |lia]; destruct b; reflexivity.
Qed.

Lemma octet_end (b : byte) start fields :
  parseIPv4Fields_loop (uitoa (Byte.to_N b)) start 0 3 0 fields = Some (fields ++ [b]).
Proof. destruct b; reflexivity. Qed.

Lemma string4_eq a b c d :
  string4 [a; b; c; d]
  = uitoa (Byte.to_N a) +:+ String "." (uitoa (Byte.to_N b) +:+ String "."
      (uitoa (Byte.to_N c) +:+ String "." (uitoa (Byte.to_N d)))).
Proof. reflexivity. Qed.

(** The dotted form of four bytes parses to them. *)
Lemma parseIPv4Fields_string4 a b c d :
  parseIPv4Fields (string4 [a; b; c; d]) = Some [a; b; c; d].
Proof.
  rewrite string4_eq. unfold parseIPv4Fields.
  destruct (octet_cons b) as (cb & sb & Eb), (octet_cons c) as (cc & sc & Ec),
    (octet_cons d) as (cd & sd & Ed).
  rewrite Eb, append_cons, octet_dot by lia. rewrite <- append_cons, <- Eb.
  rewrite Ec, append_cons, octet_dot by lia. rewrite <- append_cons, <- Ec.
  rewrite Ed, octet_dot by lia. rewrite <- Ed.
  apply octet_end.
Qed.

Lemma ParseIP_string4 a b c d :
  ParseIP (string4 [a; b; c; d]) = Some (v4InV6Prefix ++ [a; b; c; d]).
Proof.
  unfold ParseIP, ParseAddr. rewrite string4_eq at 2. rewrite octet_scan.
  unfold parseIPv4. by rewrite parseIPv4Fields_string4.
Qed.

End Dotted.

Section Hexadecimal.

Import net.

Lemma N_range_In n start g :
  (start ≤ g < start + N.of_nat n)%N → In g (N_range n start).
Proof.
  revert start. induction n as [|n IH]; intros start H; [lia|].
  simpl. destruct (decide (g = start)) as [->|Hne]; [by left|].
  right. apply IH. lia.
Qed.

Lemma hex_ok_all : forallb hex_ok (N_range (N.to_nat 65536) 0) = true.
Proof. vm_cast_no_check (eq_refl true). Qed.

Lemma hex_ok_below g : (g < 65536)%N → hex_ok g = true.
Proof.
  intros H. pose proof hex_ok_all as Hall. rewrite forallb_forall in Hall.
  apply Hall, N_range_In. rewrite N2Nat.id. lia.
Qed.

Lemma all_chars_app P s t :
  all_chars P (s +:+ t) = all_chars P s && all_chars P t.
Proof. induction s as [|c s IH]; simpl; [done|]. by rewrite IH, andb_assoc. Qed.

Lemma all_chars_impl (P Q : ascii → bool) s :
  (∀ c, P c = true → Q c = true) → all_chars P s = true → all_chars Q s = true.
Proof.
  intros H. induction s as [|c s IH]; simpl; [done|].
  intros [Hc Hs]%andb_true_iff. by rewrite (H c Hc), IH.
Qed.

Lemma lowerhex_addr_char c : lowerhex c = true → addr_char c = true.
Proof. unfold addr_char. by intros ->. Qed.

(** A character of a printed address is none of those that end a
    token or start a zone. *)
Lemma addr_char_plain c :
  addr_char c = true →
  Ascii.eqb c "%" = false ∧ Ascii.eqb c "," = false ∧ Ascii.eqb c (chr 10) = false
  ∧ Ascii.eqb c "/" = false.
Proof. destruct c as [[] [] [] [] [] [] [] []]; try discriminate; done. Qed.

Lemma lowerhex_plain c :
  lowerhex c = true →
  Ascii.eqb c "." = false ∧ Ascii.eqb c ":" = false ∧ Ascii.eqb c "%" = false
  ∧ hexval c ≠ None.
Proof. destruct c as [[] [] [] [] [] [] [] []]; try discriminate; done. Qed.

Lemma hexGroup_app s rest off acc acc' off' :
  hexGroup s off acc = Some (acc', off', "") →
  hexGroup (s +:+ rest) off acc = hexGroup rest off' acc'.
Proof.
  revert off acc. induction s as [|c s IH]; intros off acc; simpl.
  - by intros [= -> ->].
  - destruct (hexval c) as [d|]; [|done].
    destruct (3 <? off)%nat; [done|]. destruct (65535 <? _)%N; [done|]. apply IH.
Qed.

Lemma hexGroup_stop rest off acc :
  rest = "" ∨ (∃ t, rest = String ":" t) → hexGroup rest off acc = Some (acc, off, rest).
Proof. by intros [->|[t ->]]. Qed.

Section Group.

Variable g : N.
Hypothesis Hg : (g < 65536)%N.

Lemma appendHex_chars : all_chars lowerhex (appendHex g) = true.
Proof.
  pose proof (hex_ok_below g Hg) as H. unfold hex_ok in H.
  by apply andb_true_iff in H as [[_ H]%andb_true_iff _].
Qed.

Lemma appendHex_cons : ∃ c s, appendHex g = String c s ∧ lowerhex c = true.
Proof.
  pose proof appendHex_chars as Hc.
  pose proof (hex_ok_below g Hg) as H. unfold hex_ok in H.
  apply andb_true_iff in H as [_ H]. destruct (appendHex g) as [|c s]; [done|].
  exists c, s. split; [done|]. simpl in Hc. by apply andb_true_iff in Hc as [? _].
Qed.

Lemma hexGroup_appendHex rest :
  rest = "" ∨ (∃ t, rest = String ":" t) →
  hexGroup (appendHex g +:+ rest) 0 0 = Some (g, String.length (appendHex g), rest).
Proof.
  intros Hrest.
  pose proof (hex_ok_below g Hg) as H. unfold hex_ok in H.
  apply andb_true_iff in H as [[H _]%andb_true_iff _].
  destruct (hexGroup (appendHex g) 0 0) as [[[acc off] r]|] eqn:E; [|done].
  apply andb_true_iff in H as [[H1 H2]%andb_true_iff H3].
  apply N.eqb_eq in H1. apply Nat.eqb_eq in H2. apply String.eqb_eq in H3. subst.
  rewrite (hexGroup_app _ _ _ _ _ _ E). by apply hexGroup_stop.
Qed.

(** One turn of the loop of [parseIPv6] at a printed group that ends
    the string or is followed by a colon. *)
Lemma parseIPv6_loop_group fuel rest ip ell :
  (length ip < 16)%nat → rest = "" ∨ (∃ t, rest = String ":" t) →
  parseIPv6_loop (S fuel) (appendHex g +:+ rest) ip ell
  = let ip' := ip ++ [hi g; lo g] in
    match rest with
    | EmptyString => Some ("", ip', ell)
    | String _ r1 =>
        match r1 with
        | EmptyString => None
        | String ":" r2 =>
            match ell with
            | Some _ => None
            | None =>
                if String.eqb r2 "" then Some ("", ip', Some (length ip'))
                else parseIPv6_loop fuel r2 ip' (Some (length ip'))
            end
        | String _ _ => parseIPv6_loop fuel r1 ip' ell
        end
    end.
Proof.
  intros Hip Hrest. cbn [parseIPv6_loop].
  apply Nat.leb_gt in Hip as Hip'. replace (16 <=? length ip)%nat with false.
  rewrite hexGroup_appendHex by done.
  destruct appendHex_cons as (c & s & -> & _). cbn [String.length Nat.eqb].
  by destruct Hrest as [->|[t ->]].
Qed.

Lemma scan_group whole t :
  ParseAddr_scan whole (appendHex g +:+ String ":" t) = parseIPv6 whole.
Proof.
  pose proof appendHex_chars as H. induction (appendHex g) as [|c s IH]; [done|].
  simpl in H. apply andb_true_iff in H as [Hc Hs].
  destruct (lowerhex_plain c Hc) as (E1 & E2 & E3 & _).
  rewrite append_cons. cbn [ParseAddr_scan]. rewrite E1, E2, E3. by apply IH.
Qed.

Lemma parseIPv6_addr_group t zone :
  parseIPv6_addr (appendHex g +:+ t) zone
  = st ← parseIPv6_loop 8 (appendHex g +:+ t) [] None; parseIPv6_end st zone.
Proof.
  destruct appendHex_cons as (c & s & -> & Hc). rewrite append_cons.
  destruct c as [[] [] [] [] [] [] [] []]; try discriminate; reflexivity.
Qed.

Lemma parseIPv6_addr_ellipsis_group t zone :
  parseIPv6_addr (String ":" (String ":" (appendHex g +:+ t))) zone
  = st ← parseIPv6_loop 8 (appendHex g +:+ t) [] (Some 0%nat); parseIPv6_end st zone.
Proof. by destruct appendHex_cons as (c & s & -> & Hc). Qed.

End Group.

End Hexadecimal.

Section Groups.

Import net.

Lemma cutZone_plain s : all_chars addr_char s = true → cutZone s = (s, None).
Proof.
  induction s as [|c s IH]; simpl; [done|].
  intros [Hc Hs]%andb_true_iff. destruct (addr_char_plain c Hc) as (-> & _).
  by rewrite IH.
Qed.

Lemma parseIPv6_plain s :
  all_chars addr_char s = true → parseIPv6 s = parseIPv6_addr s "".
Proof. intros H. unfold parseIPv6. by rewrite cutZone_plain. Qed.

Lemma scan_colon whole t : ParseAddr_scan whole (String ":" t) = parseIPv6 whole.
Proof. reflexivity. Qed.

(** The turns of the loop of [parseIPv6], by what follows the group. *)
Lemma loop_colon g g' fuel t ip ell :
  (g < 65536)%N → (g' < 65536)%N → (length ip < 16)%nat →
  parseIPv6_loop (S fuel) (appendHex g +:+ String ":" (appendHex g' +:+ t)) ip ell
  = parseIPv6_loop fuel (appendHex g' +:+ t) (ip ++ [hi g; lo g]) ell.
Proof.
  intros Hg Hg' Hip. rewrite parseIPv6_loop_group by eauto.
  destruct (appendHex_cons g' Hg') as (c & s & E & Hc). rewrite E, append_cons.
  cbv zeta. destruct c as [[] [] [] [] [] [] [] []]; try discriminate; reflexivity.
Qed.

Lemma loop_ellipsis g g' fuel t ip :
  (g < 65536)%N → (g' < 65536)%N → (length ip < 16)%nat →
  parseIPv6_loop (S fuel)
    (appendHex g +:+ String ":" (String ":" (appendHex g' +:+ t))) ip None
  = parseIPv6_loop fuel (appendHex g' +:+ t) (ip ++ [hi g; lo g])
      (Some (length (ip ++ [hi g; lo g]))).
Proof.
  intros Hg Hg' Hip. rewrite parseIPv6_loop_group by eauto.
  by destruct (appendHex_cons g' Hg') as (c & s & -> & Hc).
Qed.

Lemma loop_ellipsis_end g fuel ip :
  (g < 65536)%N → (length ip < 16)%nat →
  parseIPv6_loop (S fuel) (appendHex g +:+ String ":" (String ":" "")) ip None
  = Some ("", ip ++ [hi g; lo g], Some (length (ip ++ [hi g; lo g]))).
Proof. intros Hg Hip. by rewrite parseIPv6_loop_group by eauto. Qed.

Lemma loop_end g fuel ip ell :
  (g < 65536)%N → (length ip < 16)%nat →
  parseIPv6_loop (S fuel) (appendHex g +:+ "") ip ell = Some ("", ip ++ [hi g; lo g], ell).
Proof. intros Hg Hip. by rewrite parseIPv6_loop_group by eauto. Qed.

Ltac parse_groups :=
  repeat first
    [ rewrite loop_colon by first [assumption | simpl; lia]
    | rewrite loop_ellipsis by first [assumption | simpl; lia]
    | rewrite loop_ellipsis_end by first [assumption | simpl; lia]
    | rewrite loop_end by first [assumption | simpl; lia] ];
  cbn [app].

Ltac print_groups :=
  lazy beta iota zeta delta
    [appendTo6 zero_span zero_run fold_left seq drop nth fst snd
     Nat.leb Nat.ltb Nat.eqb Nat.sub Nat.add andb];
  rewrite ?append_cons, ?append_nil.

Lemma nth_below (gs : list N) k :
  Forall (λ g, g < 65536)%N gs → (nth k gs 0 < 65536)%N.
Proof.
  intros H. revert k. induction H as [|g gs Hg _ IH]; intros [|k]; simpl; done.
Qed.

(** A printed address is made of digits, [a] to [f] and colons. *)
Lemma appendTo6_chars fuel i span gs :
  Forall (λ g, g < 65536)%N gs → all_chars addr_char (appendTo6 fuel i span gs) = true.
Proof.
  intros H. revert i. induction fuel as [|fuel IH]; intros i; cbn [appendTo6]; [done|].
  assert (Hhex : ∀ k, all_chars addr_char (appendHex (nth k gs 0%N)) = true).
  { intros k. eapply all_chars_impl; [apply lowerhex_addr_char|].
    by apply appendHex_chars, nth_below. }
  destruct (8 <=? i)%nat; [done|].
  destruct (i =? span.1)%nat.
  - rewrite !append_cons, append_nil. cbn [all_chars]. change (addr_char ":") with true.
    destruct (8 <=? span.2)%nat; [done|]. by rewrite all_chars_app, Hhex, IH.
  - rewrite !all_chars_app, Hhex, IH. by destruct (0 <? i)%nat.
Qed.

(** Eight groups, printed and parsed, are their sixteen bytes.  The
    proof runs the printer and the parser on each of the 256 ways the
    groups can be zero or not. *)
Lemma ParseIP_appendTo6 g0 g1 g2 g3 g4 g5 g6 g7 :
  let gs := [g0; g1; g2; g3; g4; g5; g6; g7] in
  Forall (λ g, g < 65536)%N gs →
  ParseIP (appendTo6 8 0 (zero_span gs) gs) = Some (flat_map (λ g, [hi g; lo g]) gs).
Proof.
  intros gs H. pose proof (appendTo6_chars 8 0 (zero_span gs) gs H) as Hv.
  unfold gs in *. clear gs.
  repeat match goal with H : Forall _ (_ :: _) |- _ => apply Forall_cons in H as [? H] end.
  clear H. unfold ParseIP, ParseAddr. revert Hv.
  destruct g0 as [|p0], g1 as [|p1], g2 as [|p2], g3 as [|p3],
    g4 as [|p4], g5 as [|p5], g6 as [|p6], g7 as [|p7].
  all: print_groups; intros Hv.
  all: first [rewrite scan_colon | rewrite scan_group by assumption].
  all: rewrite parseIPv6_plain by exact Hv.
  all: first [rewrite parseIPv6_addr_ellipsis_group by assumption
             | rewrite parseIPv6_addr_group by assumption | idtac].
  all: parse_groups.
  all: reflexivity.
Qed.

End Groups.

Section PrintParse.

Import net.

Lemma group_below (h l : byte) : (Byte.to_N h * 256 + Byte.to_N l < 65536)%N.
Proof. pose proof (Byte.to_N_bounded h). pose proof (Byte.to_N_bounded l). lia. Qed.

Lemma byte_of_to_N (b : byte) : byte_of (Byte.to_N b) = b.
Proof.
  unfold byte_of. rewrite N.mod_small by (pose proof (Byte.to_N_bounded b); lia).
  by rewrite Byte.of_to_N.
Qed.

Lemma hi_group (h l : byte) : hi (Byte.to_N h * 256 + Byte.to_N l) = h.
Proof.
  unfold hi. pose proof (Byte.to_N_bounded l).
  rewrite N.div_add_l by lia. rewrite N.div_small by lia.
  by rewrite N.add_0_r, byte_of_to_N.
Qed.

Lemma lo_group (h l : byte) : lo (Byte.to_N h * 256 + Byte.to_N l) = l.
Proof.
  unfold lo, byte_of. pose proof (Byte.to_N_bounded l).
  rewrite N.add_comm, N.Div0.mod_add.
  rewrite N.mod_small by lia. by rewrite Byte.of_to_N.
Qed.

(** Sixteen bytes, printed in the colon form and parsed, are
    themselves. *)
Lemma ParseIP_string6 (p : list byte) :
  length p = 16%nat → ParseIP (string6 p) = Some p.
Proof.
  intros H.
  do 16 (destruct p as [|? p]; [done|]). destruct p; [|done]. clear H.
  unfold string6. cbn [groups]. rewrite ParseIP_appendTo6.
  - cbn [flat_map app]. by rewrite !hi_group, !lo_group.
  - repeat constructor; apply group_below.
Qed.

Lemma groups_below (p : list byte) : Forall (λ g, g < 65536)%N (groups p).
Proof.
  assert (H : ∀ n (q : list byte), (length q ≤ n)%nat → Forall (λ g, g < 65536)%N (groups q)).
  { induction n as [|n IH]; intros [|h [|l q]] Hq; cbn [groups]; try by constructor.
    - simpl in Hq. lia.
    - constructor; [apply group_below|]. apply IH. simpl in Hq. lia. }
  by apply (H (length p)).
Qed.

Lemma string6_chars (p : list byte) : all_chars addr_char (string6 p) = true.
Proof. unfold string6. apply appendTo6_chars, groups_below. Qed.

Lemma uitoa_octet_chars (b : byte) :
  all_chars addr_char (uitoa (Byte.to_N b)) = true.
Proof. destruct b; reflexivity. Qed.

Lemma string4_chars a b c d : all_chars addr_char (string4 [a; b; c; d]) = true.
Proof.
  rewrite string4_eq.
  rewrite !all_chars_app; cbn [all_chars]; rewrite !all_chars_app; cbn [all_chars];
    rewrite !all_chars_app; cbn [all_chars].
  by rewrite !uitoa_octet_chars.
Qed.

(** The address a valid one is printed as: itself, or its last four
    bytes when it is an IPv4 address in sixteen bytes. *)
Lemma To4_cases (ip : IP) :
  validIP ip = true →
  (∃ a b c d, To4 ip = Some [a; b; c; d]
     ∧ (ip = [a; b; c; d] ∨ ip = v4InV6Prefix ++ [a; b; c; d]))
  ∨ (To4 ip = None ∧ length ip = 16%nat).
Proof.
  unfold validIP, To4, IPv4len, IPv6len.
  destruct (length ip =? 4)%nat eqn:E4.
  - intros _. left. apply Nat.eqb_eq in E4.
    do 4 (destruct ip as [|? ip]; [done|]). destruct ip; [|done]. eauto 10.
  - destruct (length ip =? 16)%nat eqn:E16; [|done]. intros _.
    apply Nat.eqb_eq in E16.
    do 16 (destruct ip as [|? ip]; [done|]). destruct ip; [|done].
    cbn [andb take drop nth isZeros forallb].
    destruct (_ && _) eqn:E; [|by right].
    left. repeat (apply andb_true_iff in E as [E ?]).
    repeat match goal with
           | H : _ && _ = true |- _ => apply andb_true_iff in H as [? H]
           end.
    repeat match goal with H : Byte.eqb _ _ = true |- _ => apply Byte.byte_dec_bl in H end.
    subst. eauto 10.
Qed.

(** A valid address is printed with the characters of an address, and
    parses back to its sixteen-byte form. *)
Theorem ParseIP_IP_String (ip : IP) :
  validIP ip = true →
  ParseIP (IP_String ip) = Some (To16 ip)
  ∧ all_chars addr_char (IP_String ip) = true
  ∧ IP_String ip ≠ ""
  ∧ IP_String (To16 ip) = IP_String ip
  ∧ validIP (To16 ip) = true.
Proof.
  intros Hv. pose proof Hv as Hlen. unfold validIP in Hlen.
  assert (Hs : IP_String ip = match To4 ip with Some p4 => string4 p4 | None => string6 ip end).
  { unfold IP_String, IPv4len, IPv6len.
    destruct (length ip =? 4)%nat eqn:E4; [by destruct ip|].
    destruct (length ip =? 16)%nat eqn:E16; [by destruct ip|done]. }
  destruct (To4_cases ip Hv) as [(a & b & c & d & E & [->| ->])|[E Hl]].
  - rewrite Hs, E. repeat split.
    + apply ParseIP_string4.
    + apply string4_chars.
    + rewrite string4_eq. destruct (octet_cons a) as (? & ? & ->). done.
  - rewrite Hs, E. repeat split.
    + apply ParseIP_string4.
    + apply string4_chars.
    + rewrite string4_eq. destruct (octet_cons a) as (? & ? & ->). done.
  - rewrite Hs, E. unfold To16. rewrite Hl. repeat split.
    + by apply ParseIP_string6.
    + apply string6_chars.
    + intros Hnil. pose proof (ParseIP_string6 ip Hl) as H. by rewrite Hnil in H.
    + cbn [Nat.eqb]. by rewrite Hs, E.
    + cbn [Nat.eqb]. done.
Qed.

End PrintParse.

(** ** Tokens joined and split *)

Section Tokens.

Import GoStrings.

Lemma append_nil_r s : s +:+ "" = s.
Proof. induction s as [|c s IH]; [done|]. by rewrite append_cons, IH. Qed.

Lemma append_assoc s t u : (s +:+ t) +:+ u = s +:+ (t +:+ u).
Proof. induction s as [|c s IH]; [done|]. by rewrite !append_cons, IH. Qed.

Lemma rev_app_rev_app s t u :
  String.rev_app (String.rev_app s t) u = String.rev_app t (s +:+ u).
Proof.
  revert t u. induction s as [|c s IH]; intros t u; [done|].
  cbn [String.rev_app]. by rewrite IH.
Qed.

Lemma rev_rev s : String.rev (String.rev s) = s.
Proof. unfold String.rev. by rewrite rev_app_rev_app, append_nil_r. Qed.

Lemma rev_app_append s t : String.rev_app s t = String.rev s +:+ t.
Proof.
  unfold String.rev. revert t. induction s as [|c s IH]; intros t; [done|].
  cbn [String.rev_app]. rewrite IH, (IH (String c "")). by rewrite append_assoc.
Qed.

Lemma rev_append s t : String.rev (s +:+ t) = String.rev t +:+ String.rev s.
Proof.
  induction s as [|c s IH]; [by rewrite append_nil, append_nil_r|].
  rewrite append_cons. unfold String.rev at 1 3. cbn [String.rev_app].
  rewrite !rev_app_append, IH. by rewrite append_assoc.
Qed.

Lemma all_chars_rev P s : all_chars P (String.rev s) = all_chars P s.
Proof.
  induction s as [|c s IH]; [done|].
  unfold String.rev. cbn [String.rev_app]. rewrite rev_app_append, all_chars_app, IH.
  simpl. by rewrite andb_true_r, andb_comm.
Qed.

Lemma strip_any_spaces s :
  head_ok s = true →
  strip_any spaces s = None ∧ strip_any (map String.rev spaces) s = None.
Proof.
  destruct s as [|c s]; [done|]. simpl.
  destruct c as [[] [] [] [] [] [] [] []]; try discriminate; done.
Qed.

Lemma trim_left_head_ok fuel s :
  head_ok s = true →
  trim_left fuel spaces s = s ∧ trim_left fuel (map String.rev spaces) s = s.
Proof.
  intros H. destruct (strip_any_spaces s H) as [H1 H2].
  destruct fuel; [done|]. cbn [trim_left]. by rewrite H1, H2.
Qed.

Lemma TrimSpace_head_ok s :
  head_ok s = true → head_ok (String.rev s) = true → TrimSpace s = s.
Proof.
  intros H1 H2. unfold TrimSpace, TrimLeftSpace, TrimRightSpace.
  rewrite (proj1 (trim_left_head_ok _ s H1)).
  rewrite (proj2 (trim_left_head_ok _ _ H2)). apply rev_rev.
Qed.

Lemma all_chars_head_ok s : all_chars addr_char s = true → head_ok s = true.
Proof. destruct s as [|c s]; [done|]. simpl. by intros [? _]%andb_true_iff. Qed.

Lemma TrimSpace_addr s : all_chars addr_char s = true → TrimSpace s = s.
Proof.
  intros H. apply TrimSpace_head_ok.
  - by apply all_chars_head_ok.
  - apply all_chars_head_ok. by rewrite all_chars_rev.
Qed.

Lemma head_ok_append s t : s ≠ "" → head_ok (s +:+ t) = head_ok s.
Proof. by destruct s. Qed.

Lemma token_rev k : token k → token (String.rev k).
Proof.
  intros [Hne Hc]. split; [|by rewrite all_chars_rev].
  intros E. apply Hne. by rewrite <- (rev_rev k), E.
Qed.

(** Tokens joined by a separator start and end with a character of an
    address. *)
Lemma Join_head_ok ks sep : Forall token ks → head_ok (Join ks sep) = true.
Proof.
  intros H. destruct H as [|k ks' [Hne Hc] Hks]; [done|].
  assert (H : head_ok k = true) by by apply all_chars_head_ok.
  destruct ks' as [|k' ks']; [done|].
  change (Join (k :: k' :: ks') sep) with (k +:+ sep +:+ Join (k' :: ks') sep).
  by rewrite head_ok_append.
Qed.

Lemma rev_Join ks sep :
  String.rev (Join ks sep) = Join (rev (String.rev <$> ks)) (String.rev sep).
Proof.
  induction ks as [|k ks IH]; [done|].
  assert (Hsnoc : ∀ l x, l ≠ [] →
            Join (l ++ [x]) (String.rev sep) = Join l (String.rev sep)
                                               +:+ String.rev sep +:+ x).
  { induction l as [|y l IHl]; [done|]. intros x _. destruct l as [|z l]; [done|].
    change (Join ((y :: z :: l) ++ [x]) (String.rev sep))
      with (y +:+ String.rev sep +:+ Join ((z :: l) ++ [x]) (String.rev sep)).
    rewrite IHl by done.
    change (Join (y :: z :: l) (String.rev sep))
      with (y +:+ String.rev sep +:+ Join (z :: l) (String.rev sep)).
    by rewrite !append_assoc. }
  destruct ks as [|k' ks]; [done|].
  change (Join (k :: k' :: ks) sep) with (k +:+ sep +:+ Join (k' :: ks) sep).
  rewrite !rev_append, IH. cbn [fmap list_fmap rev].
  rewrite (Hsnoc (_ ++ [_])); [by rewrite append_assoc|].
  by destruct (rev (String.rev <$> ks)).
Qed.

Lemma TrimSpace_Join ks sep : Forall token ks → TrimSpace (Join ks sep) = Join ks sep.
Proof.
  intros H. apply TrimSpace_head_ok; [by apply Join_head_ok|].
  rewrite rev_Join. apply Join_head_ok.
  apply Forall_rev, Forall_fmap. eapply Forall_impl; [exact H|]. apply token_rev.
Qed.

Lemma Split_cons c s sep :
  Split (String c s) sep
  = if Ascii.eqb c sep then "" :: Split s sep
    else match Split s sep with
         | [] => [String c ""]
         | t :: ts => String c t :: ts
         end.
Proof. reflexivity. Qed.

Lemma Split_lacks s sep : lacks sep s = true → Split s sep = [s].
Proof.
  induction s as [|c s IH]; [done|]. unfold lacks. simpl.
  intros [Hc Hs]%andb_true_iff. apply negb_true_iff in Hc.
  rewrite Split_cons, Hc. by rewrite IH.
Qed.

Lemma Split_append s sep rest :
  lacks sep s = true → Split (s +:+ String sep rest) sep = s :: Split rest sep.
Proof.
  induction s as [|c s IH]; unfold lacks; simpl.
  - intros _. rewrite append_nil, Split_cons. by rewrite Ascii.eqb_refl.
  - intros [Hc Hs]%andb_true_iff. apply negb_true_iff in Hc.
    rewrite append_cons, Split_cons, Hc. by rewrite IH.
Qed.

Lemma Split_Join ks sep :
  ks ≠ [] → Forall (λ k, lacks sep k = true) ks →
  Split (Join ks (String sep "")) sep = ks.
Proof.
  intros Hne H. induction H as [|k ks Hk Hks IH]; [done|].
  destruct ks as [|k' ks].
  - by apply Split_lacks.
  - change (Join (k :: k' :: ks) (String sep ""))
      with (k +:+ String sep "" +:+ Join (k' :: ks) (String sep "")).
    rewrite append_cons, append_nil, Split_append by done. by rewrite IH.
Qed.

Lemma token_lacks k sep :
  addr_char sep = false → token k → lacks sep k = true.
Proof.
  intros Hsep [_ H]. unfold lacks. eapply all_chars_impl; [|exact H].
  intros c Hc. apply negb_true_iff, Ascii.eqb_neq. intros ->. congruence.
Qed.

End Tokens.

(** ** Lists made by [Add] *)

Lemma set_all_lookup ks m k :
  set_all m ks !! k = if decide (k ∈ ks) then Some true else m !! k.
Proof.
  revert m. induction ks as [|k' ks IH]; intros m; simpl.
  - by destruct (decide (k ∈ [])) as [H%elem_of_nil|].
  - rewrite IH. destruct (decide (k ∈ ks)) as [Hin|Hin].
    + rewrite decide_True; [done|]. by right.
    + destruct (decide (k = k')) as [->|Hne].
      * rewrite lookup_insert_eq. rewrite decide_True; [done|]. by left.
      * rewrite lookup_insert_ne by done. rewrite decide_False; [done|].
        by intros [?|?]%elem_of_cons.
Qed.

Lemma canonical_empty : canonical ∅.
Proof. intros k v H. by rewrite lookup_empty in H. Qed.

Lemma canonical_insert m ip :
  validIP ip = true → canonical m → canonical (<[net.IP_String ip := true]> m).
Proof.
  intros Hip Hm k v. destruct (decide (k = net.IP_String ip)) as [->|Hne].
  - rewrite lookup_insert_eq. intros [= <-]. eauto.
  - rewrite lookup_insert_ne by done. apply Hm.
Qed.

Lemma Adds_run l mu m :
  Forall (λ a, validIP a = true) l → canonical m →
  ∃ m', canonical m'
    ∧ result (Adds l {| Basic.lock := Some mu; Basic.allowlist := Some m |}) = Returns tt
    ∧ state (Adds l {| Basic.lock := Some mu; Basic.allowlist := Some m |})
      = {| Basic.lock := Some mu; Basic.allowlist := Some m' |}
    ∧ (l ≠ [] → m' ≠ ∅).
Proof.
  intros Hl. revert m. induction Hl as [|a l Ha Hl IH]; intros m Hm.
  - exists m. done.
  - destruct (IH (<[net.IP_String a := true]> m)) as (m' & Hc & Hr & Hs & Hne);
      [by apply canonical_insert|].
    exists m'. cbn [Adds]. erewrite bind_run by by apply Basic_Add_run.
    unfold result at 1, state at 1; simpl. split_and!; try done.
    intros _. destruct l as [|b l]; [|by apply Hne].
    simpl in Hs. unfold state in Hs; simpl in Hs. injection Hs as <-.
    apply insert_non_empty.
Qed.

Lemma keys_lookup m k : k ∈ keys m ↔ is_Some (m !! k).
Proof.
  unfold keys. rewrite list_elem_of_fmap. split.
  - intros ([k' v] & -> & H%elem_of_map_to_list). eauto.
  - intros [v H]. exists (k, v). split; [done|]. by apply elem_of_map_to_list.
Qed.

Lemma canonical_parses_back m k : canonical m → k ∈ keys m → parses_back k.
Proof.
  intros Hm [v Hk]%keys_lookup. destruct (Hm k v Hk) as (_ & ip & Hip & ->).
  destruct (ParseIP_IP_String ip Hip) as (Hp & Hc & Hne & Hs & Hv).
  split; [done|]. eauto.
Qed.

Lemma canonical_permitted m ks a :
  canonical m → ks ≡ₚ keys m →
  default false (set_all ∅ ks !! net.IP_String a) = default false (m !! net.IP_String a).
Proof.
  intros Hm Hks. rewrite set_all_lookup, lookup_empty.
  destruct (decide (net.IP_String a ∈ ks)) as [Hin|Hin].
  - rewrite Hks in Hin. apply keys_lookup in Hin as [v Hv].
    rewrite Hv. by destruct (Hm _ _ Hv) as [-> _].
  - destruct (m !! net.IP_String a) as [v|] eqn:E; [|done].
    exfalso. apply Hin. rewrite Hks. apply keys_lookup. eauto.
Qed.

(** ** The compact form, written and read back *)

Lemma bytes_of_string_app s t :
  bytes_of_string (s +:+ t) = bytes_of_string s ++ bytes_of_string t.
Proof.
  unfold bytes_of_string, list_byte_of_string.
  induction s as [|c s IH]; [done|]. rewrite append_cons. simpl. by rewrite IH.
Qed.

Lemma string_of_bytes_of_string s : string_of_bytes (bytes_of_string s) = s.
Proof. apply string_of_list_byte_of_string. Qed.

(** The bytes [MarshalJSON] makes of the joined entries [j]. *)
Lemma compact_bytes j :
  bytes_of_string (dquote +:+ j +:+ dquote) = quote :: bytes_of_string j ++ [quote].
Proof. by rewrite !bytes_of_string_app. Qed.

Lemma compact_quoted j :
  let input := quote :: bytes_of_string j ++ [quote] in
  quoted input = true ∧ (2 ≤ length input)%nat ∧ between_quotes input = j.
Proof.
  intros input. unfold input. split_and!.
  - unfold quoted. rewrite app_comm_cons, last_last. done.
  - simpl. rewrite length_app. simpl. lia.
  - unfold between_quotes. cbn [drop length]. rewrite length_app. cbn [length].
    replace (S (length (bytes_of_string j) + 1) - 1 - 1)%nat
      with (length (bytes_of_string j)) by lia.
    rewrite drop_0, take_app_length. apply string_of_bytes_of_string.
Qed.

Lemma token_not_empty k : token k → String.eqb k "" = false.
Proof. intros [H _]. by apply String.eqb_neq. Qed.

(** The loop of [UnmarshalJSON] on tokens that parse sets each of them. *)
Lemma Basic_UnmarshalJSON_loop_tokens ks mu m :
  Forall parses_back ks →
  result (Basic.UnmarshalJSON_loop ks {| Basic.lock := mu; Basic.allowlist := Some m |})
  = Returns None
  ∧ state (Basic.UnmarshalJSON_loop ks {| Basic.lock := mu; Basic.allowlist := Some m |})
    = {| Basic.lock := mu; Basic.allowlist := Some (set_all m ks) |}.
Proof.
  intros H. revert m. induction H as [|k ks [Hk (ip & Hp & _)] _ IH]; intros m; [done|].
  cbn [Basic.UnmarshalJSON_loop]. rewrite TrimSpace_addr by apply Hk.
  rewrite token_not_empty, Hp by done.
  erewrite bind_run by apply Basic_assign_run. unfold result at 1, state at 1. simpl.
  apply IH.
Qed.

Lemma Basic_MarshalJSON_run shuffle mu m :
  Basic.MarshalJSON shuffle {| Basic.lock := Some mu; Basic.allowlist := Some m |}
  = (Returns (bytes_of_string (dquote +:+ GoStrings.Join (shuffle (keys m)) "," +:+ dquote),
              None),
     {| Basic.lock := Some mu; Basic.allowlist := Some m |}, [EvLock; EvRead; EvUnlock]).
Proof. reflexivity. Qed.

(** The tokens [UnmarshalJSON] finds in the compact form of the keys
    [ks]: the keys, or one empty token when there is no key. *)
Lemma tokens_compact ks :
  Forall token ks →
  tokens (quote :: bytes_of_string (GoStrings.Join ks ",") ++ [quote])
  = if ks is [] then [""] else ks.
Proof.
  intros H. unfold tokens.
  destruct (compact_quoted (GoStrings.Join ks ",")) as (_ & _ & ->).
  rewrite TrimSpace_Join by done.
  destruct ks as [|k ks]; [done|]. apply Split_Join; [done|].
  eapply Forall_impl; [exact H|]. intros k'. by apply token_lacks.
Qed.

(** X14: the compact form of a list made by [Add] with valid addresses,
    whatever the order [MarshalJSON] visits the keys in, is read by
    [UnmarshalJSON] into any list, with no error, and the list then
    permits exactly the addresses the first one permits. *)
Theorem compact_round_trip (adds : list net.IP) (shuffle : list string → list string)
    (target : Basic.t) :
  Forall (λ a, validIP a = true) adds → range_order shuffle →
  let L := state (Adds adds NewBasic) in
  ∃ out,
    result (Basic.MarshalJSON shuffle L) = Returns (out, None)
    ∧ state (Basic.MarshalJSON shuffle L) = L
    ∧ result (Basic.UnmarshalJSON out target) = Returns None
    ∧ ∀ a, result (Basic.Permitted a (state (Basic.UnmarshalJSON out target)))
           = result (Basic.Permitted a L).
Proof.
  intros Hadds Hshuffle L.
  destruct (Adds_run adds mutex ∅ Hadds canonical_empty) as (m & Hm & _ & HL & _).
  fold NewBasic in HL. unfold L. rewrite HL. clear L HL.
  set (ks := shuffle (keys m)).
  assert (Hperm : ks ≡ₚ keys m) by apply Hshuffle.
  assert (Hks : Forall parses_back ks).
  { apply Forall_forall. intros k Hk. apply (canonical_parses_back m); [done|].
    by rewrite <- Hperm. }
  assert (Htok : Forall token ks) by (eapply Forall_impl; [exact Hks|]; by intros k [? _]).
  rewrite Basic_MarshalJSON_run. fold ks. rewrite compact_bytes.
  eexists. split_and!; try done.
  - destruct (compact_quoted (GoStrings.Join ks ",")) as (Hq & Hlen & _).
    rewrite Basic_UnmarshalJSON_run by done. unfold result at 1; simpl.
    rewrite tokens_compact by done. destruct ks; [done|].
    by apply Basic_UnmarshalJSON_loop_tokens.
  - intros a.
    destruct (compact_quoted (GoStrings.Join ks ",")) as (Hq & Hlen & _).
    rewrite Basic_UnmarshalJSON_run by done. unfold state at 1; simpl.
    rewrite tokens_compact by done.
    assert (Hst : state (Basic.UnmarshalJSON_loop (if ks is [] then [""] else ks)
                    {| Basic.lock := Some (default mutex (Basic.lock target));
                       Basic.allowlist := Some ∅ |})
                  = {| Basic.lock := Some (default mutex (Basic.lock target));
                       Basic.allowlist := Some (set_all ∅ ks) |}).
    { destruct ks eqn:E; [done|]. rewrite <- E in *.
      by apply Basic_UnmarshalJSON_loop_tokens. }
    rewrite Hst. destruct (validIP a) eqn:Ha.
    + rewrite !Basic_Permitted_run by done. unfold result; simpl.
      f_equal. by apply canonical_permitted.
    + by rewrite !Basic_Permitted_invalid.
Qed.

(** ** The dump form, written and read back *)

Lemma insert_Permutation s l : GoSort.insert s l ≡ₚ s :: l.
Proof.
  induction l as [|t l IH]; [done|]. simpl. destruct (String.leb s t); [done|].
  rewrite IH. apply Permutation_swap.
Qed.

Lemma Strings_Permutation l : GoSort.Strings l ≡ₚ l.
Proof.
  unfold GoSort.Strings. induction l as [|s l IH]; [done|].
  simpl. by rewrite insert_Permutation, IH.
Qed.

(** The loop of [LoadBasic] on tokens that parse adds each of them. *)
Lemma LoadBasic_loop_tokens ks mu m :
  Forall parses_back ks →
  result (LoadBasic_loop ks {| Basic.lock := Some mu; Basic.allowlist := Some m |})
  = Returns None
  ∧ state (LoadBasic_loop ks {| Basic.lock := Some mu; Basic.allowlist := Some m |})
    = {| Basic.lock := Some mu; Basic.allowlist := Some (set_all m ks) |}.
Proof.
  intros H. revert m.
  induction H as [|k ks [Hk (ip & Hp & Hv & Hs)] _ IH]; intros m; [done|].
  cbn [LoadBasic_loop]. rewrite Hp.
  erewrite bind_run by by apply Basic_Add_run.
  unfold result at 1, state at 1. simpl. rewrite Hs. apply IH.
Qed.

Lemma DumpBasic_run shuffle mu m :
  DumpBasic shuffle {| Basic.lock := Some mu; Basic.allowlist := Some m |}
  = (Returns (bytes_of_string
                (GoStrings.Join (GoSort.Strings (shuffle (keys m))) (String (chr 10) ""))),
     {| Basic.lock := Some mu; Basic.allowlist := Some m |}, [EvLock; EvRead; EvUnlock]).
Proof. reflexivity. Qed.

(** X15: the dump of a list made by one or more [Add] with valid addresses,
    whatever the order [DumpBasic] visits the keys in, is loaded by
    [LoadBasic] into a list that permits exactly the addresses the first
    one permits. *)
Theorem dump_round_trip (adds : list net.IP) (shuffle : list string → list string) :
  Forall (λ a, validIP a = true) adds → adds ≠ [] → range_order shuffle →
  let L := state (Adds adds NewBasic) in
  ∃ out L',
    result (DumpBasic shuffle L) = Returns out
    ∧ state (DumpBasic shuffle L) = L
    ∧ (LoadBasic out).1 = Returns (inl L')
    ∧ ∀ a, result (Basic.Permitted a L') = result (Basic.Permitted a L).
Proof.
  intros Hadds Hne Hshuffle L.
  destruct (Adds_run adds mutex ∅ Hadds canonical_empty) as (m & Hm & _ & HL & Hm0).
  fold NewBasic in HL. unfold L. rewrite HL. clear L HL. specialize (Hm0 Hne).
  set (ks := GoSort.Strings (shuffle (keys m))).
  assert (Hperm : ks ≡ₚ keys m).
  { unfold ks. rewrite Strings_Permutation. apply Hshuffle. }
  assert (Hks : Forall parses_back ks).
  { apply Forall_forall. intros k Hk. apply (canonical_parses_back m); [done|].
    by rewrite <- Hperm. }
  assert (Hnil : ks ≠ []).
  { intros E. rewrite E in Hperm. apply Permutation_nil_l in Hperm.
    apply Hm0, map_to_list_empty_iff. unfold keys in Hperm.
    by destruct (map_to_list m). }
  rewrite DumpBasic_run. fold ks.
  destruct (LoadBasic_loop_tokens ks mutex ∅ Hks) as [Hr Hs].
  exists (bytes_of_string (GoStrings.Join ks (String (chr 10) ""))),
    {| Basic.lock := Some mutex; Basic.allowlist := Some (set_all ∅ ks) |}.
  split_and!; try done.
  - unfold LoadBasic. rewrite string_of_bytes_of_string.
    rewrite Split_Join; [|done|].
    + fold NewBasic in Hr, Hs. unfold result, state in Hr, Hs.
      destruct (LoadBasic_loop ks NewBasic) as [[r wl] tr]. simpl in *. by subst.
    + eapply Forall_impl; [exact Hks|]. intros k [Hk _]. by apply token_lacks.
  - intros a. destruct (validIP a) eqn:Ha.
    + rewrite !Basic_Permitted_run by done. unfold result; simpl.
      f_equal. by apply canonical_permitted.
    + by rewrite !Basic_Permitted_invalid.
Qed.

(** ** C1: the empty list in the dump form *)

(** C1, at the empty list in the dump form: [DumpBasic] of a new list
    is the empty byte sequence, whatever the order of iteration, and
    [LoadBasic] of it fails with the invalid-address error where the claim
    has it return an empty list: the one token of the empty input is the
    empty string, which [UnmarshalJSON] skips and [LoadBasic] parses. *)
Theorem C1_dump_of_empty_list_does_not_load (shuffle : list string → list string) :
  range_order shuffle →
  result (DumpBasic shuffle NewBasic) = Returns []
  ∧ LoadBasic [] = (Returns (inr (errorString "allowlist: invalid address")), []).
Proof.
  intros H. split; [|done].
  unfold DumpBasic. run. change (map_to_list ∅) with (@nil (string * bool)). simpl.
  specialize (H []). apply Permutation_nil_r in H. by rewrite H.
Qed.

Lemma C1_dump_of_empty_list_does_not_load_witness :
  result (DumpBasic id NewBasic) = Returns []
  ∧ LoadBasic [] = (Returns (inr (errorString "allowlist: invalid address")), []).
Proof. apply (C1_dump_of_empty_list_does_not_load id). intros l. reflexivity. Defined.

(** * Further properties *)

(** ** What [ParseIP] returns *)

Lemma parseIPv4Fields_loop_length s start val pos digLen fields r :
  length fields = pos → (pos ≤ 3)%nat →
  net.parseIPv4Fields_loop s start val pos digLen fields = Some r → length r = 4%nat.
Proof.
  revert start val pos digLen fields.
  induction s as [|c s IH]; intros start val pos digLen fields Hlen Hpos; simpl.
  - destruct (pos <? 3)%nat eqn:E; [done|]. apply Nat.ltb_ge in E.
    intros [= <-]. rewrite length_app. simpl. lia.
  - destruct (net.isDigit c).
    + destruct (_ && _); [done|]. destruct (255 <? _)%N; [done|]. by apply IH.
    + destruct (Ascii.eqb c "."); [|done]. destruct (_ || _); [done|].
      destruct (pos =? 3)%nat eqn:E; [done|]. apply Nat.eqb_neq in E.
      apply IH; [|lia]. rewrite length_app. simpl. lia.
Qed.

Lemma parseIPv4Fields_length s r : net.parseIPv4Fields s = Some r → length r = 4%nat.
Proof. apply parseIPv4Fields_loop_length; [done|lia]. Qed.

(** The loop of [parseIPv6] stores an even number of bytes, sixteen at
    most. *)
Lemma parseIPv6_loop_length fuel s ip ell rest ip' ell' :
  Nat.Even (length ip) → (length ip ≤ 16)%nat →
  net.parseIPv6_loop fuel s ip ell = Some (rest, ip', ell') →
  Nat.Even (length ip') ∧ (length ip' ≤ 16)%nat.
Proof.
  revert s ip ell. induction fuel as [|fuel IH]; intros s ip ell Hev Hle; cbn [net.parseIPv6_loop].
  - by intros [= <- <- <-].
  - destruct (16 <=? length ip)%nat eqn:E16; [by intros [= <- <- <-]|].
    apply Nat.leb_gt in E16.
    destruct (net.hexGroup s 0 0) as [[[acc off] r]|]; [|done].
    destruct (off =? 0)%nat; [done|].
    assert (Hev2 : ∀ x y, Nat.Even (length (ip ++ [x; y]))).
    { intros x y. rewrite length_app. simpl. destruct Hev as [k Hk]. exists (S k). lia. }
    assert (Hle2 : ∀ x y : byte, (length (ip ++ [x; y]) ≤ 16)%nat).
    { intros x y. rewrite length_app. simpl. destruct Hev as [k Hk]. lia. }
    assert (Hgroup :
      match r with
      | EmptyString => Some ("", ip ++ [net.byte_of (acc / 256); net.byte_of acc], ell)
      | String c r1 =>
          if negb (Ascii.eqb c ":") then None
          else
            match r1 with
            | EmptyString => None
            | String ":" r2 =>
                match ell with
                | Some _ => None
                | None =>
                    if String.eqb r2 ""
                    then Some ("", ip ++ [net.byte_of (acc / 256); net.byte_of acc],
                               Some (length (ip ++ [net.byte_of (acc / 256); net.byte_of acc])))
                    else net.parseIPv6_loop fuel r2
                           (ip ++ [net.byte_of (acc / 256); net.byte_of acc])
                           (Some (length (ip ++ [net.byte_of (acc / 256); net.byte_of acc])))
                end
            | String _ _ =>
                net.parseIPv6_loop fuel r1
                  (ip ++ [net.byte_of (acc / 256); net.byte_of acc]) ell
            end
      end = Some (rest, ip', ell') → Nat.Even (length ip') ∧ (length ip' ≤ 16)%nat).
    { destruct r as [|c r1]; [by intros [= <- <- <-]|].
      destruct (negb _); [done|]. destruct r1 as [|c1 r2]; [done|].
      destruct c1 as [[] [] [] [] [] [] [] []]; try by apply IH.
      destruct ell; [done|]. destruct (String.eqb r2 ""); [by intros [= <- <- <-]|].
      by apply IH. }
    destruct r as [|c r1]; [exact Hgroup|].
    destruct c as [[] [] [] [] [] [] [] []]; try exact Hgroup.
    destruct (_ && _); [done|]. destruct (16 <? length ip + 4)%nat eqn:E; [done|].
    apply Nat.ltb_ge in E.
    destruct (net.parseIPv4Fields s) as [f|] eqn:Ef; [|done]. intros [= <- <- <-].
    apply parseIPv4Fields_length in Ef. rewrite length_app, Ef. split; [|lia].
    destruct Hev as [k Hk]. exists (k + 2)%nat. lia.
Qed.

Lemma parseIPv6_end_length st zone a :
  Nat.Even (length st.1.2) → (length st.1.2 ≤ 16)%nat →
  net.parseIPv6_end st zone = Some a → length (net.As16 a) = 16%nat.
Proof.
  destruct st as [[rest ip] ell]. simpl. intros _ Hle.
  destruct (negb _); [done|]. destruct (length ip <? 16)%nat eqn:E.
  - apply Nat.ltb_lt in E. destruct ell as [e|]; [|done]. intros [= <-]. simpl.
    rewrite !length_app, length_replicate, length_take, length_drop. lia.
  - apply Nat.ltb_ge in E. destruct ell; [done|]. intros [= <-]. simpl. lia.
Qed.

Lemma parseIPv6_addr_length s zone a :
  net.parseIPv6_addr s zone = Some a → length (net.As16 a) = 16%nat.
Proof.
  assert (H : ∀ s' ell, (st ← net.parseIPv6_loop 8 s' [] ell; net.parseIPv6_end st zone) = Some a →
              length (net.As16 a) = 16%nat).
  { intros s' ell. destruct (net.parseIPv6_loop 8 s' [] ell) as [[[rest ip] ell']|] eqn:E; [|done].
    apply parseIPv6_loop_length in E as [Hev Hle]; [|by exists 0%nat|simpl; lia].
    intros H. by apply (parseIPv6_end_length (rest, ip, ell') zone). }
  unfold net.parseIPv6_addr.
  destruct s as [|c0 s0]; [apply H|].
  destruct c0 as [[] [] [] [] [] [] [] []]; try apply H.
  destruct s0 as [|c1 s1]; [apply H|].
  destruct c1 as [[] [] [] [] [] [] [] []]; try apply H.
  destruct s1; [by intros [= <-]|apply H].
Qed.

Lemma ParseAddr_length s a : net.ParseAddr s = Some a → length (net.As16 a) = 16%nat.
Proof.
  unfold net.ParseAddr.
  assert (H : ∀ whole, net.ParseAddr_scan whole s = Some a → length (net.As16 a) = 16%nat);
    [|by apply H].
  intros whole.
  induction s as [|c s IH]; [done|]. cbn [net.ParseAddr_scan].
  destruct (Ascii.eqb c ".").
  - unfold net.parseIPv4. destruct (net.parseIPv4Fields whole) as [f|] eqn:E; [|done].
    intros [= <-]. simpl. apply parseIPv4Fields_length in E. rewrite E. done.
  - destruct (Ascii.eqb c ":"); [|by destruct (Ascii.eqb c "%")].
    unfold net.parseIPv6. destruct (net.cutZone whole) as [s0 z].
    destruct (match z with Some "" => true | _ => false end); [done|].
    apply parseIPv6_addr_length.
Qed.

(** [ParseIP] returns nil or sixteen bytes. *)
Lemma ParseIP_length s ip : net.ParseIP s = Some ip → length ip = 16%nat.
Proof.
  unfold net.ParseIP. destruct (net.ParseAddr s) as [a|] eqn:E; [|done].
  destruct (String.eqb _ _); [|done]. intros [= <-]. by apply ParseAddr_length in E.
Qed.

Lemma ParseIP_valid s ip : net.ParseIP s = Some ip → validIP ip = true.
Proof. intros H%ParseIP_length. unfold validIP. by rewrite H. Qed.

(** ** The host list as a set of canonical strings *)

Lemma Adds_state l mu m :
  Adds l {| Basic.lock := Some mu; Basic.allowlist := Some m |}
  = (Returns tt,
     {| Basic.lock := Some mu;
        Basic.allowlist :=
          Some (set_all m (net.IP_String <$> filter (λ a, validIP a = true) l)) |},
     trace (Adds l {| Basic.lock := Some mu; Basic.allowlist := Some m |})).
Proof.
  revert m. induction l as [|a l IH]; intros m; [done|].
  cbn [Adds]. rewrite filter_cons. destruct (decide (validIP a = true)) as [Ha|Ha].
  - erewrite !bind_run by by apply Basic_Add_run.
    unfold result at 1, state at 1. simpl. rewrite IH. done.
  - apply not_true_is_false in Ha.
    erewrite !bind_run by by apply Basic_Add_invalid.
    unfold result at 1, state at 1. simpl. rewrite IH. done.
Qed.

Lemma existsb_elem_of (ks : list string) k :
  existsb (String.eqb k) ks = bool_decide (k ∈ ks).
Proof.
  induction ks as [|k' ks IH]; cbn [existsb].
  - symmetry. apply bool_decide_eq_false_2. by intros ?%elem_of_nil.
  - rewrite IH. destruct (String.eqb_spec k k') as [->|Hne]; cbn [orb].
    + symmetry. apply bool_decide_eq_true_2. by left.
    + apply bool_decide_ext. split; [by right|].
      by intros [?|?]%elem_of_cons.
Qed.

Lemma set_all_permitted ks a :
  default false (set_all ∅ ks !! net.IP_String a) = bool_decide (net.IP_String a ∈ ks).
Proof.
  rewrite set_all_lookup, lookup_empty.
  destruct (decide (net.IP_String a ∈ ks)) as [H|H].
  - symmetry. by apply bool_decide_eq_true_2.
  - symmetry. by apply bool_decide_eq_false_2.
Qed.

Lemma existsb_valid_keys k (l : list net.IP) :
  existsb (String.eqb k) (net.IP_String <$> filter (λ a, validIP a = true) l)
  = existsb (λ b, validIP b && String.eqb k (net.IP_String b)) l.
Proof.
  induction l as [|b l IH]; [done|]. rewrite filter_cons. cbn [existsb].
  destruct (decide (validIP b = true)) as [Hb|Hb].
  - rewrite Hb, fmap_cons. cbn [existsb andb]. by rewrite IH.
  - apply not_true_is_false in Hb. rewrite Hb. cbn [andb orb]. apply IH.
Qed.

Lemma Adds_permitted (l : list net.IP) (a : net.IP) :
  result (Basic.Permitted a (state (Adds l NewBasic))) = Returns (validIP a && added l a).
Proof.
  unfold NewBasic. rewrite Adds_state. unfold state; simpl.
  destruct (validIP a) eqn:Ha; [|by rewrite Basic_Permitted_invalid].
  rewrite Basic_Permitted_run by done. unfold result; simpl. f_equal.
  rewrite set_all_permitted, <- existsb_elem_of. apply existsb_valid_keys.
Qed.

(** X1: after any sequence of [Add] calls on a new list, an address
    is permitted exactly when it is valid and some valid address of the
    sequence has the same canonical string; the order of the calls,
    repetitions and invalid addresses make no difference, and no call
    panics. *)
Theorem Adds_membership (l : list net.IP) (a : net.IP) :
  result (Adds l NewBasic) = Returns tt
  ∧ result (Basic.Permitted a (state (Adds l NewBasic)))
    = Returns (validIP a && added l a).
Proof.
  split; [|apply Adds_permitted]. unfold NewBasic. by rewrite Adds_state.
Qed.

(** X2: [Add] and [Remove] of an address touch one entry: the answer
    of [Permitted] for an address with another canonical string is what it
    was, in every state of the list. *)
Theorem Basic_other_entries (wl : Basic.t) (a b : net.IP) :
  net.IP_String a ≠ net.IP_String b →
  result (Basic.Permitted b (state (Basic.Add a wl))) = result (Basic.Permitted b wl)
  ∧ result (Basic.Permitted b (state (Basic.Remove a wl))) = result (Basic.Permitted b wl).
Proof.
  intros Hne. destruct (validIP a) eqn:Ha.
  2:{ by rewrite Basic_Add_invalid, Basic_Remove_invalid. }
  destruct wl as [[mu|] m].
  2:{ destruct (Basic_no_lock a m Ha) as (_ & -> & ->). done. }
  rewrite Basic_Remove_run by done. unfold state; simpl.
  destruct (validIP b) eqn:Hb.
  2:{ by rewrite !Basic_Permitted_invalid. }
  destruct m as [m|].
  - rewrite Basic_Add_run by done. simpl. rewrite !Basic_Permitted_run by done.
    unfold result; simpl. by rewrite lookup_insert_ne, lookup_delete_ne.
  - rewrite Basic_Add_nil_map by done. done.
Qed.

Lemma Basic_other_entries_witness :
  let wl := state (Basic.Add ip_8_8_8_8 NewBasic) in
  result (Basic.Permitted ip_8_8_8_8 (state (Basic.Add ip_127_0_0_1 wl)))
  = result (Basic.Permitted ip_8_8_8_8 wl)
  ∧ result (Basic.Permitted ip_8_8_8_8 (state (Basic.Remove ip_127_0_0_1 wl)))
    = result (Basic.Permitted ip_8_8_8_8 wl).
Proof.
  apply (Basic_other_entries (state (Basic.Add ip_8_8_8_8 NewBasic)) ip_127_0_0_1 ip_8_8_8_8).
  vm_compute. discriminate.
Defined.

Lemma To16_String (a : net.IP) : validIP a = true → net.IP_String (To16 a) = net.IP_String a.
Proof. intros Ha. by destruct (ParseIP_IP_String a Ha) as (_ & _ & _ & ? & _). Qed.

Lemma To16_valid (a : net.IP) : validIP a = true → validIP (To16 a) = true.
Proof. intros Ha. by destruct (ParseIP_IP_String a Ha) as (_ & _ & _ & _ & ?). Qed.

Lemma String_To16 (a b : net.IP) :
  validIP a = true → validIP b = true →
  net.IP_String a = net.IP_String b ↔ To16 a = To16 b.
Proof.
  intros Ha Hb. split; intros H.
  - destruct (ParseIP_IP_String a Ha) as (Pa & _). destruct (ParseIP_IP_String b Hb) as (Pb & _).
    rewrite H, Pb in Pa. by injection Pa.
  - by rewrite <- (To16_String a), <- (To16_String b), H.
Qed.

(** X3: the entries of a host list are the addresses in their
    sixteen-byte form.  A list told to add one valid address permits
    exactly the valid addresses with the same sixteen-byte form, so the
    four bytes of an IPv4 address and its IPv4-in-IPv6 form are one entry;
    [Add], [Remove] and [Permitted] do the same with an address and its
    sixteen-byte form, in every state. *)
Theorem Basic_To16 (a b : net.IP) :
  validIP a = true → validIP b = true →
  result (Basic.Permitted b (state (Basic.Add a NewBasic)))
  = Returns (bool_decide (To16 a = To16 b))
  ∧ ∀ wl, Basic.Add (To16 a) wl = Basic.Add a wl
          ∧ Basic.Remove (To16 a) wl = Basic.Remove a wl
          ∧ Basic.Permitted (To16 a) wl = Basic.Permitted a wl.
Proof.
  intros Ha Hb. split.
  - unfold NewBasic. rewrite Basic_Add_run by done. unfold state; simpl.
    rewrite Basic_Permitted_run by done. unfold result; simpl. f_equal.
    destruct (decide (net.IP_String a = net.IP_String b)) as [E|E].
    + rewrite E, lookup_insert_eq. simpl. symmetry. apply bool_decide_eq_true_2.
      by apply String_To16.
    + rewrite lookup_insert_ne, lookup_empty by done. simpl. symmetry.
      apply bool_decide_eq_false_2. by rewrite <- String_To16.
  - intros wl. unfold Basic.Add, Basic.Remove, Basic.Permitted.
    by rewrite To16_String, To16_valid, Ha.
Qed.

Lemma Basic_To16_witness :
  result (Basic.Permitted (To16 ip_127_0_0_1) (state (Basic.Add ip_127_0_0_1 NewBasic)))
  = Returns (bool_decide (To16 ip_127_0_0_1 = To16 (To16 ip_127_0_0_1)))
  ∧ ∀ wl, Basic.Add (To16 ip_127_0_0_1) wl = Basic.Add ip_127_0_0_1 wl
          ∧ Basic.Remove (To16 ip_127_0_0_1) wl = Basic.Remove ip_127_0_0_1 wl
          ∧ Basic.Permitted (To16 ip_127_0_0_1) wl = Basic.Permitted ip_127_0_0_1 wl.
Proof. apply (Basic_To16 ip_127_0_0_1 (To16 ip_127_0_0_1)); reflexivity. Defined.

(** ** What the two loaders accept *)

Lemma kept_cons n nets :
  kept (n :: nets)
  = if String.eqb (GoStrings.TrimSpace n) "" then kept nets
    else GoStrings.TrimSpace n :: kept nets.
Proof.
  unfold kept. rewrite fmap_cons, filter_cons.
  destruct (String.eqb_spec (GoStrings.TrimSpace n) "") as [E|E].
  - by rewrite decide_False by (by intros H; apply H).
  - by rewrite decide_True.
Qed.

(** The loop of [UnmarshalJSON], in one step: it stops at the first
    entry [ParseIP] refuses, with a nil map, and otherwise sets them
    all. *)
Lemma Basic_UnmarshalJSON_loop_summary nets mu m :
  let x := Basic.UnmarshalJSON_loop nets {| Basic.lock := mu; Basic.allowlist := Some m |} in
  match first_refused (kept nets) with
  | Some addr =>
      result x = Returns (Some (errorString ("allowlist: invalid IP address " +:+ addr)))
      ∧ state x = {| Basic.lock := mu; Basic.allowlist := None |}
  | None =>
      result x = Returns None
      ∧ state x = {| Basic.lock := mu; Basic.allowlist := Some (set_all m (kept nets)) |}
  end.
Proof.
  revert m. induction nets as [|n nets IH]; intros m; [done|].
  cbn [Basic.UnmarshalJSON_loop]. rewrite kept_cons.
  destruct (String.eqb (GoStrings.TrimSpace n) ""); [apply IH|].
  unfold first_refused. cbn [List.find].
  destruct (net.ParseIP (GoStrings.TrimSpace n)) as [ip|]; [|done].
  erewrite bind_run by apply Basic_assign_run. unfold result at 1 3, state at 1 3. simpl.
  apply IH.
Qed.

(** X4: [UnmarshalJSON] of a host list is all or nothing.  On a
    quoted input it trims the comma-separated tokens and drops the empty
    ones; when [ParseIP] accepts every one left, it returns no error and
    the list permits exactly the valid addresses whose canonical string is
    one of them, letter for letter; otherwise it names the first refused
    token in its error and leaves a nil map.  It never panics, and the
    list it was called on does not matter. *)
Theorem Basic_UnmarshalJSON_summary (input : list byte) (wl : Basic.t) :
  quoted input = true → (2 ≤ length input)%nat →
  let x := Basic.UnmarshalJSON input wl in
  let ks := kept (tokens input) in
  match first_refused ks with
  | Some addr =>
      result x = Returns (Some (errorString ("allowlist: invalid IP address " +:+ addr)))
      ∧ Basic.allowlist (state x) = None
  | None =>
      result x = Returns None
      ∧ ∀ a, result (Basic.Permitted a (state x))
             = Returns (validIP a && bool_decide (net.IP_String a ∈ ks))
  end.
Proof.
  intros Hq Hlen x ks. unfold x. rewrite Basic_UnmarshalJSON_run by done.
  pose proof (Basic_UnmarshalJSON_loop_summary (tokens input)
                (Some (default mutex (Basic.lock wl))) ∅) as H.
  cbv zeta in H. fold ks in H.
  destruct (Basic.UnmarshalJSON_loop _ _) as [[r s] tr]. unfold result, state in *.
  cbn [fst snd] in *.
  destruct (first_refused ks) as [addr|]; destruct H as [-> ->]; [done|].
  split; [done|]. intros a. destruct (validIP a) eqn:Ha.
  - rewrite Basic_Permitted_run by done. unfold result; simpl.
    by rewrite set_all_permitted.
  - by rewrite Basic_Permitted_invalid.
Qed.

Lemma Basic_UnmarshalJSON_summary_witness :
  let input := quote :: bytes_of_string " 10.0.0.1 ,,::ffff:8.8.8.8" ++ [quote] in
  let x := Basic.UnmarshalJSON input NewBasic in
  result x = Returns None
  ∧ ∀ a, result (Basic.Permitted a (state x))
         = Returns (validIP a
                    && bool_decide (net.IP_String a ∈ ["10.0.0.1"; "::ffff:8.8.8.8"])).
Proof.
  exact (Basic_UnmarshalJSON_summary
           (quote :: bytes_of_string " 10.0.0.1 ,,::ffff:8.8.8.8" ++ [quote]) NewBasic
           eq_refl (le_S _ _ (le_S _ _ (le_n_S _ _ (le_n_S _ _ (le_0_n _)))))).
Defined.

Lemma LoadBasic_loop_summary addrs mu m :
  let x := LoadBasic_loop addrs {| Basic.lock := Some mu; Basic.allowlist := Some m |} in
  match first_refused addrs with
  | Some _ => result x = Returns (Some (errorString "allowlist: invalid address"))
  | None =>
      result x = Returns None
      ∧ state x = {| Basic.lock := Some mu;
                     Basic.allowlist := Some (set_all m (key_of <$> addrs)) |}
  end.
Proof.
  revert m. induction addrs as [|addr addrs IH]; intros m; [done|].
  cbn [LoadBasic_loop]. unfold first_refused. cbn [List.find].
  destruct (net.ParseIP addr) as [ip|] eqn:E; [|done].
  erewrite bind_run by (apply Basic_Add_run; by apply ParseIP_valid in E).
  unfold result at 1 2, state at 1 2. cbn [fst snd].
  rewrite fmap_cons. unfold key_of at 1. rewrite E. apply IH.
Qed.

Lemma Split_cons_shape s sep : ∃ k ks, GoStrings.Split s sep = k :: ks.
Proof.
  induction s as [|c s (k & ks & IH)]; [by eexists _, _|].
  rewrite Split_cons, IH. destruct (Ascii.eqb c sep); by eexists _, _.
Qed.

(** X5: [LoadBasic] never panics; it fails, with the invalid-address
    error, exactly when [ParseIP] refuses one of the lines of its input,
    lines being what the newline separates, untrimmed; the empty input is
    one empty line.  When it succeeds every line has been added, so the
    list it returns permits exactly the valid addresses with the canonical
    string of the address of some line, and it is never empty. *)
Theorem LoadBasic_summary (input : list byte) :
  let lines := GoStrings.Split (string_of_bytes input) (chr 10) in
  match first_refused lines with
  | Some _ => (LoadBasic input).1 = Returns (inr (errorString "allowlist: invalid address"))
  | None =>
      ∃ wl, (LoadBasic input).1 = Returns (inl wl)
        ∧ usable wl
        ∧ (∀ a, result (Basic.Permitted a wl)
                = Returns (validIP a && bool_decide (net.IP_String a ∈ key_of <$> lines)))
        ∧ ∃ a, result (Basic.Permitted a wl) = Returns true
  end.
Proof.
  intros lines. unfold LoadBasic. fold lines.
  pose proof (LoadBasic_loop_summary lines mutex ∅) as H. cbv zeta in H.
  fold NewBasic in H.
  destruct (LoadBasic_loop lines NewBasic) as [[r s] tr]. unfold result, state in H.
  cbn [fst snd] in H.
  destruct (first_refused lines) as [bad|] eqn:Eref; [by rewrite H|].
  destruct H as [-> ->]. eexists. split; [done|]. split; [by split|].
  assert (Hperm : ∀ a, result (Basic.Permitted a
                    {| Basic.lock := Some mutex;
                       Basic.allowlist := Some (set_all ∅ (key_of <$> lines)) |})
                  = Returns (validIP a && bool_decide (net.IP_String a ∈ key_of <$> lines))).
  { intros a. destruct (validIP a) eqn:Ha.
    - rewrite Basic_Permitted_run by done. unfold result; simpl.
      by rewrite set_all_permitted.
    - by rewrite Basic_Permitted_invalid. }
  split; [exact Hperm|].
  destruct (Split_cons_shape (string_of_bytes input) (chr 10)) as (k & ks & Hk).
  fold lines in Hk. clearbody lines. subst lines. unfold first_refused in Eref. cbn [List.find] in Eref.
  destruct (net.ParseIP k) as [ip|] eqn:Ep; [|done].
  exists ip. rewrite Hperm, (ParseIP_valid k ip Ep). cbn [andb]. f_equal.
  apply bool_decide_eq_true_2. rewrite fmap_cons.
  replace (key_of k) with (net.IP_String ip) by (unfold key_of; by rewrite Ep). by left.
Qed.

(** ** The network list between its constructor and [Permitted] *)

Lemma Permitted_loop_entries (ns : list net.IPNet) ip :
  BasicNet.Permitted_loop (Some <$> ns) ip = Returns (contained ns ip).
Proof.
  induction ns as [|n ns IH]; [done|]. rewrite fmap_cons. cbn [BasicNet.Permitted_loop].
  unfold contained. cbn [existsb]. destruct (net.Contains n ip); [done|]. apply IH.
Qed.

Lemma BasicNet_Permitted_entries mu (ns : list net.IPNet) ip :
  result (BasicNet.Permitted ip {| BasicNet.lock := Some mu; BasicNet.allowlist := Some <$> ns |})
  = Returns (validIP ip && contained ns ip).
Proof.
  destruct (validIP ip) eqn:Hip.
  - rewrite BasicNet_Permitted_run by done. apply Permitted_loop_entries.
  - by rewrite BasicNet_Permitted_invalid.
Qed.

(** One call keeps the lock and keeps the entries free of nil. *)
Lemma run_op_entries op mu (ns : list net.IPNet) :
  ∃ ns', run_op op {| BasicNet.lock := Some mu; BasicNet.allowlist := Some <$> ns |}
         = (Returns tt, {| BasicNet.lock := Some mu; BasicNet.allowlist := Some <$> ns' |},
            trace (run_op op {| BasicNet.lock := Some mu; BasicNet.allowlist := Some <$> ns |})).
Proof.
  destruct op as [[n|]|[n|]]; cbn [run_op].
  - exists (ns ++ [n]). rewrite BasicNet_Add_run, fmap_app. done.
  - by exists ns.
  - rewrite BasicNet_Remove_run.
    destruct (BasicNet.Remove_loop _ _ _) as [i|]; [|by exists ns].
    exists (take i ns ++ drop (i + 1) ns). by rewrite fmap_app, fmap_take, fmap_drop.
  - by exists ns.
Qed.

(** X6: whatever [Add] and [Remove] calls are made on a new network
    list, with nil or malformed ranges too, none panics, the list never
    holds a nil entry, and [Permitted] then returns, for every address:
    true exactly for the valid addresses one of the entries contains. *)
Theorem BasicNet_calls_never_panic (ops : list net_op) :
  ∃ ns : list net.IPNet,
    result (run_ops ops NewBasicNet) = Returns tt
    ∧ BasicNet.allowlist (state (run_ops ops NewBasicNet)) = Some <$> ns
    ∧ ∀ ip, result (BasicNet.Permitted ip (state (run_ops ops NewBasicNet)))
            = Returns (validIP ip && contained ns ip).
Proof.
  assert (H : ∀ ns, ∃ ns',
    result (run_ops ops {| BasicNet.lock := Some mutex; BasicNet.allowlist := Some <$> ns |})
    = Returns tt
    ∧ state (run_ops ops {| BasicNet.lock := Some mutex; BasicNet.allowlist := Some <$> ns |})
      = {| BasicNet.lock := Some mutex; BasicNet.allowlist := Some <$> ns' |}).
  { induction ops as [|op ops IH]; intros ns; [by exists ns|].
    destruct (run_op_entries op mutex ns) as (ns1 & H1).
    destruct (IH ns1) as (ns' & Hr & Hs). exists ns'.
    cbn [run_ops]. erewrite !bind_run by exact H1. done. }
  destruct (H []) as (ns & Hr & Hs). exists ns. change NewBasicNet with
    {| BasicNet.lock := Some mutex; BasicNet.allowlist := Some <$> [] |}.
  rewrite Hr, Hs. split_and!; try done. intros ip. apply BasicNet_Permitted_entries.
Qed.

Lemma contained_app ns1 ns2 ip :
  contained (ns1 ++ ns2) ip = contained ns1 ip || contained ns2 ip.
Proof. apply existsb_app. Qed.

(** X7: on a network list without nil entries, [Add] of a range
    permits what was permitted and the valid addresses the range contains,
    nothing else; [Remove] of a range permits nothing that was not
    permitted. *)
Theorem BasicNet_Add_grants_Remove_does_not (mu : Mutex) (ns : list net.IPNet)
    (n : net.IPNet) (ip : net.IP) :
  let wl := {| BasicNet.lock := Some mu; BasicNet.allowlist := Some <$> ns |} in
  result (BasicNet.Permitted ip (state (BasicNet.Add (Some n) wl)))
  = Returns (validIP ip && (contained ns ip || net.Contains n ip))
  ∧ ∃ b, result (BasicNet.Permitted ip (state (BasicNet.Remove (Some n) wl))) = Returns b
         ∧ (b = true → result (BasicNet.Permitted ip wl) = Returns true).
Proof.
  intros wl. unfold wl. split.
  - rewrite BasicNet_Add_run. unfold state; simpl.
    change [Some n] with (Some <$> [n]). rewrite <- (fmap_app Some ns [n]).
    rewrite BasicNet_Permitted_entries, contained_app. unfold contained at 2. simpl.
    by rewrite orb_false_r.
  - rewrite (BasicNet_Permitted_entries mu ns). rewrite BasicNet_Remove_run.
    destruct (BasicNet.Remove_loop _ _ _) as [i|]; unfold state; simpl.
    + rewrite <- fmap_take, <- fmap_drop, <- fmap_app, BasicNet_Permitted_entries.
      eexists. split; [done|]. intros [Hv Hc]%andb_true_iff. rewrite Hv. simpl. f_equal.
      rewrite <- (take_drop i ns), contained_app. rewrite contained_app in Hc.
      apply orb_true_iff in Hc as [->|Hc]; [done|]. apply orb_true_iff. right.
      unfold contained in *. apply existsb_exists in Hc as (x & Hin & Hx).
      apply existsb_exists. exists x. split; [|done].
      apply list_elem_of_In. apply list_elem_of_In in Hin.
      eapply (subseteq_drop 1). by rewrite drop_drop.
    + rewrite BasicNet_Permitted_entries. eexists. split; [done|]. by intros ->.
Qed.

(** The loop of [BasicNet.UnmarshalJSON] on a slice whose entries from
    [i] on are still nil. *)
Lemma BasicNet_UnmarshalJSON_loop_summary nets mu (done_ : list (option net.IPNet)) :
  let x := BasicNet.UnmarshalJSON_loop nets (length done_)
             {| BasicNet.lock := mu;
                BasicNet.allowlist := done_ ++ replicate (length nets) None |} in
  match first_cidr_error nets with
  | Some e => result x = Returns (Some (errParse e)) ∧ BasicNet.allowlist (state x) = []
  | None => result x = Returns None
            ∧ state x = {| BasicNet.lock := mu;
                           BasicNet.allowlist := done_ ++ (net_entry <$> nets) |}
  end.
Proof.
  revert done_. induction nets as [|n nets IH]; intros done_; [done|].
  cbn [BasicNet.UnmarshalJSON_loop first_cidr_error length replicate].
  rewrite fmap_cons. unfold net_entry at 1.
  assert (Hnext : ∀ e, done_ ++ e :: replicate (length nets) None
                       = (done_ ++ [e]) ++ replicate (length nets) None)
    by (intros e; by rewrite <- app_assoc).
  assert (Hlen : ∀ e : option net.IPNet, S (length done_) = length (done_ ++ [e]))
    by (intros e; rewrite length_app; simpl; lia).
  destruct (String.eqb (GoStrings.TrimSpace n) "").
  - rewrite (Hnext None), (Hlen None). specialize (IH (done_ ++ [None])).
    cbv zeta in IH. destruct (first_cidr_error nets); [done|].
    replace (done_ ++ None :: (net_entry <$> nets))
      with ((done_ ++ [None]) ++ (net_entry <$> nets)) by (by rewrite <- app_assoc).
    done.
  - destruct (net.ParseCIDR (GoStrings.TrimSpace n)) as [[ip ipnet]|e]; [|done].
    erewrite bind_run by apply BasicNet_set_index_run.
    unfold result at 1 2, state at 1 2. cbn [fst snd].
    replace (<[length done_:=Some ipnet]> (done_ ++ None :: replicate (length nets) None))
      with ((done_ ++ [Some ipnet]) ++ replicate (length nets) None).
    2:{ rewrite <- app_assoc. simpl. symmetry.
        rewrite (insert_app_r_alt done_ _ (length done_)) by lia.
        by rewrite Nat.sub_diag. }
    rewrite (Hlen (Some ipnet)). specialize (IH (done_ ++ [Some ipnet])).
    cbv zeta in IH. destruct (first_cidr_error nets); [done|].
    replace (done_ ++ Some ipnet :: (net_entry <$> nets))
      with ((done_ ++ [Some ipnet]) ++ (net_entry <$> nets)) by (by rewrite <- app_assoc).
    done.
Qed.

(** X8: [UnmarshalJSON] of a network list is all or nothing, and keeps
    a slot for every token.  On a quoted input, when [ParseCIDR] accepts
    every token that is not blank, it returns no error and the list holds
    one entry for each token, in order: the network of the token, made by
    [ParseCIDR], and nil for a blank token; otherwise it returns the error
    of the first refused token and leaves the list empty.  It never
    panics. *)
Theorem BasicNet_UnmarshalJSON_summary (input : list byte) (wl : BasicNet.t) :
  quoted input = true → (2 ≤ length input)%nat →
  let x := BasicNet.UnmarshalJSON input wl in
  match first_cidr_error (tokens input) with
  | Some e => result x = Returns (Some (errParse e)) ∧ BasicNet.allowlist (state x) = []
  | None => result x = Returns None
            ∧ BasicNet.allowlist (state x) = net_entry <$> tokens input
  end.
Proof.
  intros Hq Hlen x. unfold x. rewrite BasicNet_UnmarshalJSON_run by done.
  pose proof (BasicNet_UnmarshalJSON_loop_summary (tokens input)
                (Some (default mutex (BasicNet.lock wl))) []) as H.
  cbv zeta in H. cbn [app length] in H.
  destruct (BasicNet.UnmarshalJSON_loop _ _ _) as [[r s] tr]. unfold result, state in *.
  cbn [fst snd] in *.
  destruct (first_cidr_error (tokens input)); [done|]. by destruct H as [-> ->].
Qed.

Lemma BasicNet_UnmarshalJSON_summary_witness :
  let input := quote :: bytes_of_string "10.0.0.0/8, ,10.1.2.3/16" ++ [quote] in
  let x := BasicNet.UnmarshalJSON input NewBasicNet in
  result x = Returns None
  ∧ BasicNet.allowlist (state x) = [Some net_10_0_0_0_8; None; Some net_10_1_0_0_16].
Proof.
  exact (BasicNet_UnmarshalJSON_summary
           (quote :: bytes_of_string "10.0.0.0/8, ,10.1.2.3/16" ++ [quote]) NewBasicNet
           eq_refl (le_S _ _ (le_S _ _ (le_n_S _ _ (le_n_S _ _ (le_0_n _)))))).
Defined.

Lemma BasicNet_Add_grants_Remove_does_not_witness :
  result (BasicNet.Permitted ip_10_1_2_3
            (state (BasicNet.Add (Some net_10_1_0_0_16)
                      {| BasicNet.lock := Some mutex;
                         BasicNet.allowlist := Some <$> [net_10_0_0_0_8] |})))
  = Returns (validIP ip_10_1_2_3
             && (contained [net_10_0_0_0_8] ip_10_1_2_3
                 || net.Contains net_10_1_0_0_16 ip_10_1_2_3))
  ∧ ∃ b, result (BasicNet.Permitted ip_10_1_2_3
                   (state (BasicNet.Remove (Some net_10_1_0_0_16)
                             {| BasicNet.lock := Some mutex;
                                BasicNet.allowlist := Some <$> [net_10_0_0_0_8] |})))
         = Returns b
         ∧ (b = true →
            result (BasicNet.Permitted ip_10_1_2_3
                      {| BasicNet.lock := Some mutex;
                         BasicNet.allowlist := Some <$> [net_10_0_0_0_8] |})
            = Returns true).
Proof.
  exact (BasicNet_Add_grants_Remove_does_not mutex [net_10_0_0_0_8] net_10_1_0_0_16 ip_10_1_2_3).
Defined.

Lemma compact_round_trip_witness :
  let L := state (Adds [ip_127_0_0_1; ip_8_8_8_8] NewBasic) in
  ∃ out,
    result (Basic.MarshalJSON (@rev string) L) = Returns (out, None)
    ∧ state (Basic.MarshalJSON (@rev string) L) = L
    ∧ result (Basic.UnmarshalJSON out NewBasic) = Returns None
    ∧ ∀ a, result (Basic.Permitted a (state (Basic.UnmarshalJSON out NewBasic)))
           = result (Basic.Permitted a L).
Proof.
  apply (compact_round_trip [ip_127_0_0_1; ip_8_8_8_8] (@rev string) NewBasic).
  - repeat constructor.
  - intros l. rewrite <- Permutation_rev; reflexivity.
Defined.

Lemma dump_round_trip_witness :
  let L := state (Adds [ip_127_0_0_1; ip_8_8_8_8] NewBasic) in
  ∃ out L',
    result (DumpBasic (@rev string) L) = Returns out
    ∧ state (DumpBasic (@rev string) L) = L
    ∧ (LoadBasic out).1 = Returns (inl L')
    ∧ ∀ a, result (Basic.Permitted a L') = result (Basic.Permitted a L).
Proof.
  apply (dump_round_trip [ip_127_0_0_1; ip_8_8_8_8] (@rev string)).
  - repeat constructor.
  - done.
  - intros l. rewrite <- Permutation_rev; reflexivity.
Defined.

(** ** The dump is sorted *)

Lemma ascii_compare_N a b :
  Ascii.compare a b = N.compare (N_of_ascii a) (N_of_ascii b).
Proof. reflexivity. Qed.

Lemma string_leb_trans a b c :
  String.leb a b = true → String.leb b c = true → String.leb a c = true.
Proof.
  unfold String.leb. revert b c.
  induction a as [|x a IH]; intros [|y b] [|z c]; simpl; try done.
  rewrite !ascii_compare_N.
  destruct (N.compare_spec (N_of_ascii x) (N_of_ascii y)) as [Exy|Lxy|Gxy]; [| |done].
  - apply (f_equal ascii_of_N) in Exy. rewrite !ascii_N_embedding in Exy. subst y.
    destruct (N.compare_spec (N_of_ascii x) (N_of_ascii z)); [apply IH|done|done].
  - destruct (N.compare_spec (N_of_ascii y) (N_of_ascii z)) as [Eyz|Lyz|Gyz]; [| |done].
    + rewrite <- Eyz. intros _ _. by rewrite (proj2 (N.compare_lt_iff _ _) Lxy).
    + intros _ _. assert (H : (N_of_ascii x < N_of_ascii z)%N) by lia.
      by rewrite (proj2 (N.compare_lt_iff _ _) H).
Qed.

#[local] Instance le_string_trans : Transitive le_string.
Proof. intros a b c. apply string_leb_trans. Qed.

#[local] Instance le_string_antisymm : AntiSymm (=) le_string.
Proof. intros a b. apply String.leb_antisym. Qed.

Lemma insert_sorted s l :
  Sorted le_string l → Sorted le_string (GoSort.insert s l).
Proof.
  induction 1 as [|t l Hl IH Hhd]; simpl; [by repeat constructor|].
  destruct (String.leb s t) eqn:E.
  - constructor; [by constructor|]. by constructor.
  - constructor; [done|].
    assert (Hts : le_string t s).
    { destruct (String.leb_total s t) as [H|H]; [congruence|done]. }
    destruct Hhd as [|u l Hu]; simpl; [by constructor|].
    destruct (String.leb s u); by constructor.
Qed.

Lemma Strings_sorted l : Sorted le_string (GoSort.Strings l).
Proof.
  unfold GoSort.Strings. induction l as [|s l IH]; simpl; [constructor|].
  by apply insert_sorted.
Qed.

Lemma Strings_order l1 l2 : l1 ≡ₚ l2 → GoSort.Strings l1 = GoSort.Strings l2.
Proof.
  intros H. apply (Sorted_unique le_string); try apply Strings_sorted.
  by rewrite !Strings_Permutation.
Qed.

Lemma NoDup_keys (m : gmap string bool) : NoDup (keys m).
Proof. apply NoDup_fst_map_to_list. Qed.

Lemma elem_of_keys (m : gmap string bool) k : k ∈ keys m ↔ is_Some (m !! k).
Proof.
  unfold keys. rewrite list_elem_of_fmap. split.
  - intros ([k' v] & -> & H%elem_of_map_to_list). by exists v.
  - intros [v H]. exists (k, v). split; [done|]. by apply elem_of_map_to_list.
Qed.

(** X9: the dump of a host list does not depend on the order the map
    is visited in.  Its lines are the keys of the map, each once, in
    increasing order; the list is left as it was. *)
Theorem DumpBasic_sorted (shuffle : list string → list string) (mu : Mutex)
    (m : gmap string bool) :
  range_order shuffle →
  let wl := {| Basic.lock := Some mu; Basic.allowlist := Some m |} in
  ∃ lines,
    result (DumpBasic shuffle wl)
    = Returns (bytes_of_string (GoStrings.Join lines (String (chr 10) "")))
    ∧ state (DumpBasic shuffle wl) = wl
    ∧ (∀ k, k ∈ lines ↔ m !! k = Some true ∨ m !! k = Some false)
    ∧ NoDup lines
    ∧ StronglySorted le_string lines
    ∧ ∀ shuffle', range_order shuffle' → DumpBasic shuffle' wl = DumpBasic shuffle wl.
Proof.
  intros Hs wl. exists (GoSort.Strings (shuffle (keys m))). unfold wl.
  rewrite !DumpBasic_run. split_and!; try done.
  - intros k. rewrite Strings_Permutation, (Hs (keys m)), elem_of_keys.
    split; [intros [[|] ->]; auto|intros [->| ->]; eauto].
  - rewrite Strings_Permutation, (Hs (keys m)). apply NoDup_keys.
  - apply Sorted_StronglySorted; [apply _|apply Strings_sorted].
  - intros shuffle' Hs'. rewrite !DumpBasic_run.
    rewrite (Strings_order (shuffle' (keys m)) (shuffle (keys m))); [done|].
    by rewrite (Hs' (keys m)), (Hs (keys m)).
Qed.

Lemma DumpBasic_sorted_witness :
  let wl := state (Adds [ip_8_8_8_8; ip_127_0_0_1] NewBasic) in
  ∃ lines,
    result (DumpBasic (@rev string) wl)
    = Returns (bytes_of_string (GoStrings.Join lines (String (chr 10) "")))
    ∧ state (DumpBasic (@rev string) wl) = wl
    ∧ (∀ k, k ∈ lines
            ↔ (<["127.0.0.1" := true]> (<["8.8.8.8" := true]> ∅) : gmap string bool) !! k
              = Some true
              ∨ (<["127.0.0.1" := true]> (<["8.8.8.8" := true]> ∅) : gmap string bool) !! k
                = Some false)
    ∧ NoDup lines
    ∧ StronglySorted le_string lines
    ∧ ∀ shuffle', range_order shuffle' → DumpBasic shuffle' wl = DumpBasic (@rev string) wl.
Proof.
  apply (DumpBasic_sorted (@rev string) mutex (<["127.0.0.1" := true]> (<["8.8.8.8" := true]> ∅))).
  intros l. rewrite <- Permutation_rev. reflexivity.
Defined.

(** ** Requests *)

Section Requests.

Context {handler func : Type}.
Variable SplitHostPort : string → (string * string) + error.

(** X10: the two lookups read the remote address in one way.  They
    fail only without a request, a connection or an address, or with the
    error of [SplitHostPort]; a host that is no IP address gives the nil
    address and no error, and every other host an address of sixteen
    bytes. *)
Theorem lookup_address (s : string) :
  NetConnLookup SplitHostPort (Some {| Conn_RemoteAddr := Some s |})
  = HTTPRequestLookup SplitHostPort (Some {| RemoteAddr := s |})
  ∧ match SplitHostPort s with
    | inr e => HTTPRequestLookup SplitHostPort (Some {| RemoteAddr := s |}) = inr e
    | inl (host, _) =>
        ∃ ip, HTTPRequestLookup SplitHostPort (Some {| RemoteAddr := s |}) = inl ip
              ∧ (net.ParseIP host = None ∧ ip = []
                 ∨ net.ParseIP host = Some ip ∧ length ip = 16%nat ∧ validIP ip = true)
    end.
Proof.
  split; [done|]. unfold HTTPRequestLookup. simpl.
  destruct (SplitHostPort s) as [[host port]|e]; [|done].
  destruct (net.ParseIP host) as [ip|] eqn:E; eexists; (split; [done|]).
  - right. split; [done|]. split; [by apply (ParseIP_length host)|by apply (ParseIP_valid host)].
  - by left.
Qed.

(** [Permitted] of the nil address is false in every state of the two
    lists. *)
Lemma Permitted_nil wl wln :
  Permitted (Basic_ACL wl) [] = Returns false
  ∧ Permitted (BasicNet_ACL wln) [] = Returns false.
Proof.
  split; cbn [Permitted Basic_ACL BasicNet_ACL].
  - by rewrite Basic_Permitted_invalid.
  - by rewrite BasicNet_Permitted_invalid.
Qed.



End Requests.



(** ** The handlers of the example server *)

(** X13: on a list that can be used, the add handler of the example
    answers that it added what the form holds, whatever that is.  When
    [ParseIP] refuses it, the list is left as it was by both handlers and
    the remove handler answers that it removed the nil address; when
    [ParseIP] accepts it, the address is permitted after the add handler
    and not after the remove handler. *)
Theorem example_handlers (addr : string) (mu : Mutex) (m : gmap string bool) :
  let wl := {| Basic.lock := Some mu; Basic.allowlist := Some m |} in
  result (addIP addr wl)
  = Returns [Printf ("request to add " +:+ addr +:+ " to the allowlist");
             Write ("Added " +:+ addr +:+ " to allowlist." +:+ newline)]
  ∧ match net.ParseIP addr with
    | Some ip =>
        result (Basic.Permitted ip (state (addIP addr wl))) = Returns true
        ∧ result (Basic.Permitted ip (state (delIP addr wl))) = Returns false
        ∧ result (delIP addr wl)
          = Returns [Printf ("request to remove " +:+ addr +:+ " from the allowlist");
                     Write ("Removed " +:+ net.IP_String ip +:+ " from allowlist." +:+ newline)]
    | None =>
        state (addIP addr wl) = wl
        ∧ state (delIP addr wl) = wl
        ∧ result (delIP addr wl)
          = Returns [Printf ("request to remove " +:+ addr +:+ " from the allowlist");
                     Write ("Removed <nil> from allowlist." +:+ newline)]
    end.
Proof.
  intros wl. unfold wl, addIP, delIP.
  destruct (net.ParseIP addr) as [ip|] eqn:E; cbn [from_option id].
  - pose proof (ParseIP_valid addr ip E) as Hv.
    erewrite !bind_run by (by apply Basic_Add_run || by apply Basic_Remove_run).
    unfold result, state, trace. simpl.
    rewrite !Basic_Permitted_run by done. simpl.
    by rewrite lookup_insert_eq, lookup_delete_eq.
  - erewrite !bind_run by (by apply Basic_Add_invalid || by apply Basic_Remove_invalid).
    done.
Qed.

Lemma example_handlers_witness :
  let wl := {| Basic.lock := Some mutex; Basic.allowlist := Some ∅ |} in
  result (addIP "10.1.2.3" wl)
  = Returns [Printf ("request to add " +:+ "10.1.2.3" +:+ " to the allowlist");
             Write ("Added " +:+ "10.1.2.3" +:+ " to allowlist." +:+ newline)]
  ∧ result (Basic.Permitted (To16 ip_10_1_2_3) (state (addIP "10.1.2.3" wl))) = Returns true
  ∧ result (Basic.Permitted (To16 ip_10_1_2_3) (state (delIP "10.1.2.3" wl))) = Returns false
  ∧ result (delIP "10.1.2.3" wl)
    = Returns [Printf ("request to remove " +:+ "10.1.2.3" +:+ " from the allowlist");
               Write ("Removed " +:+ net.IP_String (To16 ip_10_1_2_3)
                      +:+ " from allowlist." +:+ newline)].
Proof. exact (example_handlers "10.1.2.3" mutex ∅). Defined.

(** ** Networks printed and parsed back *)

Lemma band_ok_all :
  forallb (λ x, forallb (band_ok x) (N_range 256 0)) (N_range 256 0) = true.
Proof. vm_cast_no_check (eq_refl true). Qed.

Lemma band_ok_bytes (a k : byte) :
  net.band (net.band a k) k = net.band a k ∧ (net.band a k = xff → k = xff).
Proof.
  pose proof band_ok_all as H. rewrite forallb_forall in H.
  specialize (H (Byte.to_N a)). rewrite forallb_forall in H.
  pose proof (Byte.to_N_bounded a) as Ba. pose proof (Byte.to_N_bounded k) as Bk.
  specialize (H ltac:(apply N_range_In; simpl; lia) (Byte.to_N k)
                ltac:(apply N_range_In; simpl; lia)).
  unfold band_ok in H. rewrite !byte_of_to_N in H. cbv zeta in H.
  apply andb_true_iff in H as [H1 H2]. split.
  - by apply Byte.byte_dec_bl.
  - intros E. rewrite E in H2. simpl in H2. by apply Byte.byte_dec_bl.
Qed.

Lemma zip_with_band_idem (b m : list byte) :
  zip_with net.band (zip_with net.band b m) m = zip_with net.band b m.
Proof.
  revert m. induction b as [|x b IH]; intros [|y m]; simpl; try done.
  f_equal; [apply band_ok_bytes|apply IH].
Qed.

Lemma mask_ok_all :
  forallb (mask_ok 4) (N_range 33 0) && forallb (mask_ok 16) (N_range 129 0)
  && forallb dtoi_ok (N_range 129 0) && forallb mapped_ok (N_range 129 0) = true.
Proof. vm_cast_no_check (eq_refl true). Qed.

Lemma simpleMaskLength_fill4 k :
  (k ≤ 32)%N → net.simpleMaskLength (net.CIDRMask_fill 4 k) = Some (N.to_nat k).
Proof.
  intros Hk. pose proof mask_ok_all as H.
  apply andb_true_iff in H as [[[H _]%andb_true_iff _]%andb_true_iff _].
  rewrite forallb_forall in H. specialize (H k ltac:(apply N_range_In; simpl; lia)).
  unfold mask_ok in H. destruct (net.simpleMaskLength _) as [n|]; [|done].
  apply N.eqb_eq in H. f_equal. lia.
Qed.

Lemma simpleMaskLength_fill16 k :
  (k ≤ 128)%N → net.simpleMaskLength (net.CIDRMask_fill 16 k) = Some (N.to_nat k).
Proof.
  intros Hk. pose proof mask_ok_all as H.
  apply andb_true_iff in H as [[[_ H]%andb_true_iff _]%andb_true_iff _].
  rewrite forallb_forall in H. specialize (H k ltac:(apply N_range_In; simpl; lia)).
  unfold mask_ok in H. destruct (net.simpleMaskLength _) as [n|]; [|done].
  apply N.eqb_eq in H. f_equal. lia.
Qed.

Lemma dtoi_uitoa k :
  (k ≤ 128)%N →
  net.dtoi (net.uitoa k) = (k, String.length (net.uitoa k), true)
  ∧ all_chars lowerhex (net.uitoa k) = true
  ∧ net.uitoa k ≠ "".
Proof.
  intros Hk. pose proof mask_ok_all as H.
  apply andb_true_iff in H as [[_ H]%andb_true_iff _].
  rewrite forallb_forall in H. specialize (H k ltac:(apply N_range_In; simpl; lia)).
  unfold dtoi_ok in H. apply andb_true_iff in H as [[H Hc]%andb_true_iff Hne].
  destruct (net.dtoi _) as [[n i] ok].
  apply andb_true_iff in H as [[Hn Hi]%andb_true_iff ->].
  apply N.eqb_eq in Hn as ->. apply Nat.eqb_eq in Hi as ->.
  split_and!; [done|done|]. apply negb_true_iff in Hne. by apply String.eqb_neq.
Qed.

Lemma mapped_mask k :
  (k ≤ 128)%N →
  if (96 <=? k)%N
  then drop 12 (net.CIDRMask_fill 16 k) = net.CIDRMask_fill 4 (k - 96)
       ∧ net.allFF (take 12 (net.CIDRMask_fill 16 k)) = true
  else nth 11 (net.CIDRMask_fill 16 k) x00 ≠ xff.
Proof.
  intros Hk. pose proof mask_ok_all as H.
  apply andb_true_iff in H as [_ H].
  rewrite forallb_forall in H. specialize (H k ltac:(apply N_range_In; simpl; lia)).
  unfold mapped_ok in H. destruct (96 <=? k)%N.
  - apply andb_true_iff in H as [H1 H2]. split; [|done]. by apply bool_decide_eq_true in H1.
  - apply negb_true_iff in H. intros E. by rewrite E in H.
Qed.
Lemma CIDRMask_fill_length l k : length (net.CIDRMask_fill l k) = l.
Proof.
  revert k. induction l as [|l IH]; intros k; [done|]. simpl.
  destruct (8 <=? k)%N; simpl; by rewrite IH.
Qed.

Lemma IP_Mask_4 (b : list byte) (k : N) :
  length b = 4%nat →
  net.IP_Mask (net.v4InV6Prefix ++ b) (net.CIDRMask_fill 4 k)
  = Some (zip_with net.band b (net.CIDRMask_fill 4 k)).
Proof.
  intros Hb. unfold net.IP_Mask. rewrite CIDRMask_fill_length.
  rewrite length_app, Hb. cbn [Nat.eqb net.IPv6len net.IPv4len andb length net.v4InV6Prefix Nat.add].
  rewrite take_app_length' by done.
  rewrite bool_decide_eq_true_2 by done.
  rewrite drop_app_length' by done.
  rewrite !CIDRMask_fill_length. cbn [Nat.eqb net.IPv4len andb]. by rewrite Hb.
Qed.

Lemma IP_Mask_16 (b : list byte) (k : N) :
  length b = 16%nat →
  net.IP_Mask b (net.CIDRMask_fill 16 k) = Some (zip_with net.band b (net.CIDRMask_fill 16 k)).
Proof.
  intros Hb. unfold net.IP_Mask, net.IPv4len, net.IPv6len.
  rewrite Hb, CIDRMask_fill_length.
  cbn [Nat.eqb andb]. rewrite CIDRMask_fill_length. cbn [Nat.eqb andb].
  by rewrite Hb.
Qed.

(** What [ParseCIDR] returns when it returns a network. *)
Lemma ParseCIDR_masked s ip n :
  net.ParseCIDR s = inl (ip, n) →
  ∃ b k, (length b = 4%nat ∧ (k ≤ 32)%N ∨ length b = 16%nat ∧ (k ≤ 128)%N) ∧ n = masked b k.
Proof.
  unfold net.ParseCIDR. destruct (net.cutSlash s) as [[addr mask]|]; [|done].
  destruct (net.ParseAddr addr) as [a|] eqn:Ea; [|done].
  destruct (negb (String.eqb (net.Zone a) "")); [done|].
  destruct (net.dtoi mask) as [[k i] ok].
  destruct (negb ok || negb (i =? String.length mask)%nat || (net.BitLen a <? k)%N) eqn:Ec;
    [done|].
  apply orb_false_iff in Ec as [_ Hk]. apply N.ltb_ge in Hk.
  apply ParseAddr_length in Ea. intros [= <- <-].
  destruct a as [b|b z]; cbn [net.As16 net.BitLen] in *.
  - assert (Hb : length b = 4%nat) by (rewrite length_app in Ea; simpl in Ea; lia).
    exists b, k. split; [left; split; [done|lia]|].
    unfold net.CIDRMask. cbn [N.eqb Pos.eqb negb andb].
    rewrite (proj2 (N.ltb_ge 32 k)) by lia.
    change (N.to_nat (32 / 8)) with 4%nat. cbn [from_option id].
    rewrite IP_Mask_4 by done. unfold masked. by rewrite Hb.
  - exists b, k. split; [right; split; [done|lia]|].
    unfold net.CIDRMask. cbn [N.eqb Pos.eqb negb andb].
    rewrite (proj2 (N.ltb_ge 128 k)) by lia.
    change (N.to_nat (128 / 8)) with 16%nat. cbn [from_option id].
    rewrite IP_Mask_16 by done. unfold masked. by rewrite Ea.
Qed.
Lemma cutSlash_append s t :
  all_chars addr_char s = true → net.cutSlash (s +:+ String "/" t) = Some (s, t).
Proof.
  induction s as [|c s IH]; [by rewrite append_nil|]. cbn [all_chars].
  intros [Hc Hs]%andb_true_iff. rewrite append_cons. cbn [net.cutSlash].
  destruct (addr_char_plain c Hc) as (_ & _ & _ & ->). by rewrite IH.
Qed.

Lemma ParseAddr_string4 a b c d :
  net.ParseAddr (net.string4 [a; b; c; d]) = Some (net.Addr4 [a; b; c; d]).
Proof.
  unfold net.ParseAddr. rewrite string4_eq at 2. rewrite octet_scan.
  unfold net.parseIPv4. by rewrite parseIPv4Fields_string4.
Qed.

Lemma ParseAddr_string6 (p : list byte) :
  length p = 16%nat → net.To4 p = None →
  net.ParseAddr (net.string6 p) = Some (net.Addr6 p "").
Proof.
  intros Hp H4. pose proof (ParseIP_string6 p Hp) as H. unfold net.ParseIP in H.
  destruct (net.ParseAddr (net.string6 p)) as [[q|q z]|]; [| |done].
  - simpl in H. destruct q as [|q0 [|q1 [|q2 [|q3 [|q4 q]]]]]; by injection H as <-.
  - simpl in H. destruct z; [|done]. by injection H as ->.
Qed.
Lemma ParseCIDR_printed (addr : string) (a : net.Addr) (k : N) :
  all_chars addr_char addr = true →
  net.ParseAddr addr = Some a → net.Zone a = "" → (k ≤ net.BitLen a)%N → (k ≤ 128)%N →
  net.ParseCIDR (addr +:+ "/" +:+ net.uitoa k)
  = let m := default [] (net.CIDRMask k (net.BitLen a)) in
    inl (net.As16 a,
         {| net.IPNet_IP := default [] (net.IP_Mask (net.As16 a) m); net.IPNet_Mask := m |}).
Proof.
  intros Hc Ha Hz Hk Hk'. unfold net.ParseCIDR.
  change ("/" +:+ net.uitoa k) with (String "/" (net.uitoa k)).
  rewrite cutSlash_append by done. rewrite Ha, Hz. cbn [String.eqb negb].
  destruct (dtoi_uitoa k Hk') as (-> & _). rewrite Nat.eqb_refl. cbn [negb orb].
  by rewrite (proj2 (N.ltb_ge _ _) Hk).
Qed.

(** The network number of a network is masked already. *)
Lemma masked_idem (b : list byte) (k : N) :
  let p := zip_with net.band b (net.CIDRMask_fill (length b) k) in
  length p = length b
  ∧ zip_with net.band p (net.CIDRMask_fill (length b) k) = p
  ∧ masked b k = masked p k.
Proof.
  intros p.
  assert (Hp : length p = length b).
  { unfold p. rewrite length_zip_with, CIDRMask_fill_length. lia. }
  assert (Hid : zip_with net.band p (net.CIDRMask_fill (length b) k) = p)
    by apply zip_with_band_idem.
  split_and!; try done. unfold masked. by rewrite Hp, Hid.
Qed.

Lemma print_parse_4 (p : list byte) (k : N) :
  length p = 4%nat → (k ≤ 32)%N → zip_with net.band p (net.CIDRMask_fill 4 k) = p →
  net.IPNet_String (Some (masked p k)) = net.string4 p +:+ "/" +:+ net.uitoa k
  ∧ net.ParseCIDR (net.string4 p +:+ "/" +:+ net.uitoa k)
    = inl (net.v4InV6Prefix ++ p, masked p k)
  ∧ all_chars addr_char (net.string4 p) = true
  ∧ net.string4 p ≠ "".
Proof.
  intros Hp Hk Hid.
  destruct p as [|a [|b [|c [|d [|e p]]]]]; try done. clear Hp.
  split_and!.
  - unfold net.IPNet_String, masked. cbn [length]. rewrite Hid.
    pose proof (CIDRMask_fill_length 4 k) as Hm.
    pose proof (simpleMaskLength_fill4 k Hk) as Hs.
    destruct (net.CIDRMask_fill 4 k) as [|m0 [|m1 [|m2 [|m3 [|m4 m]]]]]; try done.
    change (net.networkNumberAndMask _) with (Some ([a; b; c; d], [m0; m1; m2; m3])).
    cbv beta iota. rewrite Hs, N2Nat.id. done.
  - rewrite (ParseCIDR_printed _ (net.Addr4 [a; b; c; d])); try done.
    + cbn [net.BitLen net.As16]. unfold net.CIDRMask. cbn [N.eqb Pos.eqb negb andb].
      rewrite (proj2 (N.ltb_ge 32 k)) by lia.
      change (N.to_nat (32 / 8)) with 4%nat. cbn [from_option id].
      rewrite IP_Mask_4 by done. cbn [from_option id]. done.
    + apply string4_chars.
    + apply ParseAddr_string4.
    + lia.
  - apply string4_chars.
  - rewrite string4_eq. destruct (octet_cons a) as (? & ? & ->). done.
Qed.
Lemma To4_16 (p : list byte) q :
  length p = 16%nat → net.To4 p = Some q →
  q = drop 12 p ∧ nth 11 p x00 = xff.
Proof.
  intros Hp. unfold net.To4, net.IPv4len, net.IPv6len. rewrite Hp. cbn [Nat.eqb andb].
  destruct (net.isZeros (take 10 p)); [|done].
  destruct (Byte.eqb (nth 10 p x00) xff); [|done].
  destruct (Byte.eqb (nth 11 p x00) xff) eqn:E; [|done].
  intros [= <-]. split; [done|]. by apply Byte.byte_dec_bl.
Qed.

Lemma nth_zip_with_band (p m : list byte) i :
  (i < length p)%nat → (i < length m)%nat →
  nth i (zip_with net.band p m) x00 = net.band (nth i p x00) (nth i m x00).
Proof.
  revert p m. induction i as [|i IH]; intros [|x p] [|y m]; simpl; try lia; try done.
  intros. apply IH; lia.
Qed.

Lemma drop_zip_with_band (p m : list byte) i :
  drop i (zip_with net.band p m) = zip_with net.band (drop i p) (drop i m).
Proof.
  revert p m. induction i as [|i IH]; intros [|x p] [|y m]; simpl; try done.
  by destruct (drop i p).
Qed.

(** A network of sixteen bytes whose number is an IPv4 address has a
    prefix of 96 bits or more, and is printed as the network of four
    bytes. *)
Lemma masked_mapped (p q : list byte) (k : N) :
  length p = 16%nat → (k ≤ 128)%N → zip_with net.band p (net.CIDRMask_fill 16 k) = p →
  net.To4 p = Some q →
  (96 ≤ k)%N ∧ length q = 4%nat
  ∧ zip_with net.band q (net.CIDRMask_fill 4 (k - 96)) = q
  ∧ net.networkNumberAndMask (masked p k) = net.networkNumberAndMask (masked q (k - 96)).
Proof.
  intros Hp Hk Hid H4. destruct (To4_16 p q Hp H4) as [-> H11].
  pose proof (mapped_mask k Hk) as Hm.
  destruct (96 <=? k)%N eqn:E.
  - apply N.leb_le in E. destruct Hm as [Hd _].
    assert (Hq : length (drop 12 p) = 4%nat) by (rewrite length_drop; lia).
    assert (Hidq : zip_with net.band (drop 12 p) (net.CIDRMask_fill 4 (k - 96)) = drop 12 p).
    { rewrite <- Hd, <- drop_zip_with_band. by rewrite Hid. }
    split_and!; try done.
    unfold net.networkNumberAndMask, masked. cbn [net.IPNet_IP net.IPNet_Mask].
    rewrite Hp, Hq, Hid, Hidq, H4, !CIDRMask_fill_length.
    unfold net.To4. rewrite Hq. cbn [Nat.eqb net.IPv4len net.IPv6len negb].
    by rewrite Hq, Hd.
  - exfalso. apply Hm. rewrite <- Hid in H11.
    rewrite nth_zip_with_band in H11 by (rewrite ?CIDRMask_fill_length; lia).
    by apply band_ok_bytes in H11.
Qed.

Lemma networkNumberAndMask_16 (p m : list byte) :
  length p = 16%nat → length m = 16%nat → net.To4 p = None →
  net.networkNumberAndMask {| net.IPNet_IP := p; net.IPNet_Mask := m |} = Some (p, m).
Proof.
  intros Hp Hm H4. unfold net.networkNumberAndMask. cbn [net.IPNet_IP net.IPNet_Mask].
  rewrite H4. clear H4.
  do 16 (destruct p as [|? p]; [done|]). destruct p; [|done].
  do 16 (destruct m as [|? m]; [done|]). by destruct m.
Qed.

Lemma print_parse_16 (p : list byte) (k : N) :
  length p = 16%nat → (k ≤ 128)%N → zip_with net.band p (net.CIDRMask_fill 16 k) = p →
  net.To4 p = None →
  net.IPNet_String (Some (masked p k)) = net.string6 p +:+ "/" +:+ net.uitoa k
  ∧ net.ParseCIDR (net.string6 p +:+ "/" +:+ net.uitoa k) = inl (p, masked p k)
  ∧ all_chars addr_char (net.string6 p) = true
  ∧ net.string6 p ≠ "".
Proof.
  intros Hp Hk Hid H4. split_and!.
  - unfold net.IPNet_String, masked. rewrite Hp, Hid.
    rewrite networkNumberAndMask_16 by (by rewrite ?CIDRMask_fill_length).
    rewrite simpleMaskLength_fill16, N2Nat.id by done.
    unfold net.IP_String. rewrite Hp, H4. done.
  - rewrite (ParseCIDR_printed _ (net.Addr6 p "")); try done.
    + cbn [net.BitLen net.As16]. unfold net.CIDRMask. cbn [N.eqb Pos.eqb negb andb].
      rewrite (proj2 (N.ltb_ge 128 k)) by lia.
      change (N.to_nat (128 / 8)) with 16%nat. cbn [from_option id].
      rewrite IP_Mask_16 by done. cbn [from_option id]. unfold masked. by rewrite Hp.
    + apply string6_chars.
    + by apply ParseAddr_string6.
  - apply string6_chars.
  - intros E. pose proof (ParseIP_string6 p Hp) as H. by rewrite E in H.
Qed.
(** A network [ParseCIDR] made is printed as an address, a slash and a
    prefix length, and [ParseCIDR] reads that as a network with the same
    network number and mask. *)
Lemma print_parse (n : net.IPNet) :
  parsed_network n →
  ∃ addr k ip' n',
    net.IPNet_String (Some n) = addr +:+ "/" +:+ net.uitoa k
    ∧ all_chars addr_char addr = true ∧ addr ≠ "" ∧ (k ≤ 128)%N
    ∧ net.ParseCIDR (net.IPNet_String (Some n)) = inl (ip', n')
    ∧ net.networkNumberAndMask n' = net.networkNumberAndMask n.
Proof.
  intros (s & ip & (b & k & Hb & ->)%ParseCIDR_masked).
  destruct (masked_idem b k) as (Hp & Hid & ->).
  set (p := zip_with net.band b (net.CIDRMask_fill (length b) k)) in *. clearbody p.
  destruct Hb as [[Hb Hk]|[Hb Hk]]; rewrite Hb in Hp, Hid.
  - destruct (print_parse_4 p k Hp Hk Hid) as (Hs & Hc & Ha & Hne).
    exists (net.string4 p), k, (net.v4InV6Prefix ++ p), (masked p k).
    rewrite Hs. split_and!; try done. lia.
  - destruct (net.To4 p) as [q|] eqn:H4.
    + destruct (masked_mapped p q k Hp Hk Hid H4) as (Hk' & Hq & Hidq & Hnn).
      destruct (print_parse_4 q (k - 96) Hq ltac:(lia) Hidq) as (Hs & Hc & Ha & Hne).
      assert (E : net.IPNet_String (Some (masked p k))
                  = net.IPNet_String (Some (masked q (k - 96)))).
      { unfold net.IPNet_String. by rewrite Hnn. }
      exists (net.string4 q), (k - 96)%N, (net.v4InV6Prefix ++ q), (masked q (k - 96)).
      rewrite E, Hs. split_and!; try done. lia.
    + destruct (print_parse_16 p k Hp Hk Hid H4) as (Hs & Hc & Ha & Hne).
      exists (net.string6 p), k, p, (masked p k).
      rewrite Hs. split_and!; done.
Qed.

Lemma framed_rev k : framed k → framed (String.rev k).
Proof.
  intros (Hne & H1 & H2). split_and!; [|done|by rewrite rev_rev].
  intros E. apply Hne. by rewrite <- (rev_rev k), E.
Qed.

Lemma Join_framed ks sep : Forall framed ks → head_ok (GoStrings.Join ks sep) = true.
Proof.
  intros H. destruct H as [|k ks' (Hne & H1 & _) Hks]; [done|].
  destruct ks' as [|k' ks']; [done|].
  change (GoStrings.Join (k :: k' :: ks') sep)
    with (k +:+ sep +:+ GoStrings.Join (k' :: ks') sep).
  by rewrite head_ok_append.
Qed.

Lemma TrimSpace_Join_framed ks sep :
  Forall framed ks → GoStrings.TrimSpace (GoStrings.Join ks sep) = GoStrings.Join ks sep.
Proof.
  intros H. apply TrimSpace_head_ok; [by apply Join_framed|].
  rewrite rev_Join. apply Join_framed.
  apply Forall_rev, Forall_fmap. eapply Forall_impl; [exact H|]. apply framed_rev.
Qed.

Lemma net_char_comma s : all_chars net_char s = true → lacks "," s = true.
Proof.
  unfold lacks. apply all_chars_impl. intros c Hc.
  apply negb_true_iff, Ascii.eqb_neq. by intros ->.
Qed.

(** The printed form of a network is a token of the compact form. *)
Lemma printed_token addr k :
  all_chars addr_char addr = true → addr ≠ "" → (k ≤ 128)%N →
  let s := addr +:+ "/" +:+ net.uitoa k in
  framed s ∧ lacks "," s = true.
Proof.
  intros Ha Hne Hk s. destruct (dtoi_uitoa k Hk) as (_ & Hu & Hune).
  assert (Hua : all_chars addr_char (net.uitoa k) = true).
  { eapply all_chars_impl; [|exact Hu]. apply lowerhex_addr_char. }
  unfold framed. split_and!.
  - unfold s. by destruct addr.
  - unfold s. rewrite head_ok_append by done. by apply all_chars_head_ok.
  - unfold s. rewrite !rev_append. rewrite append_assoc, head_ok_append.
    + apply all_chars_head_ok. by rewrite all_chars_rev.
    + intros E. apply Hune. by rewrite <- (rev_rev (net.uitoa k)), E.
  - apply net_char_comma. unfold s. rewrite !all_chars_app. apply andb_true_iff.
    split; [|apply andb_true_iff; split].
    + eapply all_chars_impl; [|exact Ha]. intros c Hc. unfold net_char. by rewrite Hc.
    + done.
    + eapply all_chars_impl; [|exact Hua]. intros c Hc. unfold net_char. by rewrite Hc.
Qed.
(** Two lists of networks with the same network numbers and masks, one
    by one. *)
Lemma same_numbers_contained (ns ns' : list net.IPNet) ip :
  Forall2 (λ n n', net.networkNumberAndMask n' = net.networkNumberAndMask n) ns ns' →
  contained ns' ip = contained ns ip
  ∧ map net.IPNet_String (Some <$> ns') = map net.IPNet_String (Some <$> ns).
Proof.
  induction 1 as [|n n' ns ns' Hn _ [IH1 IH2]]; [done|]. split.
  - unfold contained in *. cbn [existsb]. rewrite IH1. f_equal.
    unfold net.Contains. by rewrite Hn.
  - rewrite !fmap_cons. cbn [map]. f_equal; [|exact IH2].
    unfold net.IPNet_String. by rewrite Hn.
Qed.

(** The printed forms of parsed networks are tokens that
    [UnmarshalJSON] reads back. *)
Lemma printed_networks (ns : list net.IPNet) :
  Forall parsed_network ns →
  let strs := map net.IPNet_String (Some <$> ns) in
  ∃ ns',
    Forall2 (λ n n', net.networkNumberAndMask n' = net.networkNumberAndMask n) ns ns'
    ∧ net_entry <$> strs = Some <$> ns'
    ∧ first_cidr_error strs = None
    ∧ Forall framed strs
    ∧ Forall (λ s, lacks "," s = true) strs.
Proof.
  induction 1 as [|n ns Hn _ (ns' & IH1 & IH2 & IH3 & IH4 & IH5)]; [by exists []|].
  destruct (print_parse n Hn) as (addr & k & ip' & n' & Hs & Ha & Hne & Hk & Hp & Hnn).
  destruct (printed_token addr k Ha Hne Hk) as [Hf Hl]. rewrite <- Hs in Hf, Hl.
  assert (Ht : GoStrings.TrimSpace (net.IPNet_String (Some n)) = net.IPNet_String (Some n)).
  { destruct Hf as (_ & H1 & H2). by apply TrimSpace_head_ok. }
  assert (He : String.eqb (net.IPNet_String (Some n)) "" = false).
  { apply String.eqb_neq. by destruct Hf. }
  exists (n' :: ns'). rewrite fmap_cons. cbn [map]. split_and!.
  - by constructor.
  - rewrite !fmap_cons. f_equal; [|done]. unfold net_entry. by rewrite Ht, He, Hp.
  - cbn [first_cidr_error]. by rewrite Ht, He, Hp.
  - by constructor.
  - by constructor.
Qed.

Lemma BasicNet_MarshalJSON_run mu l :
  BasicNet.MarshalJSON {| BasicNet.lock := mu; BasicNet.allowlist := l |}
  = (Returns (bytes_of_string
                (dquote +:+ GoStrings.Join (map net.IPNet_String l) "," +:+ dquote), None),
     {| BasicNet.lock := mu; BasicNet.allowlist := l |}, [EvRead]).
Proof. reflexivity. Qed.

(** X17: a network list with a lock whose entries, one or more, were
    all made by [ParseCIDR] is written by [MarshalJSON] in a form that
    [UnmarshalJSON] reads into any list, with no error; the list then
    permits exactly the addresses the first one permits, and is written
    by [MarshalJSON] in the same form. *)
Theorem network_round_trip (mu : Mutex) (ns : list net.IPNet) (target : BasicNet.t) :
  ns ≠ [] → Forall parsed_network ns →
  let L := {| BasicNet.lock := Some mu; BasicNet.allowlist := Some <$> ns |} in
  ∃ out,
    result (BasicNet.MarshalJSON L) = Returns (out, None)
    ∧ state (BasicNet.MarshalJSON L) = L
    ∧ result (BasicNet.UnmarshalJSON out target) = Returns None
    ∧ (∀ ip, result (BasicNet.Permitted ip (state (BasicNet.UnmarshalJSON out target)))
             = result (BasicNet.Permitted ip L))
    ∧ result (BasicNet.MarshalJSON (state (BasicNet.UnmarshalJSON out target)))
      = Returns (out, None).
Proof.
  intros Hne Hns L. unfold L. clear L.
  destruct (printed_networks ns Hns) as (ns' & H2 & Hent & Herr & Hf & Hl).
  set (strs := map net.IPNet_String (Some <$> ns)) in *.
  assert (Hstrs : strs ≠ []) by (unfold strs; by destruct ns).
  rewrite BasicNet_MarshalJSON_run. fold strs.
  rewrite compact_bytes. eexists. split; [done|]. split; [done|].
  destruct (compact_quoted (GoStrings.Join strs ",")) as (Hq & Hlen & Hb).
  assert (Htok : tokens (quote :: bytes_of_string (GoStrings.Join strs ",") ++ [quote]) = strs).
  { unfold tokens. rewrite Hb, TrimSpace_Join_framed by done. by apply Split_Join. }
  set (out := quote :: bytes_of_string (GoStrings.Join strs ",") ++ [quote]) in *.
  assert (Hx : ∃ tr, BasicNet.UnmarshalJSON out target
                     = (Returns None,
                        {| BasicNet.lock := Some (default mutex (BasicNet.lock target));
                           BasicNet.allowlist := Some <$> ns' |}, tr)).
  { rewrite BasicNet_UnmarshalJSON_run by done. rewrite Htok.
    pose proof (BasicNet_UnmarshalJSON_loop_summary strs
                  (Some (default mutex (BasicNet.lock target))) []) as H.
    cbv zeta in H. cbn [app length] in H. rewrite Herr, Hent in H. destruct H as [-> ->].
    by eexists. }
  destruct Hx as [tr ->]. unfold result at 1, state. cbn [fst snd].
  split; [done|]. split.
  - intros ip. rewrite !BasicNet_Permitted_entries.
    by destruct (same_numbers_contained ns ns' ip H2) as [-> _].
  - rewrite BasicNet_MarshalJSON_run.
    destruct (same_numbers_contained ns ns' [] H2) as [_ ->]. fold strs.
    by rewrite compact_bytes.
Qed.

Lemma network_round_trip_witness :
  let L := {| BasicNet.lock := Some mutex;
              BasicNet.allowlist := Some <$> [net_10_0_0_0_8; net_10_1_0_0_16] |} in
  ∃ out,
    result (BasicNet.MarshalJSON L) = Returns (out, None)
    ∧ state (BasicNet.MarshalJSON L) = L
    ∧ result (BasicNet.UnmarshalJSON out NewBasicNet) = Returns None
    ∧ (∀ ip, result (BasicNet.Permitted ip (state (BasicNet.UnmarshalJSON out NewBasicNet)))
             = result (BasicNet.Permitted ip L))
    ∧ result (BasicNet.MarshalJSON (state (BasicNet.UnmarshalJSON out NewBasicNet)))
      = Returns (out, None).
Proof.
  apply (network_round_trip mutex [net_10_0_0_0_8; net_10_1_0_0_16] NewBasicNet).
  - done.
  - repeat constructor.
    + by exists "10.1.2.3/8", (net.v4InV6Prefix ++ [x0a; x01; x02; x03]).
    + by exists "10.1.2.3/16", (net.v4InV6Prefix ++ [x0a; x01; x02; x03]).
Defined.
